(** * SnapMag: the cross-layer interaction core and the merge policy

    A shallow embedding of the TypeScript front end (App.tsx,
    components/ContextMenu.tsx, components/ImageLightbox.tsx,
    components/ImageCard.tsx, services/api.ts, types.ts) and the
    properties of its right-click routing, menu life cycle, post-copy
    merge, store access and picture loading.

    Layout. First the model, one module per source file: [Merge] (the
    updater of [handleCopy]), [Dom], [ContextMenu], [Api], [Async] (the
    [async] handlers as suspendable tasks), [App], [ImageLightbox] and
    [Screen] (both layers side by side), [Procs] and [Services] (the
    functions of services/api.ts and their module variable),
    [LightboxImages] (the picture cache of the overlay) and [ImageCard].
    Then the vocabulary of the specification ([Spec], [Props]), example
    inputs ([Examples]), and the properties, one module per subject.

    Conventions.
    - A JavaScript [number] that holds a timestamp or a pixel coordinate
      is an integer here ([Z]); [string | null] is [option string].
    - React state is an explicit record; a handler is a function from the
      state (and the event or clock value it reads) to the next state.
    - A [Map] keeps its keys in insertion order, so it is an association
      list; [Array.prototype.sort] is stable (ECMAScript 2019), so with a
      consistent comparator its result is the one of any stable sort. *)

From Stdlib Require Import List ZArith Bool String Lia Sorted Permutation.
Import ListNotations.
Local Open Scope Z_scope.

(* ================================================================== *)
(** ** types.ts *)

Record ImageMetadata : Type := mkImage {
  id : string;
  path : string;
  createdAt : Z;
  ocrResult : option string
}.

Record ContextMenuPosition : Type := mkPos {
  x : Z;
  y : Z
}.

(** The state object [{ position, image }] kept by App and by the
    lightbox. *)
Record MenuState : Type := mkMenu {
  position : option ContextMenuPosition;
  image : option ImageMetadata
}.

Definition closedMenu : MenuState := mkMenu None None.

Definition isSome {A : Type} (o : option A) : bool :=
  match o with Some _ => true | None => false end.

(* ================================================================== *)
(** ** The merge applied by [handleCopy] (App.tsx, [setImages(prev => ...)]) *)

Module Merge.

(** *** [Map<string, ImageMetadata[]>] in insertion order *)

Definition JsMap (V : Type) : Type := list (string * V).

Fixpoint Map_get {V : Type} (k : string) (m : JsMap V) : option V :=
  match m with
  | [] => None
  | (k', v) :: m' => if String.eqb k k' then Some v else Map_get k m'
  end.

(** [m.set(k, v)]: an existing key keeps its place, a new key goes last. *)
Fixpoint Map_set {V : Type} (k : string) (v : V) (m : JsMap V) : JsMap V :=
  match m with
  | [] => [(k, v)]
  | (k', v') :: m' =>
      if String.eqb k k' then (k, v) :: m' else (k', v') :: Map_set k v m'
  end.

(** [contentGroups.get(img.id) || []] *)
Definition get_or_empty {V : Type} (k : string) (m : JsMap (list V)) : list V :=
  match Map_get k m with Some g => g | None => [] end.

(** Body of [prev.forEach(img => contentGroups.set(img.id, [...old, img]))]. *)
Definition group_step (m : JsMap (list ImageMetadata)) (img : ImageMetadata)
  : JsMap (list ImageMetadata) :=
  Map_set (id img) (get_or_empty (id img) m ++ [img]) m.

Definition contentGroups (prev : list ImageMetadata)
  : JsMap (list ImageMetadata) :=
  fold_left group_step prev [].

(** *** [imgs.reduce((a, b) => a.createdAt < b.createdAt ? a : b)] *)

(** [Array.prototype.reduce] without an initial value: the first element
    seeds the accumulator; on an empty array it throws ([None]). *)
Definition reduce {A : Type} (f : A -> A -> A) (l : list A) : option A :=
  match l with
  | [] => None
  | a :: l' => Some (fold_left f l' a)
  end.

Definition older (a b : ImageMetadata) : ImageMetadata :=
  if createdAt a <? createdAt b then a else b.

(** [contentGroups.forEach(imgs => result.push(imgs.reduce(...)))] *)
Definition push_oldest (acc : option (list ImageMetadata))
  (entry : string * list ImageMetadata) : option (list ImageMetadata) :=
  match acc with
  | None => None
  | Some result =>
      match reduce older (snd entry) with
      | None => None
      | Some oldest => Some (result ++ [oldest])
      end
  end.

Definition collect (groups : JsMap (list ImageMetadata))
  : option (list ImageMetadata) :=
  fold_left push_oldest groups (Some []).

(** *** [result.sort((a, b) => b.createdAt - a.createdAt)] *)

(** The engine chooses the algorithm, the language requires the sort to
    be stable; with a comparator that orders by one key this fixes the
    result, which is computed here by insertion. *)

Definition compareFn (a b : ImageMetadata) : Z := createdAt b - createdAt a.

Section StableSort.
Variable A : Type.
Variable cmp : A -> A -> Z.

(** [a] stood before every element of [l]; it stays before the first
    element it does not have to follow. *)
Fixpoint insert (a : A) (l : list A) : list A :=
  match l with
  | [] => [a]
  | b :: l' => if cmp a b <=? 0 then a :: b :: l' else b :: insert a l'
  end.

Fixpoint sort (l : list A) : list A :=
  match l with
  | [] => []
  | a :: l' => insert a (sort l')
  end.

End StableSort.

Arguments insert {A} cmp a l.
Arguments sort {A} cmp l.

(** The whole updater passed to [setImages]. [None] stands for the
    [TypeError] of a [reduce] on an empty group. *)
Definition merge (prev : list ImageMetadata) : option (list ImageMetadata) :=
  option_map (sort compareFn) (collect (contentGroups prev)).

End Merge.

(* ================================================================== *)
(** ** The part of the DOM the handlers look at *)

Module Dom.

(** An element with its chain of ancestors: local name and attributes,
    and the parent element unless it is the root. *)
Inductive Element : Type :=
| Root (name : string) (attrs : list (string * string))
| Child (name : string) (attrs : list (string * string)) (parent : Element).

Definition localName (e : Element) : string :=
  match e with Root n _ | Child n _ _ => n end.

Definition attributes (e : Element) : list (string * string) :=
  match e with Root _ a | Child _ a _ => a end.

Definition parentElement (e : Element) : option Element :=
  match e with Root _ _ => None | Child _ _ p => Some p end.

Fixpoint lookup (name : string) (attrs : list (string * string))
  : option string :=
  match attrs with
  | [] => None
  | (n, v) :: attrs' => if String.eqb n name then Some v else lookup name attrs'
  end.

(** [el.getAttribute(name)]: the value or [null]. *)
Definition getAttribute (name : string) (e : Element) : option string :=
  lookup name (attributes e).

(** The selectors used: a type selector (['main']) and an attribute
    presence selector (['[data-image-card]']). *)
Inductive Selector : Type :=
| ByTag (name : string)
| ByAttr (name : string).

Definition matches (sel : Selector) (e : Element) : bool :=
  match sel with
  | ByTag n => String.eqb (localName e) n
  | ByAttr n => isSome (getAttribute n e)
  end.

(** [el.closest(sel)]: the element itself or its nearest ancestor that
    matches. *)
Fixpoint closest (sel : Selector) (e : Element) : option Element :=
  if matches sel e then Some e
  else match e with
       | Child _ _ p => closest sel p
       | Root _ _ => None
       end.

(** [element?.closest(sel)] *)
Definition closestOpt (sel : Selector) (e : option Element) : option Element :=
  match e with Some e' => closest sel e' | None => None end.

(** A [contextmenu] mouse event, with the two document queries the
    handlers make at its coordinates: [document.elementFromPoint] (the
    topmost element or [null]) and [document.elementsFromPoint]. *)
Record MouseEvent : Type := mkMouseEvent {
  button : Z;
  clientX : Z;
  clientY : Z;
  target : Element;
  elementFromPoint : option Element;
  elementsFromPoint : list Element
}.

(** What a handler did to the event. *)
Record EventFlags : Type := mkFlags {
  defaultPrevented : bool;
  propagationStopped : bool
}.

Definition untouched : EventFlags := mkFlags false false.
Definition consumed : EventFlags := mkFlags true true.

Definition at_pointer (e : MouseEvent) : ContextMenuPosition :=
  mkPos (clientX e) (clientY e).

End Dom.

(* ================================================================== *)
(** ** components/ContextMenu.tsx *)

Module ContextMenu.
Import Dom.

Definition MENU_WIDTH : Z := 192.
Definition MENU_OVERFLOW_THRESHOLD : Z := MENU_WIDTH * 1.

(** The props that are callbacks, as the calls the component makes. *)
Inductive Callback : Type :=
| onClose
| onCopy (image : ImageMetadata)
| onDelete (image : ImageMetadata)
| onClearAll
| onReposition (position : ContextMenuPosition) (targetImagePath : option string).

(** [useMemo] on [position]: flip to the left of the anchor when the menu
    would cross the right edge. *)
Definition adjustedPosition (innerWidth : Z)
  (position : option ContextMenuPosition) : option ContextMenuPosition :=
  match position with
  | None => None
  | Some p =>
      let distanceToRightEdge := innerWidth - x p in
      if distanceToRightEdge <? MENU_OVERFLOW_THRESHOLD
      then Some (mkPos (x p - MENU_WIDTH) (y p))
      else Some (mkPos (x p) (y p))
  end.

Record MenuItem : Type := mkItem {
  label : string;
  onClick : Callback;
  danger : bool
}.

Definition copyItem (image : ImageMetadata) : MenuItem :=
  mkItem "复制" (onCopy image) false.

Definition deleteItem (image : ImageMetadata) : MenuItem :=
  mkItem "删除" (onDelete image) true.

Definition clearItem : MenuItem :=
  mkItem "清空" onClearAll true.

(** [const menuItems = hasImage ? [copy, delete] : [clear]] *)
Definition menuItems (image : option ImageMetadata) : list MenuItem :=
  match image with
  | Some img => [copyItem img; deleteItem img]
  | None => [clearItem]
  end.

(** What the component renders: nothing without a position, else the
    menu at the adjusted anchor with its entries. *)
Definition render (innerWidth : Z) (position : option ContextMenuPosition)
  (image : option ImageMetadata)
  : option (ContextMenuPosition * list MenuItem) :=
  match adjustedPosition innerWidth position with
  | None => None
  | Some p => Some (p, menuItems image)
  end.

(** [handleEscape] on [keydown]. *)
Definition handleEscape (key : string) : list Callback :=
  if String.eqb key "Escape" then [onClose] else [].

(** The component's own capture listener for [contextmenu]. [hasReposition]
    tells whether the optional [onReposition] prop was passed. *)
Definition handleNativeContextMenu (hasReposition : bool) (event : MouseEvent)
  : list Callback * EventFlags :=
  if negb (button event =? 2) then ([], untouched)
  else if negb hasReposition then ([onClose], consumed)
  else
    match closest (ByAttr "data-image-path") (target event) with
    | Some targetImageElement =>
        ([onReposition (at_pointer event)
            (getAttribute "data-image-path" targetImageElement)], consumed)
    | None =>
        match find (fun el => isSome (getAttribute "data-image-card" el))
                   (elementsFromPoint event) with
        | Some imageCard =>
            ([onReposition (at_pointer event)
                (getAttribute "data-image-path" imageCard)], consumed)
        | None => ([onReposition (at_pointer event) None], consumed)
        end
    end.

(** [onMouseDown] and [onMouseUp] of the dimming layer: only the left
    button closes. *)
Definition overlayMouseDown (btn : Z) : list Callback * EventFlags :=
  if btn =? 0 then ([onClose], consumed) else ([], untouched).

Definition overlayMouseUp (btn : Z) : list Callback * EventFlags :=
  if btn =? 0 then ([onClose], consumed) else ([], untouched).

(** [onClick] of an entry: [item.onClick(); onClose();] *)
Definition itemClick (item : MenuItem) : list Callback :=
  [onClick item; onClose].

(** The user inputs an open menu reacts to. *)
Inductive Input : Type :=
| KeyDown (key : string)
| RightClick (event : MouseEvent)
| OverlayMouseDown (btn : Z)
| OverlayMouseUp (btn : Z)
| ItemClick (item : MenuItem).

Definition react (hasReposition : bool) (i : Input) : list Callback :=
  match i with
  | KeyDown key => handleEscape key
  | RightClick event => fst (handleNativeContextMenu hasReposition event)
  | OverlayMouseDown btn => fst (overlayMouseDown btn)
  | OverlayMouseUp btn => fst (overlayMouseUp btn)
  | ItemClick item => itemClick item
  end.

End ContextMenu.

(* ================================================================== *)
(** ** services/api.ts, as App.tsx uses it *)

Module Api.

Inductive Call : Type :=
| getImages
| deleteImage (id : string)
| clearAllImages
| resetClipboardHash
| copyFileToClipboard (path : string).

Definition Result (c : Call) : Type :=
  match c with
  | getImages => list ImageMetadata
  | _ => unit
  end.

(** A settled promise. *)
Inductive Settled (A : Type) : Type :=
| Fulfilled (value : A)
| Rejected (reason : string).

Arguments Fulfilled {A} value.
Arguments Rejected {A} reason.

(** The collaborator behind [invoke]: whether the Tauri runtime is there,
    and how each command settles. *)
Record Environment : Type := mkEnv {
  isTauri : bool;
  invoke : forall c : Call, Settled (Result c)
}.

(** Outside Tauri a read gives the empty list and a mutation does
    nothing. *)
Definition degraded (c : Call) : Result c :=
  match c with
  | getImages => []
  | deleteImage _ => tt
  | clearAllImages => tt
  | resetClipboardHash => tt
  | copyFileToClipboard _ => tt
  end.

Definition perform (env : Environment) (c : Call) : Settled (Result c) :=
  if isTauri env then invoke env c else Fulfilled (degraded c).

Definition fulfilled {A : Type} (s : Settled A) : bool :=
  match s with Fulfilled _ => true | Rejected _ => false end.

End Api.

(* ================================================================== *)
(** ** Asynchronous handlers *)

Module Async.
Import Api.

(** The synchronous effects of App's asynchronous handlers:
    [setImages] (with a value or an updater, which may throw) and the
    console. *)
Inductive Effect : Type :=
| SetImages (updater : list ImageMetadata -> option (list ImageMetadata))
| ConsoleLog (msg : string)
| ConsoleError (msg : string).

(** An [async] function body: it runs up to an [await], is suspended until
    the promise settles, and goes on. *)
Inductive Task (A : Type) : Type :=
| Return (a : A)
| Throw (reason : string)
| Await (c : Call) (k : Settled (Result c) -> Task A)
| Sleep (ms : Z) (k : Task A)
| Do (e : Effect) (k : Task A).

Arguments Return {A} a.
Arguments Throw {A} reason.
Arguments Await {A} c k.
Arguments Sleep {A} ms k.
Arguments Do {A} e k.

Fixpoint bind {A B : Type} (t : Task A) (f : A -> Task B) : Task B :=
  match t with
  | Return a => f a
  | Throw r => Throw r
  | Await c k => Await c (fun s => bind (k s) f)
  | Sleep ms k => Sleep ms (bind k f)
  | Do e k => Do e (bind k f)
  end.

(** [try { t } catch (error) { h error }] *)
Fixpoint tryCatch {A : Type} (t : Task A) (h : string -> Task A) : Task A :=
  match t with
  | Return a => Return a
  | Throw r => h r
  | Await c k => Await c (fun s => tryCatch (k s) h)
  | Sleep ms k => Sleep ms (tryCatch k h)
  | Do e k => Do e (tryCatch k h)
  end.

(** [await call]: the value, or the rejection rethrown. *)
Definition await (c : Call) : Task (Result c) :=
  Await c (fun s =>
    match s with
    | Fulfilled v => Return v
    | Rejected r => Throw r
    end).

(** [await new Promise(resolve => setTimeout(resolve, ms))] *)
Definition sleep (ms : Z) : Task unit := Sleep ms (Return tt).

Definition effect (e : Effect) : Task unit := Do e (Return tt).

(** Where a started task stands once its synchronous part has run. *)
Inductive Pending : Type :=
| Finished
| Waiting (c : Call) (k : Settled (Result c) -> Task unit)
| Sleeping (ms : Z) (k : Task unit).

(** What an observer of the App/store boundary sees, in order. *)
Inductive Event : Type :=
| Called (c : Call)
| Resolved (c : Call)
| Failed (c : Call) (reason : string)
| TimerSet (ms : Z)
| TimerFired (ms : Z)
| ImagesSet (images : list ImageMetadata)
| Logged (msg : string)
| Errored (msg : string)
| Uncaught (reason : string).

Definition settled (c : Call) (s : Settled (Result c)) : Event :=
  match s with
  | Fulfilled _ => Resolved c
  | Rejected r => Failed c r
  end.

End Async.

Declare Scope task_scope.
Delimit Scope task_scope with task.
Notation "x <- t ;; k" := (Async.bind t (fun x => k))
  (at level 61, t at next level, right associativity) : task_scope.
Notation "t ;; k" := (Async.bind t (fun _ => k))
  (at level 61, right associativity) : task_scope.

(* ================================================================== *)
(** ** App.tsx *)

Module App.
Import Dom Api Async.

Record State : Type := mkState {
  images : list ImageMetadata;
  contextMenu : MenuState;
  lightboxOpen : bool;
  lightboxIndex : Z;
  lastCloseTime : Z
}.

(** [useState([])], [useState({position: null, image: null})],
    [useState(false)], [useState(0)], [useRef(0)]. *)
Definition initial : State := mkState [] closedMenu false 0 0.

Definition setImages (l : list ImageMetadata) (s : State) : State :=
  mkState l (contextMenu s) (lightboxOpen s) (lightboxIndex s) (lastCloseTime s).

Definition setContextMenu (m : MenuState) (s : State) : State :=
  mkState (images s) m (lightboxOpen s) (lightboxIndex s) (lastCloseTime s).

Definition setLightboxOpen (b : bool) (s : State) : State :=
  mkState (images s) (contextMenu s) b (lightboxIndex s) (lastCloseTime s).

Definition setLightboxIndex (i : Z) (s : State) : State :=
  mkState (images s) (contextMenu s) (lightboxOpen s) i (lastCloseTime s).

Definition setLastCloseTime (t : Z) (s : State) : State :=
  mkState (images s) (contextMenu s) (lightboxOpen s) (lightboxIndex s) t.

(** [list.find(img => img.path === imagePath)] with [imagePath] a string
    or [null]. *)
Definition findByPath (imagePath : option string) (l : list ImageMetadata)
  : option ImageMetadata :=
  find (fun img =>
          match imagePath with
          | Some p => String.eqb (path img) p
          | None => false
          end) l.

(** [element?.closest(sel)], then its [data-image-path] looked up in the
    list. *)
Definition recordUnder (sel : Selector) (element : option Element)
  (l : list ImageMetadata) : option ImageMetadata :=
  match closestOpt sel element with
  | Some el => findByPath (getAttribute "data-image-path" el) l
  | None => None
  end.

(** The document-level capture listener of App. The result is the next
    state and whether [e.preventDefault()] was called. *)
Definition handleNativeContextMenu (now : Z) (e : MouseEvent) (s : State)
  : State * bool :=
  if now - lastCloseTime s <? 300 then (s, false)
  else if isSome (position (contextMenu s)) then (s, false)
  else
    (* e.preventDefault() *)
    let element := elementFromPoint e in
    match recordUnder (ByAttr "data-image-card") element (images s) with
    | Some image =>
        (setContextMenu (mkMenu (Some (at_pointer e)) (Some image)) s, true)
    | None =>
        match recordUnder (ByAttr "data-lightbox-image") element (images s) with
        | Some image =>
            (setContextMenu (mkMenu (Some (at_pointer e)) (Some image)) s, true)
        | None =>
            let mainContent := closestOpt (ByTag "main") element in
            if isSome mainContent && (0 <? Z.of_nat (List.length (images s)))
            then (setContextMenu (mkMenu (Some (at_pointer e)) None) s, true)
            else (s, true)
        end
    end.

Definition handleCloseContextMenu (now : Z) (s : State) : State :=
  setContextMenu closedMenu (setLastCloseTime now s).

(** A string is truthy unless it is empty. *)
Definition truthy (p : option string) : bool :=
  match p with
  | Some EmptyString => false
  | Some _ => true
  | None => false
  end.

(** The [onReposition] prop given to the top-level menu. *)
Definition onReposition (position : ContextMenuPosition)
  (targetImagePath : option string) (s : State) : State :=
  let targetImage :=
    if truthy targetImagePath then findByPath targetImagePath (images s)
    else None in
  setContextMenu (mkMenu (Some position) targetImage) s.

Definition handleImageClick (index : Z) (s : State) : State :=
  setLightboxOpen true (setLightboxIndex index s).

Definition handleCloseLightbox (s : State) : State :=
  setLightboxOpen false s.

(** [{!lightboxOpen && <ContextMenu position=... image=... />}] *)
Definition renderedMenu (innerWidth : Z) (s : State)
  : option (ContextMenuPosition * list ContextMenu.MenuItem) :=
  if lightboxOpen s then None
  else ContextMenu.render innerWidth (position (contextMenu s))
                          (image (contextMenu s)).

(** *** The asynchronous handlers *)

Local Open Scope task_scope.

Definition loadImages : Task unit :=
  tryCatch
    (data <- await getImages ;;
     effect (SetImages (fun _ => Some data)))
    (fun _ => effect (ConsoleError "Failed to load images:")).

Definition handleCopy (image : ImageMetadata) : Task unit :=
  tryCatch
    (_ <- await resetClipboardHash ;;
     _ <- await (copyFileToClipboard (path image)) ;;
     effect (ConsoleLog "File path copied to clipboard:") ;;
     sleep 100 ;;
     loadImages ;;
     effect (SetImages Merge.merge))
    (fun _ => effect (ConsoleError "Failed to copy image:")).

Definition handleDelete (image : ImageMetadata) : Task unit :=
  tryCatch
    (_ <- await (deleteImage (id image)) ;;
     effect (SetImages (fun prev =>
       Some (filter (fun img => negb (String.eqb (id img) (id image))) prev))))
    (fun _ => effect (ConsoleError "Failed to delete image:")).

Definition handleClearAll : Task unit :=
  tryCatch
    (_ <- await clearAllImages ;;
     effect (SetImages (fun _ => Some [])))
    (fun _ => effect (ConsoleError "Failed to clear all images:")).

Local Close Scope task_scope.

(** *** Running tasks against the store *)

Record World : Type := mkWorld {
  state : State;
  trace : list Event
}.

Definition emit (ev : Event) (w : World) : World :=
  mkWorld (state w) (trace w ++ [ev]).

Definition onState (f : State -> State) (w : World) : World :=
  mkWorld (f (state w)) (trace w).

Definition apply (e : Effect) (w : World) : World :=
  match e with
  | SetImages updater =>
      match updater (images (state w)) with
      | Some l => emit (ImagesSet l) (onState (setImages l) w)
      | None => emit (Uncaught "TypeError") w
      end
  | ConsoleLog msg => emit (Logged msg) w
  | ConsoleError msg => emit (Errored msg) w
  end.

(** A task run to its end, every promise settling as the environment
    says. *)
Fixpoint run (env : Environment) (t : Task unit) (w : World) : World :=
  match t with
  | Return _ => w
  | Throw r => emit (Uncaught r) w
  | Await c k =>
      let s := perform env c in
      run env (k s) (emit (settled c s) (emit (Called c) w))
  | Sleep ms k => run env k (emit (TimerFired ms) (emit (TimerSet ms) w))
  | Do e k => run env k (apply e w)
  end.

(** The synchronous part of a call to an [async] function: up to the
    first [await], the call it awaits already made. *)
Fixpoint start (t : Task unit) (w : World) : World * Pending :=
  match t with
  | Return _ => (w, Finished)
  | Throw r => (emit (Uncaught r) w, Finished)
  | Await c k => (emit (Called c) w, Waiting c k)
  | Sleep ms k => (emit (TimerSet ms) w, Sleeping ms k)
  | Do e k => start k (apply e w)
  end.

(** The rest of a suspended task, run when its promise settles. *)
Definition resume (env : Environment) (p : Pending) (w : World) : World :=
  match p with
  | Finished => w
  | Waiting c k =>
      let s := perform env c in run env (k s) (emit (settled c s) w)
  | Sleeping ms k => run env k (emit (TimerFired ms) w)
  end.

(** *** The props App passes to its [ContextMenu] *)

Definition callbackTask (c : ContextMenu.Callback) : Task unit :=
  match c with
  | ContextMenu.onCopy image => handleCopy image
  | ContextMenu.onDelete image => handleDelete image
  | ContextMenu.onClearAll => handleClearAll
  | ContextMenu.onClose => Return tt
  | ContextMenu.onReposition _ _ => Return tt
  end.

Definition callbackState (now : Z) (c : ContextMenu.Callback) (s : State)
  : State :=
  match c with
  | ContextMenu.onClose => handleCloseContextMenu now s
  | ContextMenu.onReposition p t => onReposition p t s
  | _ => s
  end.

(** One callback made by the menu: its state change, and the task it
    starts, left suspended at its first [await]. *)
Definition call (now : Z) (wp : World * list Pending)
  (c : ContextMenu.Callback) : World * list Pending :=
  let (w1, p) := start (callbackTask c) (onState (callbackState now c) (fst wp)) in
  (w1, snd wp ++ [p]).

(** The handler of a menu input: every callback it makes, in order. *)
Definition handleInput (now : Z) (i : ContextMenu.Input) (w : World)
  : World * list Pending :=
  fold_left (call now) (ContextMenu.react true i) (w, []).

(** Afterwards the suspended tasks run on as their promises settle. *)
Definition settleAll (env : Environment) (ps : list Pending) (w : World)
  : World :=
  fold_left (fun w' p => resume env p w') ps w.

Definition menuInput (now : Z) (env : Environment) (i : ContextMenu.Input)
  (w : World) : World :=
  let (w1, ps) := handleInput now i w in settleAll env ps w1.

(** *** One handler at a time *)

(** What can happen to App: a [contextmenu] event reaching its router, an
    input of its menu, a click on a thumbnail, the overlay asking to be
    closed, a clipboard update. *)
Inductive Action : Type :=
| ContextMenuEvent (e : MouseEvent)
| MenuInput (i : ContextMenu.Input)
| ImageClick (index : Z)
| CloseLightbox
| ClipboardUpdate.

(** While the overlay is open the effect of App has removed the router
    and the clipboard listener, and the top-level menu is not mounted;
    when the overlay closes the effect runs again and reloads the list. *)
Definition step (now : Z) (env : Environment) (a : Action) (w : World)
  : World :=
  match a with
  | ContextMenuEvent e =>
      if lightboxOpen (state w) then w
      else onState (fun s => fst (handleNativeContextMenu now e s)) w
  | MenuInput i =>
      if lightboxOpen (state w) then w else menuInput now env i w
  | ImageClick index => onState (handleImageClick index) w
  | CloseLightbox => run env loadImages (onState handleCloseLightbox w)
  | ClipboardUpdate =>
      if lightboxOpen (state w) then w else run env loadImages w
  end.

End App.

(* ================================================================== *)
(** ** components/ImageLightbox.tsx *)

Module ImageLightbox.
Import Dom.

(** A closure handed to [requestAnimationFrame]: it may clear
    [isClosingRef], and sets the menu if the record it captured exists. *)
Record FrameCallback : Type := mkFrame {
  clearsClosing : bool;
  anchor : ContextMenuPosition;
  currentImage : option ImageMetadata
}.

Record State : Type := mkState {
  currentIndex : Z;
  contextMenu : MenuState;
  isClosing : bool;
  frames : list FrameCallback
}.

Definition initial (slideIndex : Z) : State :=
  mkState slideIndex closedMenu false [].

Definition setCurrentIndex (i : Z) (s : State) : State :=
  mkState i (contextMenu s) (isClosing s) (frames s).

Definition setContextMenu (m : MenuState) (s : State) : State :=
  mkState (currentIndex s) m (isClosing s) (frames s).

Definition setIsClosing (b : bool) (s : State) : State :=
  mkState (currentIndex s) (contextMenu s) b (frames s).

Definition requestAnimationFrame (f : FrameCallback) (s : State) : State :=
  mkState (currentIndex s) (contextMenu s) (isClosing s) (frames s ++ [f]).

(** [images[currentIndex]]: [undefined] outside the array. *)
Definition at_index (images : list ImageMetadata) (i : Z)
  : option ImageMetadata :=
  if i <? 0 then None else nth_error images (Z.to_nat i).

(** The capture listener installed while [open]. The result is the next
    state and whether [e.preventDefault()] was called. *)
Definition handleContextMenu (images : list ImageMetadata) (e : MouseEvent)
  (s : State) : State * bool :=
  if isClosing s then (setIsClosing false s, false)
  else if isSome (position (contextMenu s)) then
    let currentImage := at_index images (currentIndex s) in
    (requestAnimationFrame (mkFrame false (at_pointer e) currentImage)
       (setContextMenu closedMenu s), true)
  else
    match at_index images (currentIndex s) with
    | Some currentImage =>
        (setContextMenu (mkMenu (Some (at_pointer e)) (Some currentImage)) s,
         true)
    | None => (s, false)
    end.

(** [showContextMenu(x, y)], called by the slide's [onContextMenu]. *)
Definition showContextMenu (images : list ImageMetadata) (px py : Z)
  (s : State) : State :=
  let currentImage := at_index images (currentIndex s) in
  requestAnimationFrame (mkFrame true (mkPos px py) currentImage)
    (setContextMenu closedMenu (setIsClosing true s)).

(** One queued callback run at the next frame. *)
Definition runFrame (s : State) (f : FrameCallback) : State :=
  let s1 := if clearsClosing f then setIsClosing false s else s in
  match currentImage f with
  | Some img => setContextMenu (mkMenu (Some (anchor f)) (Some img)) s1
  | None => s1
  end.

(** The next animation frame: the queued callbacks, in order. *)
Definition animationFrame (s : State) : State :=
  fold_left runFrame (frames s)
    (mkState (currentIndex s) (contextMenu s) (isClosing s) []).

Definition handlePrev (slides : Z) (s : State) : State :=
  setCurrentIndex
    (if currentIndex s >? 0 then currentIndex s - 1 else slides - 1) s.

Definition handleNext (slides : Z) (s : State) : State :=
  setCurrentIndex
    (if currentIndex s <? slides - 1 then currentIndex s + 1 else 0) s.

(** [handleCloseContextMenu], without the call of [onContextMenuClose],
    which belongs to the parent. *)
Definition handleCloseContextMenu (s : State) : State :=
  setContextMenu closedMenu (setIsClosing true s).

(** What happens to an open overlay, seen from the component. *)
Inductive Input : Type :=
| ContextMenuEvent (e : MouseEvent)
| SlideContextMenu (px py : Z)
| AnimationFrame
| Prev
| Next
| CloseMenu.

Definition step (images : list ImageMetadata) (i : Input) (s : State) : State :=
  match i with
  | ContextMenuEvent e => fst (handleContextMenu images e s)
  | SlideContextMenu px py => showContextMenu images px py s
  | AnimationFrame => animationFrame s
  | Prev => handlePrev (Z.of_nat (List.length images)) s
  | Next => handleNext (Z.of_nat (List.length images)) s
  | CloseMenu => handleCloseContextMenu s
  end.

End ImageLightbox.

(* ================================================================== *)
(** ** The two layers together *)

Module Screen.

(** App renders [<ImageLightbox open={lightboxOpen} ... />]: the overlay
    component is always mounted and keeps its own menu state. *)
Record State : Type := mkState {
  app : App.State;
  overlay : ImageLightbox.State
}.

(** [{!lightboxOpen && <ContextMenu .../>}] with a position. *)
Definition topMenuVisible (s : State) : bool :=
  negb (App.lightboxOpen (app s)) && isSome (position (App.contextMenu (app s))).

(** [if (!open) return null] and [{contextMenu.position && createPortal(...)}]. *)
Definition overlayMenuVisible (s : State) : bool :=
  App.lightboxOpen (app s)
  && isSome (position (ImageLightbox.contextMenu (overlay s))).

(** A click on a thumbnail: [handleImageClick(index)], then the overlay's
    effect [if (open) setCurrentIndex(slideIndex)]. *)
Definition openOverlay (index : Z) (s : State) : State :=
  mkState (App.handleImageClick index (app s))
          (ImageLightbox.setCurrentIndex index (overlay s)).

(** The overlay's [handleCloseContextMenu] with the [onContextMenuClose]
    App passes: [lastCloseTimeRef.current = Date.now()]. *)
Definition closeOverlayMenu (now : Z) (s : State) : State :=
  mkState (App.setLastCloseTime now (app s))
          (ImageLightbox.handleCloseContextMenu (overlay s)).

(** The overlay's menu gets [handleCloseContextMenu], its own
    [handleCopy] and [handleDelete] wrappers, an empty [onClearAll] and no
    [onReposition]. This is what each call does at once; the wrappers act
    only while the menu has an image, and the task they start is App's
    [handleCopy] or [handleDelete], see [OverlayMenu]. *)
Definition overlayCallback (now : Z) (s : State) (c : ContextMenu.Callback)
  : State :=
  let hasImage := isSome (image (ImageLightbox.contextMenu (overlay s))) in
  match c with
  | ContextMenu.onClose => closeOverlayMenu now s
  | ContextMenu.onCopy _ => if hasImage then closeOverlayMenu now s else s
  | ContextMenu.onDelete _ =>
      if hasImage
      then let s1 := closeOverlayMenu now s in
           mkState (App.handleCloseLightbox (app s1)) (overlay s1)
      else s
  | ContextMenu.onClearAll => s
  | ContextMenu.onReposition _ _ => s
  end.

Definition overlayMenuInput (now : Z) (i : ContextMenu.Input) (s : State)
  : State :=
  fold_left (overlayCallback now) (ContextMenu.react false i) s.

End Screen.

(* ================================================================== *)
(** ** Functions of a module with a module variable *)

Module Procs.
Import Api.

(** The commands of the Tauri backend, with their arguments. *)
Inductive Command : Type :=
| get_images
| delete_image (id : string)
| clear_all_images
| reset_clipboard_hash
| copy_file_to_clipboard (path : string)
| save_image_from_clipboard (imageData : list Z)
| cleanup_old_images (hours : Z)
| read_image_file (path : string).

(** What [invoke<T>] is typed to resolve with. *)
Definition Reply (c : Command) : Type :=
  match c with
  | get_images => list ImageMetadata
  | save_image_from_clipboard _ => ImageMetadata
  | read_image_file _ => list Z
  | _ => unit
  end.

(** The function [listen] resolves with, or [() => {}]. *)
Inductive Unlisten : Type :=
| noop
| unlisten (event : string).

(** The body of a function of the module: it reads and writes the module
    variable [isTauriCache], calls [checkIsTauri], [invoke] and [listen],
    and at an [await] leaves the rest to a later turn. [Invoke] and
    [Listen] stand for the call together with the wait for its promise. *)
Inductive Proc (A : Type) : Type :=
| Return (a : A)
| Throw (reason : string)
| ReadCache (k : option bool -> Proc A)
| WriteCache (b : bool) (k : Proc A)
| CheckIsTauri (k : bool -> Proc A)
| Await (k : Proc A)
| Invoke (c : Command) (k : Settled (Reply c) -> Proc A)
| Listen (event : string) (k : Settled Unlisten -> Proc A).

Arguments Return {A} a.
Arguments Throw {A} reason.
Arguments ReadCache {A} k.
Arguments WriteCache {A} b k.
Arguments CheckIsTauri {A} k.
Arguments Await {A} k.
Arguments Invoke {A} c k.
Arguments Listen {A} event k.

Fixpoint bind {A B : Type} (p : Proc A) (f : A -> Proc B) : Proc B :=
  match p with
  | Return a => f a
  | Throw r => Throw r
  | ReadCache k => ReadCache (fun c => bind (k c) f)
  | WriteCache b k => WriteCache b (bind k f)
  | CheckIsTauri k => CheckIsTauri (fun b => bind (k b) f)
  | Await k => Await (bind k f)
  | Invoke c k => Invoke c (fun s => bind (k s) f)
  | Listen ev k => Listen ev (fun s => bind (k s) f)
  end.

(** [await p] for the promise of an [async] function of the module: its
    body runs, and the caller goes on in a later turn. *)
Definition await {A : Type} (p : Proc A) : Proc A :=
  bind p (fun v => Await (Return v)).

(** [await invoke(c)]: the value, or the rejection rethrown. *)
Definition awaitInvoke (c : Command) : Proc (Reply c) :=
  Invoke c (fun s =>
    match s with
    | Fulfilled v => Return v
    | Rejected r => Throw r
    end).

(** [!v] for [v] of type [boolean | null]. *)
Definition falsy (v : option bool) : bool :=
  match v with
  | Some true => false
  | _ => true
  end.

(** [new Uint8Array(data)]: every number modulo 256. *)
Definition Uint8Array (data : list Z) : list Z :=
  map (fun n => n mod 256) data.

End Procs.

Declare Scope proc_scope.
Delimit Scope proc_scope with proc.
Notation "x <- p ;; k" := (Procs.bind p (fun x => k))
  (at level 61, p at next level, right associativity) : proc_scope.
Notation "p ;; k" := (Procs.bind p (fun _ => k))
  (at level 61, right associativity) : proc_scope.

(* ================================================================== *)
(** ** services/api.ts *)

Module Services.
Import Api Procs.
Local Open Scope proc_scope.

(** [if (isTauriCache === null) { isTauriCache = await checkIsTauri(); }
    return isTauriCache;] *)
Definition isTauriEnvironment : Proc (option bool) :=
  ReadCache (fun c =>
    match c with
    | None => CheckIsTauri (fun b => Await (WriteCache b (Return tt)))
    | Some _ => Return tt
    end) ;;
  ReadCache (fun c => Return c).

Definition getImages : Proc (list ImageMetadata) :=
  t <- await isTauriEnvironment ;;
  if falsy t then Return [] else awaitInvoke get_images.

Definition deleteImage (id : string) : Proc unit :=
  t <- await isTauriEnvironment ;;
  if falsy t then Return tt else awaitInvoke (delete_image id).

Definition clearAllImages : Proc unit :=
  t <- await isTauriEnvironment ;;
  if falsy t then Return tt else awaitInvoke clear_all_images.

Definition resetClipboardHash : Proc unit :=
  t <- await isTauriEnvironment ;;
  if falsy t then Return tt else awaitInvoke reset_clipboard_hash.

Definition copyFileToClipboard (path : string) : Proc unit :=
  t <- await isTauriEnvironment ;;
  if falsy t then Return tt else awaitInvoke (copy_file_to_clipboard path).

(** [Array.from(imageData)] has the numbers of [imageData]. *)
Definition saveImageFromClipboard (imageData : list Z) : Proc ImageMetadata :=
  t <- await isTauriEnvironment ;;
  if falsy t then Throw "Not in Tauri environment"
  else awaitInvoke (save_image_from_clipboard imageData).

Definition cleanupOldImages (hours : Z) : Proc unit :=
  t <- await isTauriEnvironment ;;
  if falsy t then Return tt else awaitInvoke (cleanup_old_images hours).

Definition readImageFile (path : string) : Proc (list Z) :=
  t <- await isTauriEnvironment ;;
  if falsy t then Throw "Not in Tauri environment"
  else data <- awaitInvoke (read_image_file path) ;;
       Return (Uint8Array data).

(** Not an [async] function: it asks [checkIsTauri] itself and returns
    the promise of [listen]. *)
Definition listenClipboardUpdate : Proc Unlisten :=
  CheckIsTauri (fun b =>
    if negb b then Return noop
    else Listen "clipboard-update" (fun s =>
           match s with
           | Fulfilled u => Return u
           | Rejected r => Throw r
           end)).

(** The function that sends each command. *)
Definition api (c : Command) : Proc (Reply c) :=
  match c with
  | get_images => getImages
  | delete_image id => deleteImage id
  | clear_all_images => clearAllImages
  | reset_clipboard_hash => resetClipboardHash
  | copy_file_to_clipboard path => copyFileToClipboard path
  | save_image_from_clipboard imageData => saveImageFromClipboard imageData
  | cleanup_old_images hours => cleanupOldImages hours
  | read_image_file path => readImageFile path
  end.

(** *** Running the functions *)

(** The collaborators: what [checkIsTauri] answers, and how [invoke] and
    [listen] settle. *)
Record Environment : Type := mkEnv {
  checkIsTauri : bool;
  invoke : forall c : Command, Settled (Reply c);
  listen : string -> Settled Unlisten
}.

(** The module variable, and what the module has asked of its
    collaborators so far. *)
Record State : Type := mkState {
  isTauriCache : option bool;
  checks : nat;
  invoked : list Command;
  listened : list string
}.

(** [let isTauriCache: boolean | null = null] *)
Definition initial : State := mkState None 0 [] [].

(** What other code does to [isTauriCache] while a function waits. *)
Definition Interference : Type := option bool -> option bool.

Definition interfere (others : list Interference) (m : State) : State :=
  match others with
  | [] => m
  | f :: _ =>
      mkState (f (isTauriCache m)) (checks m) (invoked m) (listened m)
  end.

(** A function run to its end. At every wait the next of [others] acts
    on the module variable; with [others] empty the function runs
    alone. *)
Fixpoint run {A : Type} (env : Environment) (p : Proc A)
  (others : list Interference) (m : State) : State * Settled A :=
  match p with
  | Return a => (m, Fulfilled a)
  | Throw r => (m, Rejected r)
  | ReadCache k => run env (k (isTauriCache m)) others m
  | WriteCache b k =>
      run env k others
        (mkState (Some b) (checks m) (invoked m) (listened m))
  | CheckIsTauri k =>
      run env (k (checkIsTauri env)) others
        (mkState (isTauriCache m) (S (checks m)) (invoked m) (listened m))
  | Await k => run env k (tl others) (interfere others m)
  | Invoke c k =>
      run env (k (invoke env c)) (tl others)
        (interfere others
           (mkState (isTauriCache m) (checks m) (invoked m ++ [c])
              (listened m)))
  | Listen ev k =>
      run env (k (listen env ev)) (tl others)
        (interfere others
           (mkState (isTauriCache m) (checks m) (invoked m)
              (listened m ++ [ev])))
  end.

(** The calls a caller makes, one after the other, each with the
    collaborators as they are at its time. *)
Inductive Op : Type :=
| Call (c : Command)
| ListenClipboardUpdate.

Definition perform (m : State) (step : Environment * Op) : State :=
  match snd step with
  | Call c => fst (run (fst step) (api c) [] m)
  | ListenClipboardUpdate => fst (run (fst step) listenClipboardUpdate [] m)
  end.

Definition session (steps : list (Environment * Op)) (m : State) : State :=
  fold_left perform steps m.

Local Close Scope proc_scope.

End Services.

(* ================================================================== *)
(** ** components/ImageLightbox.tsx: the pictures of the slides *)

Module LightboxImages.
Import Api Merge.

(** [!!s] for a string. *)
Definition nonEmpty (s : string) : bool :=
  match s with
  | EmptyString => false
  | _ => true
  end.

(** What one call of [getImageUrl] gets from its collaborators: how the
    promise of [readImageFile] settles, and the URL
    [URL.createObjectURL] makes for the bytes. *)
Record Environment : Type := mkEnv {
  readImageFile : string -> Settled (list Z);
  createObjectURL : list Z -> string
}.

(** The module's [imageCache], with the files read and the console. *)
Record State : Type := mkState {
  imageCache : JsMap string;
  reads : list string;
  errors : list string
}.

(** [const imageCache: Map<string, string> = new Map()] *)
Definition initial : State := mkState [] [] [].

(** What other calls do to the cache while this one waits at its two
    [await]s. *)
Definition meanwhile (others : list (JsMap string -> JsMap string))
  (cache : JsMap string) : JsMap string :=
  fold_left (fun c f => f c) others cache.

(** [getImageUrl(path)]: the state afterwards and the string the promise
    resolves with; the promise is never rejected. *)
Definition getImageUrl (env : Environment)
  (others : list (JsMap string -> JsMap string)) (path : string)
  (s : State) : State * string :=
  match Map_get path (imageCache s) with
  | Some url => (s, url)
  | None =>
      let cache := meanwhile others (imageCache s) in
      match readImageFile env path with
      | Fulfilled imageData =>
          let url := createObjectURL env imageData in
          (mkState (Map_set path url cache) (reads s ++ [path]) (errors s),
           url)
      | Rejected _ =>
          (mkState cache (reads s ++ [path])
             (errors s ++ ["Failed to load image:"%string]),
           EmptyString)
      end
  end.

Record Slide : Type := mkSlide {
  src : string;
  slidePath : string
}.

(** [images.map(image => ({ src: imageCache.get(image.path) || '',
    path: image.path }))] *)
Definition slides (cache : JsMap string) (images : list ImageMetadata)
  : list Slide :=
  map (fun image =>
         mkSlide match Map_get (path image) cache with
                 | Some url => if nonEmpty url then url else EmptyString
                 | None => EmptyString
                 end
                 (path image))
      images.

End LightboxImages.

(* ================================================================== *)
(** ** components/ImageCard.tsx *)

Module ImageCard.
Import Api.

(** [imageUrl], [loading], [error]. *)
Record State : Type := mkState {
  imageUrl : string;
  loading : bool;
  error : bool
}.

(** [useState('')], [useState(true)], [useState(false)]. *)
Definition initialState : State := mkState EmptyString true false.

(** The closure of one run of the effect on [image.path]: its variable
    [mounted], the [imageUrl] of the render that ran it, and whether the
    promise of its [readImageFile] is still pending. *)
Record Run : Type := mkRun {
  runPath : string;
  mounted : bool;
  capturedUrl : string;
  pending : bool
}.

(** A card: its state, the runs of its effect (the last one is the
    current one), whether it is still mounted, the object URLs it has
    created and revoked, and the console. *)
Record Card : Type := mkCard {
  state : State;
  runs : list Run;
  alive : bool;
  created : list string;
  revoked : list string;
  logged : list string
}.

(** The effect: [mounted = true], and [loadImage()] up to its
    [await]. *)
Definition effect (p : string) (c : Card) : Card :=
  mkCard (mkState (imageUrl (state c)) true false)
         (runs c ++ [mkRun p true (imageUrl (state c)) true])
         (alive c) (created c) (revoked c) (logged c).

(** The first render and the effect after it. *)
Definition mount (p : string) : Card :=
  effect p (mkCard initialState [] true [] [] []).

Definition setRun (i : nat) (r : Run) (l : list Run) : list Run :=
  firstn i l ++ r :: skipn (S i) l.

(** The function the effect returns, for run [i]. *)
Definition cleanup (i : nat) (c : Card) : Card :=
  match nth_error (runs c) i with
  | None => c
  | Some r =>
      mkCard (state c)
             (setRun i (mkRun (runPath r) false (capturedUrl r) (pending r))
                (runs c))
             (alive c) (created c)
             (if LightboxImages.nonEmpty (capturedUrl r)
              then revoked c ++ [capturedUrl r] else revoked c)
             (logged c)
  end.

(** The rest of [loadImage] of run [i], when the promise of
    [readImageFile] settles; [url] is what [URL.createObjectURL] makes if
    it is called. A promise settles once. *)
Definition settle (i : nat) (result : Settled (list Z)) (url : string)
  (c : Card) : Card :=
  match nth_error (runs c) i with
  | None => c
  | Some r =>
      if negb (pending r) then c
      else
        let rs := setRun i (mkRun (runPath r) (mounted r) (capturedUrl r) false)
                    (runs c) in
        match result with
        | Fulfilled imageData =>
            if mounted r
            then mkCard (mkState url false (error (state c))) rs (alive c)
                        (created c ++ [url]) (revoked c) (logged c)
            else mkCard (state c) rs (alive c) (created c) (revoked c)
                        (logged c)
        | Rejected _ =>
            if mounted r
            then mkCard (mkState (imageUrl (state c)) false true) rs
                        (alive c) (created c) (revoked c)
                        (logged c ++ ["Failed to load image:"%string])
            else mkCard (state c) rs (alive c) (created c) (revoked c)
                        (logged c ++ ["Failed to load image:"%string])
        end
  end.

(** What happens to a mounted card. [EffectAgain] is the cleanup of the
    current run followed by the effect: [image.path] has changed, or
    React has replayed the effect. After [Unmount] only pending promises
    still settle. *)
Inductive Event : Type :=
| EffectAgain (path : string)
| Settle (run : nat) (result : Settled (list Z)) (url : string)
| Unmount.

Definition current (c : Card) : nat := Nat.pred (List.length (runs c)).

Definition step (c : Card) (ev : Event) : Card :=
  match ev with
  | EffectAgain p =>
      if alive c then effect p (cleanup (current c) c) else c
  | Settle i result url => settle i result url c
  | Unmount =>
      if alive c
      then let c' := cleanup (current c) c in
           mkCard (state c') (runs c') false (created c') (revoked c')
                  (logged c')
      else c
  end.

(** A card from its mounting on. *)
Definition life (p : string) (events : list Event) : Card :=
  fold_left step events (mount p).

(** Whether the load of the current run is pending. *)
Definition loadPending (c : Card) : bool :=
  match nth_error (runs c) (current c) with
  | Some r => pending r
  | None => false
  end.

(** What the card shows inside its frame. *)
Inductive View : Type :=
| Blank
| LoadFailed
| Picture (src : string).

(** [loading ? null : error ? <failure/> : <img src={imageUrl}/>] *)
Definition render (s : State) : View :=
  if loading s then Blank
  else if error s then LoadFailed
  else Picture (imageUrl s).

(** The props of a card, and the cards App renders:
    [images.map((image, index) => <ImageCard image index .../>)]. *)
Record Props : Type := mkProps {
  image : ImageMetadata;
  index : Z
}.

Fixpoint cardsFrom (i : Z) (images : list ImageMetadata) : list Props :=
  match images with
  | [] => []
  | image :: rest => mkProps image i :: cardsFrom (i + 1) rest
  end.

Definition cards (images : list ImageMetadata) : list Props :=
  cardsFrom 0 images.

(** [handleCardClick]: [onImageClick(index)], App passing
    [handleImageClick]. *)
Definition handleCardClick (props : Props) (s : Screen.State)
  : Screen.State :=
  Screen.openOverlay (index props) s.

(** The element of a card in the document. *)
Definition element (props : Props) (parent : Dom.Element) : Dom.Element :=
  Dom.Child "div"
    [("data-image-card", "true"); ("data-image-path", path (image props))]%string
    parent.

End ImageCard.

(* ================================================================== *)
(** ** The overlay's menu and the handlers of App behind it *)

Module OverlayMenu.
Import Api Async.

(** The overlay passes its menu a [handleCopy] and a [handleDelete] of
    its own (ImageLightbox.tsx 255-268):
    [if (contextMenu.image && onCopy) { onCopy(contextMenu.image);
    handleCloseContextMenu(); }], with [onClose()] after it for delete.
    [onCopy] and [onDelete] are App's [handleCopy] and [handleDelete],
    called with the record of the overlay's menu. This is the task a call
    starts; [Screen.overlayCallback] is what the call does at once. *)
Definition task (s : Screen.State) (c : ContextMenu.Callback) : Task unit :=
  match image (ImageLightbox.contextMenu (Screen.overlay s)) with
  | Some img =>
      match c with
      | ContextMenu.onCopy _ => App.handleCopy img
      | ContextMenu.onDelete _ => App.handleDelete img
      | _ => Return tt
      end
  | None => Return tt
  end.

(** Both layers with the trace of the store boundary. *)
Record World : Type := mkWorld {
  screen : Screen.State;
  trace : list Event
}.

Definition appWorld (w : World) : App.World :=
  App.mkWorld (Screen.app (screen w)) (trace w).

Definition withApp (a : App.World) (w : World) : World :=
  mkWorld (Screen.mkState (App.state a) (Screen.overlay (screen w)))
          (App.trace a).

(** One callback made by the overlay's menu: App's handler is called
    first and runs up to its first [await], then the overlay closes its
    menu (and itself, for delete). *)
Definition call (now : Z) (wp : World * list Pending)
  (c : ContextMenu.Callback) : World * list Pending :=
  let (a, p) := App.start (task (screen (fst wp)) c) (appWorld (fst wp)) in
  let w1 := withApp a (fst wp) in
  (mkWorld (Screen.overlayCallback now (screen w1) c) (trace w1),
   snd wp ++ [p]).

(** The handler of an input of the overlay's menu: every callback it
    makes, in order. The overlay passes no [onReposition]. *)
Definition handleInput (now : Z) (i : ContextMenu.Input) (w : World)
  : World * list Pending :=
  fold_left (call now) (ContextMenu.react false i) (w, []).

End OverlayMenu.

(* ================================================================== *)
(** * The specification's vocabulary *)

Module Spec.
Import Dom Api Async.

(** *** The merge policy in the words of the specification *)

(** Distinct identities, each at the place of its first occurrence. *)
Fixpoint identities (l : list ImageMetadata) : list string :=
  match l with
  | [] => []
  | r :: l' =>
      id r :: filter (fun i => negb (String.eqb i (id r))) (identities l')
  end.

Definition group_of (l : list ImageMetadata) (i : string)
  : list ImageMetadata :=
  filter (fun r => String.eqb (id r) i) l.

Definition min_createdAt (g : list ImageMetadata) : option Z :=
  match g with
  | [] => None
  | r :: g' =>
      Some (fold_left (fun m r' => Z.min m (createdAt r')) g' (createdAt r))
  end.

Definition has_createdAt (t : option Z) (r : ImageMetadata) : bool :=
  match t with Some t' => createdAt r =? t' | None => false end.

(** Minimal [createdAt], ties to the record earliest in the input. *)
Definition earliest_minimal (g : list ImageMetadata) : option ImageMetadata :=
  find (has_createdAt (min_createdAt g)) g.

(** Minimal [createdAt], ties to the record latest in the input. *)
Definition latest_minimal (g : list ImageMetadata) : option ImageMetadata :=
  find (has_createdAt (min_createdAt g)) (rev g).

Fixpoint keep_some {A : Type} (l : list (option A)) : list A :=
  match l with
  | [] => []
  | Some a :: l' => a :: keep_some l'
  | None :: l' => keep_some l'
  end.

Definition kept (pick : list ImageMetadata -> option ImageMetadata)
  (l : list ImageMetadata) : list ImageMetadata :=
  keep_some (map (fun i => pick (group_of l i)) (identities l)).

(** Group by identity, keep the earliest minimal record of each group,
    sort newest first. *)
Definition merge_spec (l : list ImageMetadata) : list ImageMetadata :=
  Merge.sort Merge.compareFn (kept earliest_minimal l).

(** The same with the tie broken towards the latest record. *)
Definition merge_latest (l : list ImageMetadata) : list ImageMetadata :=
  Merge.sort Merge.compareFn (kept latest_minimal l).

Definition newest_first (a b : ImageMetadata) : Prop :=
  createdAt b <= createdAt a.

(** No two different records of one identity have the same [createdAt]. *)
Definition tie_free (l : list ImageMetadata) : Prop :=
  forall a b, In a l -> In b l ->
              id a = id b -> createdAt a = createdAt b -> a = b.

(** *** The router's decision *)

(** [r] is the first record of [l] whose locator is [p]. *)
Definition firstWithPath (p : string) (l : list ImageMetadata)
  (r : ImageMetadata) : Prop :=
  exists l1 l2,
    l = l1 ++ r :: l2 /\ path r = p /\ forall r', In r' l1 -> path r' <> p.

(** The topmost element under the pointer lies in an element matching
    [sel] whose [data-image-path] is the locator of [r]. *)
Definition resolves (sel : Selector) (e : MouseEvent)
  (l : list ImageMetadata) (r : ImageMetadata) : Prop :=
  exists el p,
    closestOpt sel (elementFromPoint e) = Some el /\
    getAttribute "data-image-path" el = Some p /\
    firstWithPath p l r.

Definition thumbnail : Selector := ByAttr "data-image-card".
Definition fullViewImage : Selector := ByAttr "data-lightbox-image".

Definition onGallerySurface (e : MouseEvent) : Prop :=
  exists el, closestOpt (ByTag "main") (elementFromPoint e) = Some el.

Definition itemMenu (e : MouseEvent) (r : ImageMetadata) : MenuState :=
  mkMenu (Some (at_pointer e)) (Some r).

Definition clearMenu (e : MouseEvent) : MenuState :=
  mkMenu (Some (at_pointer e)) None.

(** The entries of the menu App renders in state [s], if it renders one. *)
Definition entries (innerWidth : Z) (s : App.State)
  : option (list ContextMenu.MenuItem) :=
  option_map snd (App.renderedMenu innerWidth s).

(** Steps 2 to 6 of the router as the specification lists them: the
    decision, and the state it leads to. *)
Inductive Decision : Type :=
| OpenItemMenu (r : ImageMetadata)
| OpenClearMenu
| NoOp.

Definition routing (e : MouseEvent) (s : App.State) : Decision :=
  if isSome (position (App.contextMenu s)) then NoOp
  else
    match App.recordUnder thumbnail (elementFromPoint e) (App.images s) with
    | Some r => OpenItemMenu r
    | None =>
        match App.recordUnder fullViewImage (elementFromPoint e)
                (App.images s) with
        | Some r => OpenItemMenu r
        | None =>
            if isSome (closestOpt (ByTag "main") (elementFromPoint e))
               && negb (Nat.eqb (List.length (App.images s)) 0)
            then OpenClearMenu
            else NoOp
        end
    end.


(** *** Closing a menu *)

(** The menu inputs that are closure paths: the cancel key, a left press
    or release on the dimming layer, the choice of an entry. *)
Definition closes (i : ContextMenu.Input) : bool :=
  match i with
  | ContextMenu.KeyDown key => String.eqb key "Escape"
  | ContextMenu.RightClick _ => false
  | ContextMenu.OverlayMouseDown btn => btn =? 0
  | ContextMenu.OverlayMouseUp btn => btn =? 0
  | ContextMenu.ItemClick _ => true
  end.

(** *** Order of the store effects *)

(** One step of a strictly sequential plan: a store call that is awaited,
    or a fixed delay. *)
Inductive Step : Type :=
| StoreCall (c : Api.Call)
| Settle (ms : Z).

(** The plan carried out in strict order: each step starts when the one
    before has completed, and a rejected call ends the plan. *)
Fixpoint inOrder (env : Api.Environment) (plan : list Step)
  : list Async.Event :=
  match plan with
  | [] => []
  | StoreCall c :: rest =>
      Async.Called c ::
      match Api.perform env c with
      | Api.Fulfilled _ => Async.Resolved c :: inOrder env rest
      | Api.Rejected r => [Async.Failed c r]
      end
  | Settle ms :: rest =>
      Async.TimerSet ms :: Async.TimerFired ms :: inOrder env rest
  end.

(** The events at the boundary with the store and the timer. *)
Definition boundary (ev : Async.Event) : bool :=
  match ev with
  | Async.Called _ | Async.Resolved _ | Async.Failed _ _
  | Async.TimerSet _ | Async.TimerFired _ => true
  | Async.ImagesSet _ | Async.Logged _ | Async.Errored _
  | Async.Uncaught _ => false
  end.

Definition copyPlan (image : ImageMetadata) : list Step :=
  [StoreCall Api.resetClipboardHash;
   StoreCall (Api.copyFileToClipboard (path image));
   Settle 100;
   StoreCall Api.getImages].

(** What [handleCopy] adds to the trace, by the way the calls settle. *)
Definition copyTrace (env : Environment) (image : ImageMetadata)
  (shown : list ImageMetadata) : list Event :=
  Called resetClipboardHash ::
  match perform env resetClipboardHash with
  | Rejected r =>
      [Failed resetClipboardHash r; Errored "Failed to copy image:"]
  | Fulfilled _ =>
      Resolved resetClipboardHash ::
      Called (copyFileToClipboard (path image)) ::
      match perform env (copyFileToClipboard (path image)) with
      | Rejected r =>
          [Failed (copyFileToClipboard (path image)) r;
           Errored "Failed to copy image:"]
      | Fulfilled _ =>
          Resolved (copyFileToClipboard (path image)) ::
          Logged "File path copied to clipboard:" ::
          TimerSet 100 :: TimerFired 100 ::
          Called getImages ::
          match perform env getImages with
          | Rejected r =>
              [Failed getImages r; Errored "Failed to load images:";
               ImagesSet (merge_latest shown)]
          | Fulfilled data =>
              [Resolved getImages; ImagesSet data;
               ImagesSet (merge_latest data)]
          end
      end
  end.

(** *** Choosing an entry *)

(** The store action behind an entry is rejected. For copy this is the
    reset or the copy to the clipboard. *)
Definition actionFails (env : Api.Environment) (c : ContextMenu.Callback)
  : bool :=
  match c with
  | ContextMenu.onCopy r =>
      negb (Api.fulfilled (Api.perform env Api.resetClipboardHash))
      || negb (Api.fulfilled
                 (Api.perform env (Api.copyFileToClipboard (path r))))
  | ContextMenu.onDelete r =>
      negb (Api.fulfilled (Api.perform env (Api.deleteImage (id r))))
  | ContextMenu.onClearAll =>
      negb (Api.fulfilled (Api.perform env Api.clearAllImages))
  | ContextMenu.onClose => false
  | ContextMenu.onReposition _ _ => false
  end.

Definition fatal (ev : Async.Event) : bool :=
  match ev with Async.Uncaught _ => true | _ => false end.

Definition isError (ev : Async.Event) : bool :=
  match ev with Async.Errored _ => true | _ => false end.

(** The list without the records of the identity of [r]. *)
Definition without (r : ImageMetadata) (l : list ImageMetadata)
  : list ImageMetadata :=
  filter (fun img => negb (String.eqb (id img) (id r))) l.

(** *** The overlay's menu *)

(** The states an overlay goes through from its opening, the [images]
    prop possibly changing between inputs. *)
Inductive reachable : ImageLightbox.State -> Prop :=
| reachable_initial : forall slideIndex,
    reachable (ImageLightbox.initial slideIndex)
| reachable_step : forall images i s,
    reachable s -> reachable (ImageLightbox.step images i s).

(** The menu is closed, or it is the item menu of a record. *)
Definition closedOrItemMenu (m : MenuState) : Prop :=
  position m = None \/ exists img, image m = Some img.

End Spec.

(* ================================================================== *)
(** * Auxiliary definitions of the proofs *)

Module Aux.
Import Api Async App.

Definition mem (k : string) (l : list string) : bool :=
  existsb (String.eqb k) l.

(** The association list of a function over a list of keys. *)
Definition tabulate (g : string -> list ImageMetadata) (ks : list string)
  : Merge.JsMap (list ImageMetadata) :=
  map (fun k => (k, g k)) ks.

(** The fields of App's state a task never writes. *)
Definition frame (s : State) : MenuState * bool * Z * Z :=
  (contextMenu s, lightboxOpen s, lightboxIndex s, lastCloseTime s).

Ltac settle_call env c :=
  destruct (perform env c) as [? | ?]; cbn -[perform Merge.merge].

End Aux.

(* ================================================================== *)
(** * Example inputs *)

Module Examples.
Import Dom.

Definition shot (n : Z) (i p : string) : ImageMetadata :=
  mkImage i p n None.

Definition first_capture : ImageMetadata := shot 5 "a" "shot-1.png".
Definition second_capture : ImageMetadata := shot 5 "a" "shot-2.png".
Definition tie_input : list ImageMetadata := [first_capture; second_capture].

Definition a_shot : ImageMetadata := shot 10 "a" "a.png".
Definition b_shot : ImageMetadata := shot 20 "b" "b.png".
Definition c_shot : ImageMetadata := shot 30 "c" "c.png".
Definition b_again : ImageMetadata := shot 40 "b" "b-copy.png".

Definition gallery : list ImageMetadata := [c_shot; b_shot; a_shot].

(** A document: [body > div#root > main > div(grid) > div(card) > div >
    img], and beside [main] the dimming layer of an open menu. *)
Definition body : Element := Root "body" [].
Definition root : Element := Child "div" [] body.
Definition mainEl : Element := Child "main" [] root.
Definition grid : Element := Child "div" [] mainEl.
Definition dimLayer : Element := Child "div" [] root.

Definition card (p : string) : Element :=
  Child "div" [("data-image-card", "true"); ("data-image-path", p)]%string grid.

Definition thumbnailImg (p : string) : Element :=
  Child "img" [] (Child "div" [] (card p)).

(** An element and its ancestors, innermost first. *)
Fixpoint chain (e : Element) : list Element :=
  e :: match e with
       | Child _ _ p => chain p
       | Root _ _ => []
       end.

(** A right-click at (120, 80) with [el] topmost under the pointer. *)
Definition clickOn (el : Element) : MouseEvent :=
  mkMouseEvent 2 120 80 el (Some el) (chain el).

(** A right-click beside the gallery surface. *)
Definition outside : MouseEvent := clickOn root.

(** A right-click at (300, 200) over the thumbnail of [a.png], received
    by the dimming layer of the open menu. *)
Definition second_click : MouseEvent :=
  mkMouseEvent 2 300 200 dimLayer (Some dimLayer)
    (dimLayer :: chain (thumbnailImg "a.png")).

(** App with a list, no menu, the overlay closed. *)
Definition idle (l : list ImageMetadata) : App.State :=
  App.mkState l closedMenu false 0 0.

(** The item menu of [b.png] open at (120, 80). *)
Definition open_on_b : App.State :=
  App.setContextMenu (mkMenu (Some (mkPos 120 80)) (Some b_shot)) (idle gallery).

(** That menu closed by the cancel key at time 5000. *)
Definition after_escape : App.State :=
  App.state (fst (App.handleInput 5000 (ContextMenu.KeyDown "Escape")
                    (App.mkWorld open_on_b []))).

(** An overlay whose menu is open on the record at index 1. *)
Definition stale_overlay : ImageLightbox.State :=
  ImageLightbox.mkState 1 (mkMenu (Some (mkPos 50 50)) (Some b_shot)) false [].

(** An overlay opened on index 1 showing the item menu of [b.png], over
    App with the three records. *)
Definition overlay_menu_open : OverlayMenu.World :=
  OverlayMenu.mkWorld
    (Screen.mkState (App.handleImageClick 1 (idle gallery)) stale_overlay) [].

(** A store that rejects every call. *)
Definition offline : Api.Environment :=
  Api.mkEnv true (fun c => Api.Rejected "store unavailable").

(** A store that fulfils every call and lists [data]. *)
Definition store (data : list ImageMetadata) : Api.Environment :=
  Api.mkEnv true (fun c =>
    match c return Api.Settled (Api.Result c) with
    | Api.getImages => Api.Fulfilled data
    | Api.deleteImage _ => Api.Fulfilled tt
    | Api.clearAllImages => Api.Fulfilled tt
    | Api.resetClipboardHash => Api.Fulfilled tt
    | Api.copyFileToClipboard _ => Api.Fulfilled tt
    end).



End Examples.

(* ================================================================== *)
(** * Further vocabulary *)

Module Props.
Import Dom.

(** The element the menu component takes the locator from at a
    right-click: the nearest ancestor-or-self of the event target
    carrying [data-image-path], or else the first element under the
    pointer carrying [data-image-card]. *)
Definition locatorSource (e : MouseEvent) (el : Element) : Prop :=
  closest (ByAttr "data-image-path") (target e) = Some el \/
  (closest (ByAttr "data-image-path") (target e) = None /\
   find (fun el' => isSome (getAttribute "data-image-card" el'))
        (elementsFromPoint e) = Some el).

(** An open overlay going through a sequence of inputs while its
    [images] prop stays the same. *)
Definition overlayRun (images : list ImageMetadata)
  (inputs : list ImageLightbox.Input) (s : ImageLightbox.State)
  : ImageLightbox.State :=
  fold_left (fun s' i => ImageLightbox.step images i s') inputs s.

(** Every record the overlay holds, in its menu or in a queued callback,
    is a record of [images], and the current index is inside [images]. *)
Definition overlayWithin (images : list ImageMetadata)
  (s : ImageLightbox.State) : Prop :=
  0 <= ImageLightbox.currentIndex s < Z.of_nat (List.length images) /\
  (forall r, image (ImageLightbox.contextMenu s) = Some r -> In r images) /\
  Forall (fun f => forall r, ImageLightbox.currentImage f = Some r ->
                             In r images)
         (ImageLightbox.frames s).

Definition hasRecord (f : ImageLightbox.FrameCallback) : bool :=
  isSome (ImageLightbox.currentImage f).

(** *** The menu of the overlay *)

(** The inputs that close the overlay's menu: the closure paths, and a
    right-click, the overlay passing no [onReposition]. *)
Definition closesOverlayMenu (i : ContextMenu.Input) : bool :=
  match i with
  | ContextMenu.RightClick e => button e =? 2
  | _ => Spec.closes i
  end.

(** The choice of a delete entry while the overlay's menu holds a
    record. *)
Definition deletes (i : ContextMenu.Input) (s : Screen.State) : bool :=
  match i with
  | ContextMenu.ItemClick item =>
      match ContextMenu.onClick item with
      | ContextMenu.onDelete _ =>
          isSome (image (ImageLightbox.contextMenu (Screen.overlay s)))
      | _ => false
      end
  | _ => false
  end.

(** The overlay's menu as [handleCloseContextMenu] leaves it at [now]. *)
Definition overlayMenuClosed (now : Z) (s : Screen.State) : Prop :=
  ImageLightbox.contextMenu (Screen.overlay s) = closedMenu /\
  ImageLightbox.isClosing (Screen.overlay s) = true /\
  App.lastCloseTime (Screen.app s) = now.

(** The task behind an input of the overlay's menu: that of the chosen
    entry. *)
Definition entryTask (i : ContextMenu.Input) (s : Screen.State)
  : Async.Task unit :=
  match i with
  | ContextMenu.ItemClick item => OverlayMenu.task s (ContextMenu.onClick item)
  | _ => Async.Return tt
  end.

(** *** What can happen to App *)

(** A click reaches a card only while nothing covers the gallery: the
    overlay is closed, and no top-level menu is rendered, whose layer
    ([fixed inset-0], above the page) takes every press. The other
    actions are those [App.step] gives an effect to. *)
Definition possible (a : App.Action) (s : App.State) : Prop :=
  match a with
  | App.ImageClick _ =>
      App.lightboxOpen s = false /\ position (App.contextMenu s) = None
  | _ => True
  end.


(** *** Runs of App *)

(** App going through a sequence of actions, each at its time. *)
Definition appRun (env : Api.Environment) (steps : list (Z * App.Action))
  (w : App.World) : App.World :=
  fold_left (fun w' p => App.step (fst p) env (snd p) w') steps w.

(** What the store lists, nothing when it rejects the call. *)
Definition listed (env : Api.Environment) : list ImageMetadata :=
  match Api.perform env Api.getImages with
  | Api.Fulfilled data => data
  | Api.Rejected _ => []
  end.

Definition isFailed (ev : Async.Event) : bool :=
  match ev with Async.Failed _ _ => true | _ => false end.

(** Neither a rejected call, nor a logged failure, nor an exception. *)
Definition quiet (ev : Async.Event) : bool :=
  negb (isFailed ev || Spec.isError ev || Spec.fatal ev).

(** No Tauri runtime. *)
Definition browser : Api.Environment :=
  Api.mkEnv false (fun c => Api.Rejected "no runtime").

(** *** Tasks that keep a property of the list *)

Section Confined.
Import Api Async.
Variable env : Environment.
Variable Q : list ImageMetadata -> Prop.
Variable ok : Event -> bool.

(** A task that throws nothing, emits only events [ok] allows, and
    whose list updates are defined on every list satisfying [Q] and lead
    to a list satisfying [Q], the calls settling as [env] says. *)
Inductive confined : Task unit -> Prop :=
| confined_return : forall a, confined (Return a)
| confined_await : forall c k,
    ok (Called c) = true -> ok (settled c (perform env c)) = true ->
    confined (k (perform env c)) -> confined (Await c k)
| confined_sleep : forall ms k,
    ok (TimerSet ms) = true -> ok (TimerFired ms) = true ->
    confined k -> confined (Sleep ms k)
| confined_set : forall u k,
    (forall l, Q l ->
       exists l', u l = Some l' /\ Q l' /\ ok (ImagesSet l') = true) ->
    confined k -> confined (Do (SetImages u) k)
| confined_log : forall msg k,
    ok (Logged msg) = true -> confined k -> confined (Do (ConsoleLog msg) k)
| confined_error : forall msg k,
    ok (Errored msg) = true -> confined k ->
    confined (Do (ConsoleError msg) k).

Inductive confinedPending : Pending -> Prop :=
| confined_finished : confinedPending Finished
| confined_waiting : forall c k,
    ok (settled c (perform env c)) = true ->
    confined (k (perform env c)) -> confinedPending (Waiting c k)
| confined_sleeping : forall ms k,
    ok (TimerFired ms) = true -> confined k -> confinedPending (Sleeping ms k).

(** The list satisfies [Q] and the trace is [tr0] followed by events
    [ok] allows. *)
Definition within (tr0 : list Event) (w : App.World) : Prop :=
  Q (App.images (App.state w)) /\
  exists added, App.trace w = tr0 ++ added /\ forallb ok added = true.

End Confined.

(** The lists whose records all come from [L]. *)
Definition drawnFrom (L : list ImageMetadata) (l : list ImageMetadata)
  : Prop :=
  incl l L.

Definition notFatal (ev : Async.Event) : bool := negb (Spec.fatal ev).

(** An awaited call, by the way it settles in [env]. *)
Ltac settle env c :=
  apply confined_await;
  [reflexivity
  | now destruct (Api.perform env c)
  | destruct (Api.perform env c) eqn:?;
    cbn -[Api.perform Merge.merge] ].

(** An awaited call that settles as the equation [H] says. *)
Ltac degrade H c :=
  apply confined_await;
  [reflexivity
  | now rewrite (H c)
  | rewrite (H c); cbn -[Api.perform Merge.merge] ].

(** A property of a list of one element. *)
Ltac single :=
  constructor; [cbn; first [assumption | reflexivity] | constructor].

(** *** The functions of services/api.ts *)

(** What a function of the module answers without the Tauri runtime. *)
Definition outside (c : Procs.Command) : Api.Settled (Procs.Reply c) :=
  match c with
  | Procs.get_images => Api.Fulfilled []
  | Procs.save_image_from_clipboard _ =>
      Api.Rejected "Not in Tauri environment"
  | Procs.read_image_file _ => Api.Rejected "Not in Tauri environment"
  | Procs.delete_image _ => Api.Fulfilled tt
  | Procs.clear_all_images => Api.Fulfilled tt
  | Procs.reset_clipboard_hash => Api.Fulfilled tt
  | Procs.copy_file_to_clipboard _ => Api.Fulfilled tt
  | Procs.cleanup_old_images _ => Api.Fulfilled tt
  end.

(** What it answers with the runtime, [invoke] having settled with [s]:
    the same, the bytes of a file as a [Uint8Array]. *)
Definition through (c : Procs.Command)
  : Api.Settled (Procs.Reply c) -> Api.Settled (Procs.Reply c) :=
  match c with
  | Procs.read_image_file _ => fun s =>
      match s with
      | Api.Fulfilled data => Api.Fulfilled (Procs.Uint8Array data)
      | Api.Rejected r => Api.Rejected r
      end
  | _ => fun s => s
  end.

(** The answer a function goes by: the cached one, or that of the check
    it makes. *)
Definition decision (env : Services.Environment) (m : Services.State)
  : bool :=
  match Services.isTauriCache m with
  | Some b => b
  | None => Services.checkIsTauri env
  end.

(** The answer to the check of the first call of a function that sends a
    command. *)
Fixpoint firstAnswer (steps : list (Services.Environment * Services.Op))
  : option bool :=
  match steps with
  | [] => None
  | (env, Services.Call _) :: _ => Some (Services.checkIsTauri env)
  | (_, Services.ListenClipboardUpdate) :: rest => firstAnswer rest
  end.

Fixpoint commands (steps : list (Services.Environment * Services.Op))
  : list Procs.Command :=
  match steps with
  | [] => []
  | (_, Services.Call c) :: rest => c :: commands rest
  | (_, Services.ListenClipboardUpdate) :: rest => commands rest
  end.

(** The checks [listenClipboardUpdate] makes, with their answers. *)
Fixpoint listenAnswers (steps : list (Services.Environment * Services.Op))
  : list bool :=
  match steps with
  | [] => []
  | (_, Services.Call _) :: rest => listenAnswers rest
  | (env, Services.ListenClipboardUpdate) :: rest =>
      Services.checkIsTauri env :: listenAnswers rest
  end.

(** App's view of the module, as the model of App has it: the five
    functions App calls, and the environment they see when the module
    goes by the answer [b]. *)
Definition command (c : Api.Call) : Procs.Command :=
  match c with
  | Api.getImages => Procs.get_images
  | Api.deleteImage id => Procs.delete_image id
  | Api.clearAllImages => Procs.clear_all_images
  | Api.resetClipboardHash => Procs.reset_clipboard_hash
  | Api.copyFileToClipboard path => Procs.copy_file_to_clipboard path
  end.

Definition asResult (c : Api.Call)
  : Api.Settled (Procs.Reply (command c)) -> Api.Settled (Api.Result c) :=
  match c with
  | Api.getImages => fun s => s
  | Api.deleteImage _ => fun s => s
  | Api.clearAllImages => fun s => s
  | Api.resetClipboardHash => fun s => s
  | Api.copyFileToClipboard _ => fun s => s
  end.

Definition appView (env : Services.Environment) (b : bool)
  : Api.Environment :=
  Api.mkEnv b (fun c => asResult c (Services.invoke env (command c))).

Definition gallery_of_one : list ImageMetadata :=
  [mkImage "a" "a.png" 10 None].

(** A backend that lists [data] and accepts every command. *)
Definition backend (runtime : bool) (data : list ImageMetadata)
  : Services.Environment :=
  Services.mkEnv runtime
    (fun c =>
       match c return Api.Settled (Procs.Reply c) with
       | Procs.get_images => Api.Fulfilled data
       | Procs.save_image_from_clipboard _ =>
           Api.Fulfilled (mkImage "new" "new.png" 50 None)
       | Procs.read_image_file _ => Api.Fulfilled [137; 80; 78; 71; 300]
       | Procs.delete_image _ => Api.Fulfilled tt
       | Procs.clear_all_images => Api.Fulfilled tt
       | Procs.reset_clipboard_hash => Api.Fulfilled tt
       | Procs.copy_file_to_clipboard _ => Api.Fulfilled tt
       | Procs.cleanup_old_images _ => Api.Fulfilled tt
       end)
    (fun ev => Api.Fulfilled (Procs.unlisten ev)).

(** *** The cards *)

(** The empty string or one of [urls]. *)
Definition noneOrOneOf (urls : list string) (u : string) : Prop :=
  u = EmptyString \/ In u urls.

(** What holds of a card all its life: the runs of its effect before the
    current one have been cleaned up, the current one is mounted as long
    as the card is; while the current load is pending the card is
    loading with no error; and every URL it holds or has revoked is one
    it has created. *)
Definition cardInvariant (c : ImageCard.Card) : Prop :=
  exists old r,
    ImageCard.runs c = old ++ [r] /\
    Forall (fun x => ImageCard.mounted x = false) old /\
    ImageCard.mounted r = ImageCard.alive c /\
    (ImageCard.pending r = true -> ImageCard.alive c = true ->
     ImageCard.loading (ImageCard.state c) = true /\
     ImageCard.error (ImageCard.state c) = false) /\
    noneOrOneOf (ImageCard.created c) (ImageCard.imageUrl (ImageCard.state c)) /\
    Forall (fun x => noneOrOneOf (ImageCard.created c) (ImageCard.capturedUrl x))
           (ImageCard.runs c) /\
    incl (ImageCard.revoked c) (ImageCard.created c).

End Props.

(* ================================================================== *)
(** * Properties *)

(** ** The merge *)

Module MergeFacts.
Import Merge Spec Aux Examples.

(** *** Identities and groups *)

Lemma mem_In k l : mem k l = true <-> In k l.
Proof.
  unfold mem. rewrite existsb_exists. split.
  - intros [j [Hj E]]. apply String.eqb_eq in E. now subst.
  - intros H. exists k. split; [assumption | apply String.eqb_refl].
Qed.

Lemma mem_filter_neq k a l :
  k <> a ->
  mem k (filter (fun i => negb (String.eqb i a)) l) = mem k l.
Proof.
  intros Hka. induction l as [| j l IH]; simpl; [reflexivity |].
  destruct (String.eqb_spec j a) as [-> | Hja]; simpl.
  - rewrite IH. destruct (String.eqb_spec k a); [contradiction | reflexivity].
  - now rewrite IH.
Qed.

Lemma identities_snoc l r :
  identities (l ++ [r]) =
  if mem (id r) (identities l) then identities l else identities l ++ [id r].
Proof.
  induction l as [| a l IH]; simpl; [reflexivity |].
  rewrite IH. destruct (String.eqb_spec (id r) (id a)) as [E | N]; simpl.
  - destruct (mem (id r) (identities l)); [reflexivity |].
    rewrite filter_app. simpl. rewrite E, String.eqb_refl. simpl.
    now rewrite app_nil_r.
  - rewrite mem_filter_neq by assumption.
    destruct (mem (id r) (identities l)); [reflexivity |].
    rewrite filter_app. simpl.
    destruct (String.eqb_spec (id r) (id a)); [contradiction | reflexivity].
Qed.

Lemma identities_In l i : In i (identities l) <-> In i (map id l).
Proof.
  induction l as [| a l IH]; simpl; [tauto |].
  rewrite filter_In, IH. split.
  - intros [H | [H _]]; auto.
  - intros [H | H]; auto.
    destruct (String.eqb_spec i (id a)) as [E | N]; auto.
Qed.

Lemma identities_NoDup l : NoDup (identities l).
Proof.
  induction l as [| a l IH]; simpl; constructor.
  - rewrite filter_In. intros [_ H]. now rewrite String.eqb_refl in H.
  - now apply NoDup_filter.
Qed.

Lemma group_of_snoc l r i :
  group_of (l ++ [r]) i =
  group_of l i ++ (if String.eqb (id r) i then [r] else []).
Proof. unfold group_of. now rewrite filter_app. Qed.

Lemma group_of_In l i r : In r (group_of l i) <-> In r l /\ id r = i.
Proof. unfold group_of. rewrite filter_In. now rewrite String.eqb_eq. Qed.

Lemma group_of_absent l i : ~ In i (map id l) -> group_of l i = [].
Proof.
  intros H. destruct (group_of l i) as [| r g] eqn:E; [reflexivity |].
  exfalso. apply H. assert (Hr : In r (group_of l i)) by (rewrite E; now left).
  apply group_of_In in Hr as [Hr <-]. now apply in_map.
Qed.

Lemma group_of_nonempty l i : In i (map id l) -> group_of l i <> [].
Proof.
  intros H E. apply in_map_iff in H as [r [Hi Hr]].
  assert (Hg : In r (group_of l i)) by now apply group_of_In.
  rewrite E in Hg. contradiction.
Qed.

(** *** The [Map] built by the first loop *)

Lemma Map_get_tabulate g ks k :
  Map_get k (tabulate g ks) = if mem k ks then Some (g k) else None.
Proof.
  induction ks as [| j ks IH]; simpl; [reflexivity |].
  destruct (String.eqb_spec k j) as [-> | N]; simpl; [reflexivity | exact IH].
Qed.

Lemma Map_set_tabulate_new g g' ks k v :
  mem k ks = false ->
  (forall j, In j ks -> g' j = g j) -> g' k = v ->
  Map_set k v (tabulate g ks) = tabulate g' (ks ++ [k]).
Proof.
  induction ks as [| j ks IH]; simpl; intros Hk Hg Hv.
  - now rewrite Hv.
  - apply orb_false_iff in Hk as [Hkj Hk]. rewrite Hkj.
    rewrite Hg by now left. f_equal. apply IH; auto.
Qed.

Lemma Map_set_tabulate_old g g' ks k v :
  NoDup ks -> In k ks ->
  (forall j, j <> k -> g' j = g j) -> g' k = v ->
  Map_set k v (tabulate g ks) = tabulate g' ks.
Proof.
  induction ks as [| j ks IH]; simpl; intros Hnd Hin Hg Hv; [contradiction |].
  apply NoDup_cons_iff in Hnd as [Hj Hnd'].
  destruct (String.eqb_spec k j) as [-> | N].
  - rewrite Hv. f_equal. unfold tabulate. apply map_ext_in.
    intros i Hi. rewrite Hg; [reflexivity |]. intros ->. contradiction.
  - rewrite Hg by congruence. f_equal. apply IH; auto.
    destruct Hin; [congruence | assumption].
Qed.

Lemma contentGroups_snoc l r :
  contentGroups (l ++ [r]) = group_step (contentGroups l) r.
Proof. unfold contentGroups. now rewrite fold_left_app. Qed.

(** The map holds, for each identity in order of first occurrence, the
    records of that identity in input order. *)
Lemma contentGroups_tabulate l :
  contentGroups l = tabulate (group_of l) (identities l).
Proof.
  induction l as [| r l IH] using rev_ind; [reflexivity |].
  rewrite contentGroups_snoc, IH. unfold group_step, get_or_empty.
  rewrite Map_get_tabulate, identities_snoc.
  destruct (mem (id r) (identities l)) eqn:Hm.
  - apply Map_set_tabulate_old.
    + apply identities_NoDup.
    + now apply mem_In.
    + intros j Hj. rewrite group_of_snoc.
      destruct (String.eqb_spec (id r) j); [congruence | apply app_nil_r].
    + rewrite group_of_snoc. now rewrite String.eqb_refl.
  - apply Map_set_tabulate_new; [assumption | |].
    + intros j Hj. rewrite group_of_snoc.
      destruct (String.eqb_spec (id r) j) as [E | N]; [| apply app_nil_r].
      subst j. apply mem_In in Hj. congruence.
    + rewrite group_of_snoc, String.eqb_refl. f_equal.
      apply group_of_absent. rewrite <- identities_In, <- mem_In. congruence.
Qed.

(** *** The reducer keeps the latest record of minimal [createdAt] *)

Lemma min_createdAt_snoc a l b :
  min_createdAt (a :: l ++ [b]) =
  option_map (fun m => Z.min m (createdAt b)) (min_createdAt (a :: l)).
Proof. simpl. now rewrite fold_left_app. Qed.

Lemma reduce_older_latest a l :
  find (has_createdAt (min_createdAt (a :: l))) (rev (a :: l))
  = Some (fold_left older l a).
Proof.
  induction l as [| b l IH] using rev_ind.
  - simpl. now rewrite Z.eqb_refl.
  - rewrite fold_left_app. cbn [fold_left].
    change (a :: l ++ [b]) with ((a :: l) ++ [b]) at 2.
    rewrite rev_app_distr. simpl rev at 1. simpl app at 1.
    rewrite min_createdAt_snoc.
    destruct (min_createdAt (a :: l)) as [m |] eqn:Em; [| discriminate].
    pose proof (find_some _ _ IH) as [_ Hc]. cbn [has_createdAt] in Hc.
    apply Z.eqb_eq in Hc. cbn [option_map app find has_createdAt].
    assert (Ho : older (fold_left older l a) b
                 = if m <? createdAt b then fold_left older l a else b)
      by (rewrite <- Hc; reflexivity).
    rewrite Ho.
    destruct (Z.ltb_spec m (createdAt b)) as [Hlt | Hge].
    + rewrite Z.min_l by lia.
      destruct (Z.eqb_spec (createdAt b) m); [lia |].
      exact IH.
    + rewrite Z.min_r by lia. now rewrite Z.eqb_refl.
Qed.

Lemma reduce_latest_minimal g :
  g <> [] -> reduce older g = latest_minimal g.
Proof.
  destruct g as [| a l]; [congruence |]. intros _.
  unfold latest_minimal. now rewrite reduce_older_latest.
Qed.

Lemma min_createdAt_lower a l m :
  min_createdAt (a :: l) = Some m ->
  forall r, In r (a :: l) -> m <= createdAt r.
Proof.
  revert m. induction l as [| b l IH] using rev_ind; intros m Hm r Hr.
  - simpl in *. injection Hm as <-. destruct Hr as [<- | []]. lia.
  - rewrite min_createdAt_snoc in Hm.
    destruct (min_createdAt (a :: l)) as [m' |] eqn:Em; [| discriminate].
    injection Hm as <-. change (a :: l ++ [b]) with ((a :: l) ++ [b]) in Hr.
    apply in_app_or in Hr as [Hr | [<- | []]].
    + specialize (IH m' eq_refl r Hr). lia.
    + lia.
Qed.

Lemma latest_minimal_sound g r :
  latest_minimal g = Some r ->
  In r g /\ forall r', In r' g -> createdAt r <= createdAt r'.
Proof.
  unfold latest_minimal. intros H. apply find_some in H as [Hin Hc].
  apply in_rev in Hin. split; [assumption |].
  destruct g as [| a l]; [contradiction |].
  destruct (min_createdAt (a :: l)) as [m |] eqn:Em; [| discriminate].
  simpl in Hc. apply Z.eqb_eq in Hc. rewrite Hc.
  now apply min_createdAt_lower.
Qed.

Lemma latest_minimal_some g : g <> [] -> exists r, latest_minimal g = Some r.
Proof.
  intros H. rewrite <- reduce_latest_minimal by assumption.
  destruct g; [congruence |]. simpl. eauto.
Qed.

(** *** The second loop *)

Lemma collect_from groups acc :
  Forall (fun e => snd e <> []) groups ->
  fold_left push_oldest groups (Some acc)
  = Some (acc ++ keep_some (map (fun e => latest_minimal (snd e)) groups)).
Proof.
  intros H. revert acc. induction H as [| e groups He _ IH]; intros acc; simpl.
  - now rewrite app_nil_r.
  - rewrite (reduce_latest_minimal _ He).
    destruct (latest_minimal_some _ He) as [r ->].
    rewrite IH, <- app_assoc. reflexivity.
Qed.

Lemma collect_contentGroups l :
  collect (contentGroups l) = Some (kept latest_minimal l).
Proof.
  unfold collect, kept. rewrite contentGroups_tabulate, collect_from.
  - unfold tabulate. now rewrite map_map.
  - unfold tabulate. apply Forall_forall. intros e He.
    apply in_map_iff in He as [i [<- Hi]]. simpl.
    apply group_of_nonempty. now apply identities_In.
Qed.

(** The updater never throws, and computes [merge_latest]. *)
Lemma merge_latest_eq l : merge l = Some (merge_latest l).
Proof. unfold merge. now rewrite collect_contentGroups. Qed.

(** *** The stable sort *)

Lemma compareFn_le a b : (compareFn a b <=? 0) = true <-> newest_first a b.
Proof. unfold compareFn, newest_first. rewrite Z.leb_le. lia. Qed.

Lemma insert_perm a l : Permutation (insert compareFn a l) (a :: l).
Proof.
  induction l as [| b l IH]; simpl; [apply Permutation_refl |].
  destruct (compareFn a b <=? 0); [apply Permutation_refl |].
  eapply perm_trans; [apply perm_skip, IH | apply perm_swap].
Qed.

Lemma sort_perm l : Permutation (sort compareFn l) l.
Proof.
  induction l as [| a l IH]; simpl; [constructor |].
  eapply perm_trans; [apply insert_perm | now apply perm_skip].
Qed.

Lemma insert_HdRel a b l :
  newest_first b a -> HdRel newest_first b l ->
  HdRel newest_first b (insert compareFn a l).
Proof.
  intros Hba Hl. destruct l as [| c l]; simpl; [now constructor |].
  destruct (compareFn a c <=? 0); constructor; [assumption |].
  now inversion Hl.
Qed.

Lemma insert_sorted a l :
  Sorted newest_first l -> Sorted newest_first (insert compareFn a l).
Proof.
  induction 1 as [| b l Hs IH Hb]; simpl; [repeat constructor |].
  destruct (compareFn a b <=? 0) eqn:E.
  - apply compareFn_le in E. repeat constructor; assumption.
  - constructor; [assumption |]. apply insert_HdRel; [| assumption].
    unfold newest_first. unfold compareFn in E. apply Z.leb_gt in E. lia.
Qed.

Lemma sort_sorted l : Sorted newest_first (sort compareFn l).
Proof.
  induction l as [| a l IH]; simpl; [constructor | now apply insert_sorted].
Qed.

(** A list already in display order is left as it is. *)
Lemma sort_fixpoint l : Sorted newest_first l -> sort compareFn l = l.
Proof.
  induction 1 as [| a l Hs IH Ha]; simpl; [reflexivity |].
  rewrite IH. destruct Ha as [| b l Hab]; simpl; [reflexivity |].
  apply compareFn_le in Hab. now rewrite Hab.
Qed.

Lemma newest_first_trans : Relations_1.Transitive newest_first.
Proof. unfold newest_first. intros a b c Hab Hbc. lia. Qed.

(** *** The records kept *)

Lemma keep_some_In {A : Type} (l : list (option A)) a :
  In a (keep_some l) <-> In (Some a) l.
Proof.
  induction l as [| [b |] l IH]; simpl; [tauto | |].
  - rewrite IH. split; intros [H | H]; auto; left; congruence.
  - rewrite IH. split; [auto | intros [H | H]; [discriminate | assumption]].
Qed.

Lemma keep_some_map_Some {A : Type} (l : list A) : keep_some (map Some l) = l.
Proof. induction l; simpl; congruence. Qed.

Lemma kept_In pick l r :
  In r (kept pick l) <->
  exists i, In i (map id l) /\ pick (group_of l i) = Some r.
Proof.
  unfold kept. rewrite keep_some_In, in_map_iff.
  split; intros [i [H1 H2]]; exists i; rewrite identities_In in *; auto.
Qed.

Lemma keep_some_ids (f : string -> option ImageMetadata) ks :
  (forall i, In i ks -> exists r, f i = Some r /\ id r = i) ->
  map id (keep_some (map f ks)) = ks.
Proof.
  induction ks as [| k ks IH]; intros H; simpl; [reflexivity |].
  destruct (H k (or_introl eq_refl)) as [r [-> Hr]]. simpl.
  rewrite Hr, IH; [reflexivity |]. intros i Hi. apply H. now right.
Qed.

Lemma kept_latest_ids l : map id (kept latest_minimal l) = identities l.
Proof.
  unfold kept. apply keep_some_ids. intros i Hi.
  apply identities_In in Hi.
  destruct (latest_minimal_some _ (group_of_nonempty _ _ Hi)) as [r Hr].
  exists r. split; [assumption |].
  apply latest_minimal_sound in Hr as [Hr _].
  now apply group_of_In in Hr.
Qed.

Lemma filter_all {A : Type} (f : A -> bool) l :
  (forall a, In a l -> f a = true) -> filter f l = l.
Proof.
  induction l as [| a l IH]; intros H; simpl; [reflexivity |].
  rewrite H by now left. f_equal. apply IH. intros b Hb. apply H. now right.
Qed.

Lemma filter_none {A : Type} (f : A -> bool) l :
  (forall a, In a l -> f a = false) -> filter f l = [].
Proof.
  induction l as [| a l IH]; intros H; simpl; [reflexivity |].
  rewrite H by now left. apply IH. intros b Hb. apply H. now right.
Qed.

Lemma identities_distinct l : NoDup (map id l) -> identities l = map id l.
Proof.
  induction l as [| a l IH]; simpl; intros H; [reflexivity |].
  apply NoDup_cons_iff in H as [Ha H]. rewrite IH by assumption. f_equal.
  apply filter_all. intros i Hi.
  destruct (String.eqb_spec i (id a)); [congruence | reflexivity].
Qed.

Lemma group_of_distinct l r :
  NoDup (map id l) -> In r l -> group_of l (id r) = [r].
Proof.
  induction l as [| a l IH]; simpl; intros H Hr; [contradiction |].
  apply NoDup_cons_iff in H as [Ha H]. destruct Hr as [-> | Hr].
  - rewrite String.eqb_refl. f_equal. apply filter_none. intros b Hb.
    destruct (String.eqb_spec (id b) (id r)) as [E | N]; [| reflexivity].
    exfalso. apply Ha. rewrite <- E. now apply in_map.
  - destruct (String.eqb_spec (id a) (id r)) as [E | N].
    + exfalso. apply Ha. rewrite E. now apply in_map.
    + now apply IH.
Qed.

(** With one record per identity every group is a singleton and every
    record is kept, in place. *)
Lemma kept_distinct l : NoDup (map id l) -> kept latest_minimal l = l.
Proof.
  intros H. unfold kept. rewrite identities_distinct, map_map by assumption.
  rewrite <- (keep_some_map_Some l) at 2. f_equal. apply map_ext_in.
  intros r Hr. rewrite group_of_distinct by assumption.
  unfold latest_minimal. simpl. now rewrite Z.eqb_refl.
Qed.

Lemma merge_latest_ids l :
  Permutation (map id (merge_latest l)) (identities l).
Proof.
  unfold merge_latest. rewrite <- kept_latest_ids.
  apply Permutation_map, sort_perm.
Qed.

Lemma merge_latest_NoDup l : NoDup (map id (merge_latest l)).
Proof.
  eapply Permutation_NoDup;
    [apply Permutation_sym, merge_latest_ids | apply identities_NoDup].
Qed.

Lemma merge_latest_minimal l r :
  In r (merge_latest l) ->
  In r l /\
  forall r', In r' l -> id r' = id r -> createdAt r <= createdAt r'.
Proof.
  intros Hr. unfold merge_latest in Hr.
  apply (Permutation_in _ (sort_perm _)) in Hr.
  apply kept_In in Hr as [i [_ Hp]].
  apply latest_minimal_sound in Hp as [Hin Hmin].
  apply group_of_In in Hin as [Hin Hid]. split; [assumption |].
  intros r' Hr' E. apply Hmin. apply group_of_In. split; congruence.
Qed.

(** *** Without ties the two tie-breaks agree *)

Lemma find_unique {A : Type} (f : A -> bool) (l : list A) :
  (forall a b, In a l -> In b l -> f a = true -> f b = true -> a = b) ->
  find f (rev l) = find f l.
Proof.
  intros Hu. destruct (find f l) as [a |] eqn:Ea.
  - apply find_some in Ea as [Ha Hfa].
    destruct (find f (rev l)) as [b |] eqn:Eb.
    + apply find_some in Eb as [Hb Hfb]. apply in_rev in Hb.
      f_equal. now apply Hu.
    + exfalso. apply in_rev in Ha.
      pose proof (find_none _ _ Eb a Ha) as Hn. congruence.
  - destruct (find f (rev l)) as [b |] eqn:Eb; [| reflexivity].
    apply find_some in Eb as [Hb Hfb]. apply in_rev in Hb.
    pose proof (find_none _ _ Ea b Hb) as Hn. congruence.
Qed.

Lemma latest_earliest_tie_free l i :
  tie_free l -> latest_minimal (group_of l i) = earliest_minimal (group_of l i).
Proof.
  intros Ht. unfold latest_minimal, earliest_minimal. apply find_unique.
  intros a b Ha Hb Hfa Hfb.
  apply group_of_In in Ha as [Ha Hia]. apply group_of_In in Hb as [Hb Hib].
  destruct (min_createdAt (group_of l i)) as [m |]; [| discriminate].
  simpl in Hfa, Hfb. apply Z.eqb_eq in Hfa, Hfb.
  apply Ht; congruence.
Qed.

Lemma merge_latest_tie_free l : tie_free l -> merge_latest l = merge_spec l.
Proof.
  intros Ht. unfold merge_latest, merge_spec, kept. do 2 f_equal.
  apply map_ext. intros i. now apply latest_earliest_tie_free.
Qed.

(** *** Examples *)

Example merge_tie : merge tie_input = Some [second_capture].
Proof. reflexivity. Qed.

Example merge_spec_tie : merge_spec tie_input = [first_capture].
Proof. reflexivity. Qed.

Example merge_copy_back :
  merge [shot 30 "a" "a-copy.png"; shot 20 "b" "b.png";
         shot 10 "a" "a.png"; shot 20 "c" "c.png"]
  = Some [shot 20 "b" "b.png"; shot 20 "c" "c.png"; shot 10 "a" "a.png"].
Proof. reflexivity. Qed.

(** C1, as stated, at a group of two records with equal [createdAt]:
    the specification keeps the record earliest in the input, the
    reducer [a.createdAt < b.createdAt ? a : b] moves on to the later one. *)
Lemma merge_keeps_latest_on_tie :
  merge tie_input = Some [second_capture] /\
  merge_spec tie_input = [first_capture] /\
  merge tie_input <> Some (merge_spec tie_input).
Proof. repeat split. discriminate. Qed.

(** C1 (amended): for every input list the merge returns the list obtained
    by grouping the records by identity, keeping in each group the record
    of minimal [createdAt] (on equal [createdAt] the one latest in the
    input), and sorting the kept records by [createdAt] descending; the
    output is sorted newest first, holds exactly one record per distinct
    identity of the input, and each kept record is a record of the input
    with the least [createdAt] of its identity. Where no two different
    records of one identity share a [createdAt], the tie-break is idle
    and the list is the one with ties broken towards the earliest
    record. *)
Theorem merge_characterisation :
  forall l : list ImageMetadata,
  exists r : list ImageMetadata,
    merge l = Some r /\
    r = merge_latest l /\
    StronglySorted newest_first r /\
    NoDup (map id r) /\
    (forall i, In i (map id r) <-> In i (map id l)) /\
    (forall a, In a r ->
       In a l /\
       forall b, In b l -> id b = id a -> createdAt a <= createdAt b) /\
    (tie_free l -> r = merge_spec l).
Proof.
  intros l. exists (merge_latest l).
  split; [| split; [| split; [| split; [| split; [| split]]]]];
    [| | | | | | apply merge_latest_tie_free]; repeat split.
  - apply merge_latest_eq.
  - apply Sorted_StronglySorted; [exact newest_first_trans |].
    apply sort_sorted.
  - apply merge_latest_NoDup.
  - intros H. apply identities_In.
    now apply (Permutation_in _ (merge_latest_ids l)).
  - intros H. apply identities_In in H.
    now apply (Permutation_in _ (Permutation_sym (merge_latest_ids l))).
  - now apply merge_latest_minimal.
  - now apply merge_latest_minimal.
Qed.

(** C2: the merge is idempotent: it returns a list on every input, and
    merging that list again returns it unchanged. *)
Theorem merge_idempotent :
  forall l : list ImageMetadata,
  exists r : list ImageMetadata, merge l = Some r /\ merge r = Some r.
Proof.
  intros l. exists (merge_latest l). split; [apply merge_latest_eq |].
  rewrite merge_latest_eq. f_equal. unfold merge_latest at 1.
  rewrite kept_distinct by apply merge_latest_NoDup.
  apply sort_fixpoint, sort_sorted.
Qed.

End MergeFacts.

(** ** The top-level router *)

Module RouterFacts.
Import Dom App Spec Examples.

Lemma findByPath_null l : findByPath None l = None.
Proof. induction l as [| a l IH]; simpl; [reflexivity | exact IH]. Qed.

Lemma findByPath_first p l r :
  findByPath (Some p) l = Some r <-> firstWithPath p l r.
Proof.
  unfold firstWithPath. induction l as [| a l IH]; simpl.
  - split; [discriminate |]. intros [l1 [l2 [H _]]].
    destruct l1; discriminate.
  - destruct (String.eqb_spec (path a) p) as [E | N].
    + split.
      * intros [= <-]. exists [], l. repeat split; auto.
      * intros [[| b l1] [l2 [H [Hp Hn]]]]; simpl in H.
        -- congruence.
        -- injection H as <- _. exfalso. apply (Hn a); [now left | exact E].
    + rewrite IH. split.
      * intros [l1 [l2 [-> [Hp Hn]]]]. exists (a :: l1), l2.
        repeat split; auto. intros r' [<- | Hr']; auto.
      * intros [[| b l1] [l2 [H [Hp Hn]]]]; simpl in H.
        -- injection H as -> _. contradiction.
        -- injection H as <- ->. exists l1, l2. repeat split; auto.
           intros r' Hr'. apply Hn. now right.
Qed.

Lemma recordUnder_resolves sel e l r :
  recordUnder sel (elementFromPoint e) l = Some r <-> resolves sel e l r.
Proof.
  unfold recordUnder, resolves. split.
  - destruct (closestOpt sel (elementFromPoint e)) as [el |]; [| discriminate].
    destruct (getAttribute "data-image-path" el) as [p |] eqn:Ep.
    + intros H. exists el, p. repeat split; auto. now apply findByPath_first.
    + now rewrite findByPath_null.
  - intros [el [p [-> [-> H]]]]. now apply findByPath_first.
Qed.

Lemma recordUnder_none sel e l :
  (forall r, ~ resolves sel e l r) ->
  recordUnder sel (elementFromPoint e) l = None.
Proof.
  intros H. destruct (recordUnder sel (elementFromPoint e) l) as [r |] eqn:E;
    [| reflexivity].
  apply recordUnder_resolves in E. now apply H in E.
Qed.

Lemma onGallerySurface_isSome e :
  isSome (closestOpt (ByTag "main") (elementFromPoint e)) = true
  <-> onGallerySurface e.
Proof.
  unfold onGallerySurface.
  destruct (closestOpt (ByTag "main") (elementFromPoint e)) as [el |]; simpl.
  - split; eauto.
  - split; [discriminate | intros [el H]; discriminate].
Qed.

Lemma nonempty_length (l : list ImageMetadata) :
  (0 <? Z.of_nat (List.length l)) = true <-> l <> [].
Proof.
  destruct l; simpl; split; try congruence; try discriminate.
  - intros _. apply Z.ltb_lt. lia.
Qed.

(** Past its two guards the router's code is this. *)
Lemma router_past_guards now e s :
  300 <= now - lastCloseTime s ->
  position (contextMenu s) = None ->
  handleNativeContextMenu now e s =
  match recordUnder thumbnail (elementFromPoint e) (images s) with
  | Some r => (setContextMenu (itemMenu e r) s, true)
  | None =>
      match recordUnder fullViewImage (elementFromPoint e) (images s) with
      | Some r => (setContextMenu (itemMenu e r) s, true)
      | None =>
          if isSome (closestOpt (ByTag "main") (elementFromPoint e))
             && (0 <? Z.of_nat (List.length (images s)))
          then (setContextMenu (clearMenu e) s, true)
          else (s, true)
      end
  end.
Proof.
  intros Ht Hp. unfold handleNativeContextMenu.
  destruct (Z.ltb_spec (now - lastCloseTime s) 300); [lia |].
  now rewrite Hp.
Qed.

Lemma entries_item w e r s :
  lightboxOpen s = false ->
  entries w (setContextMenu (itemMenu e r) s)
  = Some [ContextMenu.copyItem r; ContextMenu.deleteItem r].
Proof.
  intros Ho. unfold entries, renderedMenu. simpl. rewrite Ho.
  unfold ContextMenu.render, ContextMenu.adjustedPosition. simpl.
  now destruct (_ <? _).
Qed.

Lemma entries_clear w e s :
  lightboxOpen s = false ->
  entries w (setContextMenu (clearMenu e) s) = Some [ContextMenu.clearItem].
Proof.
  intros Ho. unfold entries, renderedMenu. simpl. rewrite Ho.
  unfold ContextMenu.render, ContextMenu.adjustedPosition. simpl.
  now destruct (_ <? _).
Qed.

Lemma entries_closed w s :
  position (contextMenu s) = None -> entries w s = None.
Proof.
  intros Hp. unfold entries, renderedMenu.
  destruct (lightboxOpen s); [reflexivity |].
  unfold ContextMenu.render. now rewrite Hp.
Qed.

(** *** Example clicks *)

Example click_thumbnail :
  handleNativeContextMenu 1000 (clickOn (thumbnailImg "b.png"))
    (idle gallery)
  = (setContextMenu (mkMenu (Some (mkPos 120 80)) (Some (shot 20 "b" "b.png")))
       (idle gallery), true).
Proof. reflexivity. Qed.

Example click_gallery :
  handleNativeContextMenu 1000 (clickOn grid) (idle gallery)
  = (setContextMenu (mkMenu (Some (mkPos 120 80)) None) (idle gallery), true).
Proof. reflexivity. Qed.

Example click_empty_gallery :
  handleNativeContextMenu 1000 (clickOn grid) (idle [])
  = (idle [], true).
Proof. reflexivity. Qed.

Example click_stale_thumbnail :
  handleNativeContextMenu 1000 (clickOn (thumbnailImg "gone.png"))
    (idle gallery)
  = (setContextMenu (mkMenu (Some (mkPos 120 80)) None) (idle gallery), true).
Proof. reflexivity. Qed.

(** The router's own decision, its handler taken alone. For a
    right-click it handles with no menu open and outside the suppression
    window: if the topmost element lies in a thumbnail (or else in a
    full-view image) whose locator is that of a record of the list, the
    router writes the item menu of that record at the pointer, rendered
    with two entries, copy and delete; otherwise on the gallery surface
    with a non-empty list it writes the clear menu, one entry; otherwise,
    and whenever the list is empty, the router writes nothing. What the
    page shows after the click also depends on the listener of the menu
    component, see [PageFacts]. *)
Theorem router_decision :
  forall (now innerWidth : Z) (e : MouseEvent) (s : State),
    lightboxOpen s = false ->
    position (contextMenu s) = None ->
    300 <= now - lastCloseTime s ->
    let s' := fst (handleNativeContextMenu now e s) in
    (forall r, resolves thumbnail e (images s) r ->
       s' = setContextMenu (itemMenu e r) s /\
       entries innerWidth s'
       = Some [ContextMenu.copyItem r; ContextMenu.deleteItem r]) /\
    (forall r, (forall r0, ~ resolves thumbnail e (images s) r0) ->
       resolves fullViewImage e (images s) r ->
       s' = setContextMenu (itemMenu e r) s /\
       entries innerWidth s'
       = Some [ContextMenu.copyItem r; ContextMenu.deleteItem r]) /\
    ((forall r0, ~ resolves thumbnail e (images s) r0) ->
     (forall r0, ~ resolves fullViewImage e (images s) r0) ->
     (onGallerySurface e /\ images s <> [] ->
        s' = setContextMenu (clearMenu e) s /\
        entries innerWidth s' = Some [ContextMenu.clearItem]) /\
     (~ (onGallerySurface e /\ images s <> []) ->
        s' = s /\ entries innerWidth s' = None)) /\
    (images s = [] -> s' = s /\ entries innerWidth s' = None).
Proof.
  intros now w e s Ho Hp Ht s'. subst s'.
  rewrite (router_past_guards now e s Ht Hp).
  split; [| split; [| split]].
  - intros r Hr. apply recordUnder_resolves in Hr. rewrite Hr.
    split; [reflexivity | now apply entries_item].
  - intros r Hn Hr. apply recordUnder_resolves in Hr.
    rewrite (recordUnder_none _ _ _ Hn), Hr.
    split; [reflexivity | now apply entries_item].
  - intros Hn1 Hn2.
    rewrite (recordUnder_none _ _ _ Hn1), (recordUnder_none _ _ _ Hn2).
    split.
    + intros [Hm Hl]. apply onGallerySurface_isSome in Hm.
      apply nonempty_length in Hl. rewrite Hm, Hl.
      split; [reflexivity | now apply entries_clear].
    + intros Hno. destruct (isSome _ && _) eqn:E;
        [| split; [reflexivity | now apply entries_closed]].
      exfalso. apply Hno. apply andb_prop in E as [Hm Hl].
      split; [now apply onGallerySurface_isSome | now apply nonempty_length].
  - intros Hl. unfold recordUnder. rewrite Hl.
    assert (Hf : forall p, findByPath p [] = None) by reflexivity.
    destruct (closestOpt thumbnail (elementFromPoint e)); rewrite ?Hf;
      destruct (closestOpt fullViewImage (elementFromPoint e)); rewrite ?Hf;
      simpl; rewrite andb_false_r;
      (split; [reflexivity | now apply entries_closed]).
Qed.

Lemma second_thumbnail_resolves :
  resolves thumbnail (clickOn (thumbnailImg "b.png")) gallery b_shot.
Proof.
  exists (card "b.png"), "b.png"%string. split; [reflexivity |].
  split; [reflexivity |]. exists [c_shot], [a_shot].
  split; [reflexivity |]. split; [reflexivity |].
  intros r' [<- | []]. discriminate.
Qed.

(** The router's decision at a click on the second thumbnail of a
    gallery of three. *)
Lemma router_decision_witness :
  lightboxOpen (idle gallery) = false /\
  position (contextMenu (idle gallery)) = None /\
  300 <= 1000 - lastCloseTime (idle gallery) /\
  let e := clickOn (thumbnailImg "b.png") in
  let s' := fst (handleNativeContextMenu 1000 e (idle gallery)) in
  resolves thumbnail e gallery b_shot /\
  s' = setContextMenu (itemMenu e b_shot) (idle gallery) /\
  entries 1280 s'
  = Some [ContextMenu.copyItem b_shot; ContextMenu.deleteItem b_shot].
Proof.
  split; [reflexivity |]. split; [reflexivity |]. split; [simpl; lia |].
  split; [exact second_thumbnail_resolves |].
  exact (proj1 (router_decision 1000 1280
                  (clickOn (thumbnailImg "b.png")) (idle gallery)
                  eq_refl eq_refl ltac:(simpl; lia))
           b_shot second_thumbnail_resolves).
Defined.

End RouterFacts.

(** ** The suppression window and the closing of menus *)

Module WindowFacts.
Import Dom App Async Spec Aux Props Examples.

Lemma apply_frame e w : frame (state (apply e w)) = frame (state w).
Proof.
  destruct e as [u | m | m]; simpl; [| reflexivity | reflexivity].
  now destruct (u (images (state w))).
Qed.


Lemma run_frame env t : forall w, frame (state (run env t w)) = frame (state w).
Proof.
  induction t as [a | r | c k IH | ms k IH | e k IH]; intros w; simpl;
    try reflexivity.
  - now rewrite IH.
  - now rewrite IH.
  - now rewrite IH, apply_frame.
Qed.







Lemma overlayCallback_records now s c :
  let s' := Screen.overlayCallback now s c in
  s' = s \/
  (ImageLightbox.contextMenu (Screen.overlay s') = closedMenu /\
   lastCloseTime (Screen.app s') = now).
Proof.
  destruct c; simpl; auto;
    destruct (isSome (image (ImageLightbox.contextMenu (Screen.overlay s))));
    auto.
Qed.

Lemma overlayCallbacks_record now cs :
  forall s,
  let s' := fold_left (Screen.overlayCallback now) cs s in
  ImageLightbox.contextMenu (Screen.overlay s')
  = ImageLightbox.contextMenu (Screen.overlay s) \/
  (ImageLightbox.contextMenu (Screen.overlay s') = closedMenu /\
   lastCloseTime (Screen.app s') = now).
Proof.
  induction cs as [| c cs IH]; intros s; simpl; [now left |].
  destruct (overlayCallback_records now s c) as [E | [Hm Ht]].
  - rewrite E. apply IH.
  - destruct (IH (Screen.overlayCallback now s c)) as [E | H]; [| now right].
    right. simpl in E. rewrite E. split; [assumption |].
    clear IH E. revert Ht. generalize (Screen.overlayCallback now s c).
    induction cs as [| c' cs IH]; intros s0 Ht; simpl; [assumption |].
    apply IH. destruct (overlayCallback_records now s0 c') as [-> | [_ H]];
      assumption.
Qed.

(** A closure path of the overlay's menu, or a right-click on it, runs
    the overlay's [handleCloseContextMenu] with App's
    [onContextMenuClose]. *)
Lemma overlay_closes now i s :
  closesOverlayMenu i = true ->
  overlayMenuClosed now (Screen.overlayMenuInput now i s).
Proof.
  destruct s as [[l m o ix t] [ci cm cc fs]].
  unfold Screen.overlayMenuInput, overlayMenuClosed.
  destruct i as [key | e | btn | btn | [lbl [| img | img | | p tp] dg]];
    unfold ContextMenu.react, ContextMenu.handleEscape,
      ContextMenu.handleNativeContextMenu, ContextMenu.overlayMouseDown,
      ContextMenu.overlayMouseUp, ContextMenu.itemClick;
    cbn [ContextMenu.onClick closesOverlayMenu closes negb fst];
    intros Hc; rewrite ?Hc; try discriminate;
    try (destruct cm as [cp [r |]]); cbn; repeat split.
Qed.





(** *** Example: close, then click *)

Example escape_closes :
  after_escape = mkState gallery closedMenu false 0 5000.
Proof. reflexivity. Qed.

Example click_150ms_later :
  handleNativeContextMenu 5150 (clickOn grid) after_escape
  = (after_escape, false).
Proof. reflexivity. Qed.

Example click_350ms_later :
  handleNativeContextMenu 5350 (clickOn grid) after_escape
  = (setContextMenu (mkMenu (Some (mkPos 120 80)) None) after_escape, true).
Proof. reflexivity. Qed.



End WindowFacts.

(** ** The asynchronous handlers *)

Module TaskFacts.
Import Api Async App Spec Aux Examples.

(** *** Order of the store effects *)

Lemma handleCopy_trace env image w :
  trace (run env (handleCopy image) w)
  = trace w ++ copyTrace env image (images (state w)).
Proof.
  destruct w as [s tr]. unfold handleCopy, copyTrace, loadImages.
  cbn -[perform Merge.merge].
  destruct (perform env resetClipboardHash) as [[] | r];
    cbn -[perform Merge.merge];
    [| now repeat (rewrite <- app_assoc; simpl)].
  destruct (perform env (copyFileToClipboard (path image))) as [[] | r];
    cbn -[perform Merge.merge];
    [| now repeat (rewrite <- app_assoc; simpl)].
  destruct (perform env getImages) as [data | r];
    cbn -[perform Merge.merge]; rewrite MergeFacts.merge_latest_eq; simpl;
    now repeat (rewrite <- app_assoc; simpl).
Qed.

Lemma copyTrace_boundary env image shown :
  filter boundary (copyTrace env image shown) = inOrder env (copyPlan image).
Proof.
  unfold copyTrace, copyPlan. cbn -[perform].
  destruct (perform env resetClipboardHash); cbn -[perform]; [| reflexivity].
  destruct (perform env (copyFileToClipboard (path image)));
    cbn -[perform]; [| reflexivity].
  now destruct (perform env getImages).
Qed.

(** *** Example runs *)

Example copy_back :
  run (store (b_again :: gallery)) (handleCopy b_shot)
      (mkWorld (idle gallery) [])
  = mkWorld (idle gallery)
      [Called resetClipboardHash; Resolved resetClipboardHash;
       Called (copyFileToClipboard "b.png");
       Resolved (copyFileToClipboard "b.png");
       Logged "File path copied to clipboard:";
       TimerSet 100; TimerFired 100;
       Called getImages; Resolved getImages;
       ImagesSet (b_again :: gallery);
       ImagesSet gallery].
Proof. reflexivity. Qed.

Example copy_offline :
  run offline (handleCopy b_shot)
      (mkWorld (idle gallery) [])
  = mkWorld (idle gallery)
      [Called resetClipboardHash;
       Failed resetClipboardHash "store unavailable";
       Errored "Failed to copy image:"].
Proof. reflexivity. Qed.

(** C8: on every invocation and however the store answers, the effects
    of the copy handler at the store and timer boundary are the plan
    reset, copy of the target's locator, 100ms delay, list refresh carried
    out in strict order, each step started after the one before has
    completed and a rejection ending the sequence; and when the copy went
    through, the merge is applied after the refresh has settled. *)
Theorem copy_handler_order :
  forall (env : Environment) (image : ImageMetadata) (w : World),
    filter boundary (trace (run env (handleCopy image) w))
    = filter boundary (trace w) ++ inOrder env (copyPlan image) /\
    trace (run env (handleCopy image) w)
    = trace w ++ copyTrace env image (images (state w)) /\
    (fulfilled (perform env resetClipboardHash) = true ->
     fulfilled (perform env (copyFileToClipboard (path image))) = true ->
     exists before shown,
       copyTrace env image (images (state w))
       = before ++ [ImagesSet (merge_latest shown)] /\
       In (Called getImages) before /\
       (In (Resolved getImages) before \/
        exists r, In (Failed getImages r) before)).
Proof.
  intros env image w. split; [| split].
  - now rewrite handleCopy_trace, filter_app, copyTrace_boundary.
  - apply handleCopy_trace.
  - intros H1 H2. unfold copyTrace.
    destruct (perform env resetClipboardHash) as [[] | r1]; [| discriminate].
    destruct (perform env (copyFileToClipboard (path image))) as [[] | r2];
      [| discriminate].
    destruct (perform env getImages) as [data | r].
    + exists [Called resetClipboardHash; Resolved resetClipboardHash;
              Called (copyFileToClipboard (path image));
              Resolved (copyFileToClipboard (path image));
              Logged "File path copied to clipboard:";
              TimerSet 100; TimerFired 100;
              Called getImages; Resolved getImages; ImagesSet data], data.
      repeat split; simpl; auto 20.
    + exists [Called resetClipboardHash; Resolved resetClipboardHash;
              Called (copyFileToClipboard (path image));
              Resolved (copyFileToClipboard (path image));
              Logged "File path copied to clipboard:";
              TimerSet 100; TimerFired 100;
              Called getImages; Failed getImages r;
              Errored "Failed to load images:"], (images (state w)).
      repeat split; simpl; eauto 20.
Qed.

(** The theorem at a store that fulfils every call and lists the gallery
    with a second capture of [b]. *)
Lemma copy_handler_order_witness :
  let env := store (b_again :: gallery) in
  fulfilled (perform env resetClipboardHash) = true /\
  fulfilled (perform env (copyFileToClipboard (path b_shot))) = true /\
  exists before shown,
    copyTrace env b_shot (images (state (mkWorld (idle gallery) [])))
    = before ++ [ImagesSet (merge_latest shown)] /\
    In (Called getImages) before /\
    (In (Resolved getImages) before \/
     exists r, In (Failed getImages r) before).
Proof.
  split; [reflexivity |]. split; [reflexivity |].
  exact (proj2 (proj2 (copy_handler_order (store (b_again :: gallery)) b_shot
                         (mkWorld (idle gallery) [])))
           eq_refl eq_refl).
Defined.

(** *** Choosing an entry *)

Lemma choose_copy now env r s tr :
  let w := mkWorld s tr in
  let w1 := fst (handleInput now (ContextMenu.ItemClick (ContextMenu.copyItem r)) w) in
  let w2 := menuInput now env (ContextMenu.ItemClick (ContextMenu.copyItem r)) w in
  state w1 = handleCloseContextMenu now s /\
  contextMenu (state w2) = closedMenu /\
  lastCloseTime (state w2) = now /\
  (actionFails env (ContextMenu.onCopy r) = true ->
     images (state w2) = images s) /\
  exists added,
    trace w2 = tr ++ added /\ existsb fatal added = false /\
    (actionFails env (ContextMenu.onCopy r) = true ->
       existsb isError added = true).
Proof.
  unfold menuInput, handleInput. cbn -[perform Merge.merge].
  split; [reflexivity |].
  settle_call env resetClipboardHash.
  - settle_call env (copyFileToClipboard (path r)).
    + destruct (perform env getImages) as [data | e];
        cbn -[perform Merge.merge]; rewrite MergeFacts.merge_latest_eq;
        cbn -[perform Merge.merge];
        (repeat split; try discriminate);
        eexists; repeat rewrite <- app_assoc; simpl;
        (split; [reflexivity | split; [reflexivity | discriminate]]).
    + repeat split; try reflexivity.
      eexists; repeat rewrite <- app_assoc; simpl.
      split; [reflexivity | split; reflexivity].
  - repeat split; try reflexivity.
    eexists; repeat rewrite <- app_assoc; simpl.
    split; [reflexivity | split; reflexivity].
Qed.

Lemma choose_delete now env r s tr :
  let w := mkWorld s tr in
  let w1 := fst (handleInput now (ContextMenu.ItemClick (ContextMenu.deleteItem r)) w) in
  let w2 := menuInput now env (ContextMenu.ItemClick (ContextMenu.deleteItem r)) w in
  state w1 = handleCloseContextMenu now s /\
  contextMenu (state w2) = closedMenu /\
  lastCloseTime (state w2) = now /\
  images (state w2)
  = (if fulfilled (perform env (deleteImage (id r)))
     then without r (images s) else images s) /\
  exists added,
    trace w2 = tr ++ added /\ existsb fatal added = false /\
    (actionFails env (ContextMenu.onDelete r) = true ->
       existsb isError added = true).
Proof.
  unfold menuInput, handleInput. cbn -[perform].
  split; [reflexivity |].
  destruct (perform env (deleteImage (id r))) as [? | ?]; cbn -[perform];
    (repeat split);
    eexists; repeat rewrite <- app_assoc; simpl;
    (split; [reflexivity | split; [reflexivity | try discriminate; reflexivity]]).
Qed.

Lemma choose_clear now env s tr :
  let w := mkWorld s tr in
  let w1 := fst (handleInput now (ContextMenu.ItemClick ContextMenu.clearItem) w) in
  let w2 := menuInput now env (ContextMenu.ItemClick ContextMenu.clearItem) w in
  state w1 = handleCloseContextMenu now s /\
  contextMenu (state w2) = closedMenu /\
  lastCloseTime (state w2) = now /\
  images (state w2)
  = (if fulfilled (perform env clearAllImages) then [] else images s) /\
  exists added,
    trace w2 = tr ++ added /\ existsb fatal added = false /\
    (actionFails env ContextMenu.onClearAll = true ->
       existsb isError added = true).
Proof.
  unfold menuInput, handleInput. cbn -[perform].
  split; [reflexivity |].
  destruct (perform env clearAllImages) as [? | ?]; cbn -[perform];
    (repeat split);
    eexists; repeat rewrite <- app_assoc; simpl;
    (split; [reflexivity | split; [reflexivity | try discriminate; reflexivity]]).
Qed.

Example delete_rejected :
  menuInput 7000 offline (ContextMenu.ItemClick (ContextMenu.deleteItem b_shot))
    (mkWorld open_on_b [])
  = mkWorld (mkState gallery closedMenu false 0 7000)
      [Called (deleteImage "b"); Failed (deleteImage "b") "store unavailable";
       Errored "Failed to delete image:"].
Proof. reflexivity. Qed.

Example delete_fulfilled :
  menuInput 7000 (store []) (ContextMenu.ItemClick (ContextMenu.deleteItem b_shot))
    (mkWorld open_on_b [])
  = mkWorld (mkState [shot 30 "c" "c.png";
                      shot 10 "a" "a.png"] closedMenu false 0 7000)
      [Called (deleteImage "b"); Resolved (deleteImage "b");
       ImagesSet [shot 30 "c" "c.png";
                  shot 10 "a" "a.png"]].
Proof. reflexivity. Qed.

(** C9: choosing any entry of the rendered menu closes the menu, at once
    and whatever the store then answers (the overlay's menu as well);
    when the store action is rejected the displayed list is left as it
    was and the failure is logged; delete removes the record's identity
    from the displayed list exactly when the store delete was fulfilled,
    and not before it has settled; no exception escapes. *)
Theorem entry_selection :
  forall (now : Z) (env : Environment) (target : option ImageMetadata)
         (item : ContextMenu.MenuItem) (w : World),
    In item (ContextMenu.menuItems target) ->
    let w1 := fst (handleInput now (ContextMenu.ItemClick item) w) in
    let w2 := menuInput now env (ContextMenu.ItemClick item) w in
    contextMenu (state w1) = closedMenu /\
    images (state w1) = images (state w) /\
    contextMenu (state w2) = closedMenu /\
    (actionFails env (ContextMenu.onClick item) = true ->
       images (state w2) = images (state w)) /\
    (forall r, ContextMenu.onClick item = ContextMenu.onDelete r ->
       images (state w2)
       = if fulfilled (perform env (deleteImage (id r)))
         then without r (images (state w)) else images (state w)) /\
    (exists added,
       trace w2 = trace w ++ added /\ existsb fatal added = false /\
       (actionFails env (ContextMenu.onClick item) = true ->
          existsb isError added = true)) /\
    (forall o : Screen.State,
       ImageLightbox.contextMenu
         (Screen.overlay
            (Screen.overlayMenuInput now (ContextMenu.ItemClick item) o))
       = closedMenu).
Proof.
  intros now env target item [s tr] Hin.
  assert (Ho : forall o : Screen.State,
             ImageLightbox.contextMenu
               (Screen.overlay
                  (Screen.overlayMenuInput now (ContextMenu.ItemClick item) o))
             = closedMenu) by (intros o; reflexivity).
  destruct target as [r |]; simpl in Hin.
  - destruct Hin as [<- | [<- | []]].
    + destruct (choose_copy now env r s tr) as [H1 [H2 [_ [H3 H4]]]].
      cbv zeta. rewrite H1. repeat split; try assumption.
      intros r0 [=].
    + destruct (choose_delete now env r s tr) as [H1 [H2 [_ [H3 H4]]]].
      cbv zeta. rewrite H1. repeat split; try assumption.
      * rewrite H3. simpl.
        destruct (perform env (deleteImage (id r))); simpl;
          [discriminate | reflexivity].
      * intros r0 [= <-]. exact H3.
  - destruct Hin as [<- | []].
    destruct (choose_clear now env s tr) as [H1 [H2 [_ [H3 H4]]]].
    cbv zeta. rewrite H1. repeat split; try assumption.
    + rewrite H3. simpl.
      destruct (perform env clearAllImages); simpl;
        [discriminate | reflexivity].
    + intros r0 [=].
Qed.

(** The theorem at the delete entry of an open item menu, the store
    rejecting every call. *)
Lemma entry_selection_witness :
  In (ContextMenu.deleteItem b_shot) (ContextMenu.menuItems (Some b_shot)) /\
  let w := mkWorld open_on_b [] in
  let w2 := menuInput 7000 offline
              (ContextMenu.ItemClick (ContextMenu.deleteItem b_shot)) w in
  contextMenu (state w2) = closedMenu /\
  (actionFails offline (ContextMenu.onDelete b_shot) = true ->
     images (state w2) = images (state w)).
Proof.
  split; [right; left; reflexivity |].
  pose proof (entry_selection 7000 offline (Some b_shot)
                (ContextMenu.deleteItem b_shot)
                (mkWorld open_on_b [])
                (or_intror (or_introl eq_refl))) as H.
  cbv zeta in H. destruct H as [_ [_ [H2 [H3 _]]]].
  split; [exact H2 | exact H3].
Defined.

End TaskFacts.

(** ** Suppressing the platform menu *)

Module DefaultFacts.
Import Dom App Spec Examples.

(** C7, as stated, at a click outside every recognised surface, with no
    menu open and outside the suppression window: the router decides for
    no menu and leaves the state as it is, yet [e.preventDefault()] has
    been called. *)
Lemma noop_branch_suppresses_default :
  routing outside (idle gallery) = NoOp /\
  handleNativeContextMenu 1000 outside (idle gallery) = (idle gallery, true).
Proof. split; reflexivity. Qed.

(** C7 (amended): the top-level router suppresses the platform default
    exactly when the click is outside the suppression window and no menu
    is open, that is on every click it routes: whenever it opens an item
    or clear menu, and also on the final no-op branches; only the two
    early returns leave the event untouched. *)
Theorem default_suppressed_when_routed :
  forall (now : Z) (e : MouseEvent) (s : State),
    let r := handleNativeContextMenu now e s in
    (snd r = true <->
       300 <= now - lastCloseTime s /\ position (contextMenu s) = None) /\
    (contextMenu (fst r) <> contextMenu s -> snd r = true) /\
    (snd r = false -> fst r = s).
Proof.
  intros now e s r. subst r. unfold handleNativeContextMenu.
  destruct (Z.ltb_spec (now - lastCloseTime s) 300) as [Hlt | Hge]; simpl.
  - repeat split; try discriminate; try congruence. intros [H _]. lia.
  - destruct (position (contextMenu s)) as [p |] eqn:Hp; simpl.
    + repeat split; try discriminate; try congruence. intros [_ H].
      discriminate.
    + destruct (recordUnder _ _ _); simpl; [repeat split; auto; discriminate |].
      destruct (recordUnder _ _ _); simpl; [repeat split; auto; discriminate |].
      destruct (isSome _ && _); simpl; repeat split; auto; discriminate.
Qed.

(** The theorem at a click on the gallery surface. *)
Lemma default_suppressed_when_routed_witness :
  300 <= 1000 - lastCloseTime (idle gallery) /\
  position (contextMenu (idle gallery)) = None /\
  snd (handleNativeContextMenu 1000 (clickOn grid) (idle gallery)) = true.
Proof.
  split; [simpl; lia |]. split; [reflexivity |].
  apply (proj1 (default_suppressed_when_routed 1000 (clickOn grid)
                  (idle gallery))).
  split; [simpl; lia | reflexivity].
Defined.

End DefaultFacts.

(** ** Opening the overlay *)

Module OverlayOpenFacts.
Import App Spec Examples.

(** What [handleImageClick] and the overlay's effect do by themselves:
    the top-level menu is not rendered while the overlay is open, and in
    every state at most one of the two menus is visible. *)
Theorem overlay_open_hides_menu :
  forall (index innerWidth : Z) (s : Screen.State),
    let s' := Screen.openOverlay index s in
    renderedMenu innerWidth (Screen.app s') = None /\
    Screen.topMenuVisible s' = false /\
    contextMenu (Screen.app s') = contextMenu (Screen.app s) /\
    lightboxOpen (Screen.app s') = true /\
    forall t : Screen.State,
      Screen.topMenuVisible t && Screen.overlayMenuVisible t = false.
Proof.
  intros index w s s'. split; [reflexivity |]. repeat (split; [reflexivity |]).
  intros t. unfold Screen.topMenuVisible, Screen.overlayMenuVisible.
  destruct (lightboxOpen (Screen.app t)); simpl;
    [reflexivity | apply andb_false_r].
Qed.

End OverlayOpenFacts.

(** ** Repositioning an open menu *)

Module RepositionFacts.
Import Dom Spec Examples.


(** The presenter installs its listener in an effect of the component,
    which App mounts whenever the overlay is closed; the handler does not
    read the menu state, and answers a right-click with [onReposition]
    also when no menu is shown. *)
Example presenter_answers_without_menu :
  App.state (fst (App.handleInput 1000 (ContextMenu.RightClick outside)
                    (App.mkWorld (idle []) [])))
  = App.setContextMenu (mkMenu (Some (mkPos 120 80)) None) (idle []).
Proof. reflexivity. Qed.

End RepositionFacts.

(** ** The overlay's local router *)

Module OverlayFacts.
Import Dom ImageLightbox Spec Props Examples.

Lemma runFrame_menu t f :
  contextMenu (runFrame t f) = contextMenu t \/
  exists img,
    currentImage f = Some img /\
    contextMenu (runFrame t f) = mkMenu (Some (anchor f)) (Some img).
Proof.
  unfold runFrame. destruct (currentImage f) as [img |].
  - right. exists img. split; reflexivity.
  - left. now destruct (clearsClosing f).
Qed.

Lemma runFrame_closedOrItem t f :
  closedOrItemMenu (contextMenu t) -> closedOrItemMenu (contextMenu (runFrame t f)).
Proof.
  intros H. destruct (runFrame_menu t f) as [-> | [img [_ ->]]]; [assumption |].
  right. now exists img.
Qed.

Lemma frames_closedOrItem fs :
  forall t, closedOrItemMenu (contextMenu t) ->
            closedOrItemMenu (contextMenu (fold_left runFrame fs t)).
Proof.
  induction fs as [| f fs IH]; intros t H; simpl; [assumption |].
  apply IH. now apply runFrame_closedOrItem.
Qed.

Lemma handleContextMenu_menu images e s :
  let s' := fst (handleContextMenu images e s) in
  contextMenu s' = contextMenu s \/
  contextMenu s' = closedMenu \/
  exists img,
    at_index images (currentIndex s) = Some img /\
    contextMenu s' = mkMenu (Some (at_pointer e)) (Some img).
Proof.
  unfold handleContextMenu. destruct (isClosing s); simpl; [now left |].
  destruct (isSome (position (contextMenu s))); simpl; [right; now left |].
  destruct (at_index images (currentIndex s)) as [img |]; simpl; [| now left].
  right. right. now exists img.
Qed.

Lemma step_closedOrItem images i s :
  closedOrItemMenu (contextMenu s) ->
  closedOrItemMenu (contextMenu (step images i s)).
Proof.
  intros H. destruct i as [e | px py | | | |]; simpl.
  - destruct (handleContextMenu_menu images e s) as [-> | [-> | [img [_ ->]]]];
      [assumption | now left | right; now exists img].
  - now left.
  - unfold animationFrame. now apply frames_closedOrItem.
  - assumption.
  - assumption.
  - now left.
Qed.

Lemma reachable_closedOrItem s :
  reachable s -> closedOrItemMenu (contextMenu s).
Proof.
  induction 1 as [slideIndex | images i s _ IH]; [now left |].
  now apply step_closedOrItem.
Qed.

(** *** Example: the list shrinks under an open menu *)

(** C10, as stated, at an overlay whose menu is open on the record at
    index 1 when the list has shrunk to one record: no record exists at
    the current index, and the handler calls [e.preventDefault()]. *)
Lemma overlay_blocks_default_without_record :
  at_index [c_shot] (currentIndex stale_overlay) = None /\
  snd (handleContextMenu [c_shot] second_click stale_overlay) = true.
Proof. split; reflexivity. Qed.

Example overlay_click_without_record :
  handleContextMenu [c_shot] second_click (initial 1)
  = (initial 1, false).
Proof. reflexivity. Qed.

Example overlay_click_on_record :
  handleContextMenu [c_shot; b_shot] second_click
    (initial 1)
  = (setContextMenu (mkMenu (Some (mkPos 300 200)) (Some b_shot))
       (initial 1), true).
Proof. reflexivity. Qed.

(** The record of a menu set in an animation frame is the one captured
    when the right-click was handled: here the second right-click on the
    second of two slides queues the callback, previous is pressed before
    the frame, and the menu opens on [b.png] while [c.png] is
    displayed. *)
Example overlay_menu_on_earlier_record :
  let t := overlayRun [c_shot; b_shot]
             [ContextMenuEvent second_click; ContextMenuEvent second_click;
              Prev; AnimationFrame] (initial 1) in
  image (contextMenu t) = Some b_shot /\
  at_index [c_shot; b_shot] (currentIndex t) = Some c_shot.
Proof. split; reflexivity. Qed.

(** C10 (amended): every menu the overlay's local router opens is an
    item menu, never the clear-all menu, and its target is the record
    that was at the current index when the router handled the
    right-click: with no menu open the router sets it at once; with a
    menu open (and in [showContextMenu]) it clears the menu and queues a
    callback that sets the captured record in the next animation frame,
    by which time another record may be displayed. From its opening on
    the overlay's menu is closed or an item menu, so a rendered overlay
    menu has the two entries copy and delete. A right-click while no
    record exists at the current index and no overlay menu is open opens
    no menu and does not suppress the platform default; one that finds
    an overlay menu open, the closing flag being down, clears it and
    suppresses the default, record or not; and while the closing flag is
    up the router only lowers the flag. *)
Theorem overlay_item_menus_only :
  forall (images : list ImageMetadata) (e : MouseEvent) (s : State),
    let r := handleContextMenu images e s in
    let current := at_index images (currentIndex s) in
    (contextMenu (fst r) = contextMenu s \/
     contextMenu (fst r) = closedMenu \/
     exists img,
       current = Some img /\
       contextMenu (fst r) = mkMenu (Some (at_pointer e)) (Some img)) /\
    (exists added,
       frames (fst r) = frames s ++ added /\
       Forall (fun f => currentImage f = current) added) /\
    (exists f,
       frames (showContextMenu images (clientX e) (clientY e) s)
       = frames s ++ [f] /\
       currentImage f = current /\
       contextMenu (showContextMenu images (clientX e) (clientY e) s)
       = closedMenu) /\
    (forall f t,
       contextMenu (runFrame t f) = contextMenu t \/
       exists img,
         currentImage f = Some img /\
         contextMenu (runFrame t f) = mkMenu (Some (anchor f)) (Some img)) /\
    (forall t, reachable t ->
       closedOrItemMenu (contextMenu t) /\
       forall p, position (contextMenu t) = Some p ->
         exists img,
           ContextMenu.menuItems (image (contextMenu t))
           = [ContextMenu.copyItem img; ContextMenu.deleteItem img]) /\
    (current = None -> position (contextMenu s) = None ->
       snd r = false /\
       contextMenu (fst r) = contextMenu s /\
       frames (fst r) = frames s) /\
    (isClosing s = false -> position (contextMenu s) <> None ->
       snd r = true /\ contextMenu (fst r) = closedMenu) /\
    (isClosing s = true -> r = (setIsClosing false s, false)) /\
    (isClosing s = false -> position (contextMenu s) = None ->
       forall img, current = Some img ->
         r = (setContextMenu (mkMenu (Some (at_pointer e)) (Some img)) s,
              true)) /\
    (exists (l : list ImageMetadata) (inputs : list Input) (i : Z)
            (shown displayed : ImageMetadata),
       let t := overlayRun l inputs (initial i) in
       image (contextMenu t) = Some shown /\
       at_index l (currentIndex t) = Some displayed /\
       shown <> displayed).
Proof.
  intros images e s r current. subst r current.
  split; [apply handleContextMenu_menu |].
  split; [| split; [| split; [| split; [| split; [| split; [| split;
    [| split]]]]]]].
  - unfold handleContextMenu. destruct (isClosing s); simpl;
      [exists []; split; [now rewrite app_nil_r | constructor] |].
    destruct (isSome (position (contextMenu s))); simpl.
    + eexists. split; [reflexivity |]. now repeat constructor.
    + destruct (at_index images (currentIndex s)); simpl;
        exists []; (split; [now rewrite app_nil_r | constructor]).
  - eexists. repeat split.
  - intros f t. apply runFrame_menu.
  - intros t Ht. pose proof (reachable_closedOrItem t Ht) as Hm.
    split; [assumption |]. intros p Hp.
    destruct Hm as [Hn | [img Hi]]; [congruence |].
    exists img. now rewrite Hi.
  - intros Hc Hp. unfold handleContextMenu. rewrite Hc, Hp.
    now destruct (isClosing s).
  - intros Hc Hp. unfold handleContextMenu. rewrite Hc.
    destruct (position (contextMenu s)); [| congruence].
    split; reflexivity.
  - intros Hc. unfold handleContextMenu. now rewrite Hc.
  - intros Hc Hp img Hi. unfold handleContextMenu. now rewrite Hc, Hp, Hi.
  - exists [c_shot; b_shot],
      [ContextMenuEvent second_click; ContextMenuEvent second_click;
       Prev; AnimationFrame], 1, b_shot, c_shot.
    cbv zeta. split; [reflexivity |]. split; [reflexivity | discriminate].
Qed.

(** The theorem at a freshly opened overlay whose index is past the end
    of the list. *)
Lemma overlay_item_menus_only_witness :
  at_index [c_shot] (currentIndex (initial 1)) = None /\
  position (contextMenu (initial 1)) = None /\
  snd (handleContextMenu [c_shot] second_click (initial 1)) = false /\
  contextMenu (fst (handleContextMenu [c_shot] second_click (initial 1)))
  = contextMenu (initial 1) /\
  frames (fst (handleContextMenu [c_shot] second_click (initial 1)))
  = frames (initial 1).
Proof.
  split; [reflexivity |]. split; [reflexivity |].
  exact (proj1 (proj2 (proj2 (proj2 (proj2 (proj2
           (overlay_item_menus_only [c_shot] second_click (initial 1)))))))
           eq_refl eq_refl).
Defined.

End OverlayFacts.

(** ** More on the merge *)

Module MergeMore.
Import Merge Spec Aux Examples MergeFacts.

(** *** How many records are kept *)

Lemma filter_length_all {A : Type} (f : A -> bool) (l : list A) :
  List.length (filter f l) = List.length l -> forall a, In a l -> f a = true.
Proof.
  induction l as [| b l IH]; simpl; [contradiction |].
  pose proof (filter_length_le f l) as Hle.
  destruct (f b) eqn:Eb; simpl; intros Hlen a [<- | Ha]; auto.
  - exfalso. lia.
  - exfalso. lia.
Qed.

Lemma identities_length l : (List.length (identities l) <= List.length l)%nat.
Proof.
  induction l as [| a l IH]; simpl; [lia |].
  pose proof (filter_length_le (fun i => negb (String.eqb i (id a)))
                               (identities l)). lia.
Qed.

Lemma identities_full l :
  List.length (identities l) = List.length l -> NoDup (map id l).
Proof.
  induction l as [| a l IH]; simpl; intros H; constructor.
  - pose proof (filter_length_le (fun i => negb (String.eqb i (id a)))
                                 (identities l)) as H1.
    pose proof (identities_length l) as H2.
    intros Hin. apply identities_In in Hin.
    assert (Hf : List.length (filter (fun i => negb (String.eqb i (id a)))
                                (identities l))
                 = List.length (identities l)) by lia.
    pose proof (filter_length_all _ _ Hf (id a) Hin) as Hc.
    simpl in Hc. now rewrite String.eqb_refl in Hc.
  - apply IH.
    pose proof (filter_length_le (fun i => negb (String.eqb i (id a)))
                                 (identities l)).
    pose proof (identities_length l). lia.
Qed.

Lemma merge_latest_length l :
  List.length (merge_latest l) = List.length (identities l).
Proof.
  rewrite <- (length_map id (merge_latest l)).
  apply Permutation_length, merge_latest_ids.
Qed.

(** X1: the merge never returns more records than it was given; it
    returns as many exactly when no identity occurs twice in the input,
    and then it only reorders the input. *)
Theorem merge_drops_only_duplicates :
  forall l : list ImageMetadata,
  exists r : list ImageMetadata,
    merge l = Some r /\
    (List.length r <= List.length l)%nat /\
    (List.length r = List.length l <-> NoDup (map id l)) /\
    (NoDup (map id l) -> Permutation r l).
Proof.
  intros l. exists (merge_latest l).
  split; [apply merge_latest_eq |]. rewrite merge_latest_length.
  split; [apply identities_length |]. split; [split |].
  - apply identities_full.
  - intros H. now rewrite identities_distinct, length_map.
  - intros H. unfold merge_latest. rewrite kept_distinct by assumption.
    apply sort_perm.
Qed.

(** *** Deleting an identity and merging *)

Lemma filter_comm {A : Type} (f g : A -> bool) (l : list A) :
  filter f (filter g l) = filter g (filter f l).
Proof.
  induction l as [| a l IH]; simpl; [reflexivity |].
  destruct (f a) eqn:Ef, (g a) eqn:Eg; simpl; rewrite ?Ef, ?Eg, IH; reflexivity.
Qed.

Lemma filter_idem {A : Type} (f : A -> bool) (l : list A) :
  filter f (filter f l) = filter f l.
Proof.
  induction l as [| a l IH]; simpl; [reflexivity |].
  destruct (f a) eqn:Ef; simpl; rewrite ?Ef, IH; reflexivity.
Qed.

Lemma filter_implied {A : Type} (f g : A -> bool) (l : list A) :
  (forall a, f a = true -> g a = true) ->
  filter f (filter g l) = filter f l.
Proof.
  intros H. induction l as [| a l IH]; simpl; [reflexivity |].
  destruct (g a) eqn:Eg; simpl; [now rewrite IH |].
  destruct (f a) eqn:Ef; [| exact IH].
  apply H in Ef. congruence.
Qed.

Lemma identities_without r l :
  identities (without r l)
  = filter (fun i => negb (String.eqb i (id r))) (identities l).
Proof.
  unfold without. induction l as [| a l IH]; simpl; [reflexivity |].
  destruct (String.eqb_spec (id a) (id r)) as [E | N]; simpl.
  - rewrite IH, E. now rewrite filter_idem.
  - rewrite IH. f_equal. apply filter_comm.
Qed.

Lemma group_of_without r l j :
  j <> id r -> group_of (without r l) j = group_of l j.
Proof.
  intros Hj. unfold group_of, without. apply filter_implied.
  intros a Ha. apply String.eqb_eq in Ha.
  destruct (String.eqb_spec (id a) (id r)); [congruence | reflexivity].
Qed.

Lemma keep_some_filter (g : string -> option ImageMetadata) i ks :
  (forall k x, g k = Some x -> id x = k) ->
  filter (fun x => negb (String.eqb (id x) i)) (keep_some (map g ks))
  = keep_some (map g (filter (fun k => negb (String.eqb k i)) ks)).
Proof.
  intros Hg. induction ks as [| k ks IH]; simpl; [reflexivity |].
  destruct (g k) as [x |] eqn:Ex; simpl.
  - rewrite (Hg _ _ Ex). destruct (negb (String.eqb k i)); simpl;
      rewrite ?Ex, IH; reflexivity.
  - destruct (negb (String.eqb k i)); simpl; rewrite ?Ex, IH; reflexivity.
Qed.

Lemma kept_without r l :
  kept latest_minimal (without r l) = without r (kept latest_minimal l).
Proof.
  unfold kept at 1. rewrite identities_without.
  unfold without at 2. unfold kept. rewrite keep_some_filter.
  - f_equal. apply map_ext_in. intros j Hj. apply filter_In in Hj as [_ Hj].
    rewrite group_of_without; [reflexivity |].
    intros ->. now rewrite String.eqb_refl in Hj.
  - intros k x Hx. apply latest_minimal_sound in Hx as [Hx _].
    now apply group_of_In in Hx.
Qed.

Lemma insert_first a l :
  (forall b, In b l -> newest_first a b) -> insert compareFn a l = a :: l.
Proof.
  destruct l as [| b l]; simpl; [reflexivity |]. intros H.
  assert (Hb : newest_first a b) by (apply H; now left).
  apply compareFn_le in Hb. now rewrite Hb.
Qed.

Lemma insert_filter (f : ImageMetadata -> bool) a l :
  StronglySorted newest_first l ->
  filter f (insert compareFn a l)
  = if f a then insert compareFn a (filter f l) else filter f l.
Proof.
  induction 1 as [| b l Hs IH Hb]; simpl.
  - now destruct (f a).
  - destruct (compareFn a b <=? 0) eqn:E; simpl.
    + destruct (f a) eqn:Ea; [| reflexivity].
      apply compareFn_le in E. symmetry.
      change (insert compareFn a (filter f (b :: l)) = a :: filter f (b :: l)).
      apply insert_first. intros c Hc. apply filter_In in Hc as [Hc _].
      destruct Hc as [<- | Hc]; [assumption |].
      rewrite Forall_forall in Hb.
      exact (newest_first_trans _ _ _ E (Hb c Hc)).
    + rewrite IH. destruct (f b) eqn:Eb, (f a) eqn:Ea; simpl;
        rewrite ?E; reflexivity.
Qed.

Lemma sort_strongly_sorted l : StronglySorted newest_first (sort compareFn l).
Proof.
  apply Sorted_StronglySorted; [exact newest_first_trans | apply sort_sorted].
Qed.

Lemma sort_filter (f : ImageMetadata -> bool) l :
  sort compareFn (filter f l) = filter f (sort compareFn l).
Proof.
  induction l as [| a l IH]; simpl; [reflexivity |].
  rewrite insert_filter by apply sort_strongly_sorted.
  destruct (f a); simpl; now rewrite IH.
Qed.

Lemma merge_latest_without r l :
  merge_latest (without r l) = without r (merge_latest l).
Proof.
  unfold merge_latest. rewrite kept_without. apply sort_filter.
Qed.

Lemma merge_latest_fixed l : merge_latest (merge_latest l) = merge_latest l.
Proof.
  unfold merge_latest at 1.
  rewrite kept_distinct by apply merge_latest_NoDup.
  apply sort_fixpoint, sort_sorted.
Qed.

(** X2: removing the records of an identity (what a fulfilled delete
    does to the displayed list) commutes with the merge, and a merged
    list stays merged when an identity is removed from it. *)
Theorem delete_commutes_with_merge :
  forall (r : ImageMetadata) (l : list ImageMetadata),
  exists m : list ImageMetadata,
    merge l = Some m /\
    merge (without r l) = Some (without r m) /\
    merge (without r m) = Some (without r m) /\
    (forall a, In a (without r m) <-> In a m /\ id a <> id r).
Proof.
  intros r l. exists (merge_latest l).
  split; [apply merge_latest_eq |].
  split; [now rewrite merge_latest_eq, merge_latest_without |].
  split.
  - now rewrite merge_latest_eq, merge_latest_without, merge_latest_fixed.
  - intros a. unfold without. rewrite filter_In, negb_true_iff.
    split; intros [H1 H2]; (split; [assumption |]).
    + intros E. rewrite E, String.eqb_refl in H2. discriminate.
    + now apply String.eqb_neq.
Qed.

(** *** The order of arrival *)

Lemma keys_injective (l : list ImageMetadata) :
  NoDup (map createdAt l) ->
  forall a b, In a l -> In b l -> createdAt a = createdAt b -> a = b.
Proof.
  induction l as [| c l IH]; simpl; intros Hn a b Ha Hb E; [contradiction |].
  apply NoDup_cons_iff in Hn as [Hc Hn].
  destruct Ha as [<- | Ha], Hb as [<- | Hb]; auto.
  - exfalso. apply Hc. rewrite E. now apply in_map.
  - exfalso. apply Hc. rewrite <- E. now apply in_map.
Qed.

(** With distinct time stamps a record is kept exactly when it is the
    oldest of its identity. *)
Lemma merge_latest_members l a :
  NoDup (map createdAt l) ->
  (In a (merge_latest l) <->
   In a l /\ forall b, In b l -> id b = id a -> createdAt a <= createdAt b).
Proof.
  intros Hn. split; [apply merge_latest_minimal |]. intros [Ha Hmin].
  unfold merge_latest.
  apply (Permutation_in _ (Permutation_sym (sort_perm _))).
  apply kept_In. exists (id a). split; [now apply in_map |].
  assert (Hg : In a (group_of l (id a))) by now apply group_of_In.
  destruct (latest_minimal_some (group_of l (id a))) as [r Hr];
    [intros E; rewrite E in Hg; contradiction |].
  rewrite Hr. f_equal.
  apply latest_minimal_sound in Hr as [Hin Hr].
  apply group_of_In in Hin as [Hin Hid].
  apply (keys_injective l Hn); auto.
  specialize (Hr a Hg). specialize (Hmin r Hin Hid). lia.
Qed.

Lemma sorted_unique (l1 : list ImageMetadata) :
  forall l2,
    StronglySorted newest_first l1 -> StronglySorted newest_first l2 ->
    NoDup l1 -> NoDup l2 ->
    (forall a b, In a l1 -> In b l1 -> createdAt a = createdAt b -> a = b) ->
    (forall a, In a l1 <-> In a l2) ->
    l1 = l2.
Proof.
  induction l1 as [| a l1 IH]; intros l2 Hs1 Hs2 Hn1 Hn2 Hinj Hm.
  - destruct l2 as [| b l2]; [reflexivity |].
    exfalso. apply (Hm b). now left.
  - destruct l2 as [| b l2]; [exfalso; apply (Hm a); now left |].
    apply StronglySorted_inv in Hs1 as [Hs1 Ha].
    apply StronglySorted_inv in Hs2 as [Hs2 Hb].
    apply NoDup_cons_iff in Hn1 as [Ha1 Hn1].
    apply NoDup_cons_iff in Hn2 as [Hb2 Hn2].
    rewrite Forall_forall in Ha, Hb.
    assert (E : a = b).
    { assert (Hab : In a (b :: l2)) by (apply Hm; now left).
      assert (Hba : In b (a :: l1)) by (apply Hm; now left).
      destruct Hab as [-> | Hab]; [reflexivity |].
      destruct Hba as [-> | Hba]; [reflexivity |].
      apply Hinj; [now left | now right |].
      specialize (Ha b Hba). specialize (Hb a Hab).
      unfold newest_first in *. lia. }
    subst b. f_equal. apply IH; auto.
    + intros x y Hx Hy. apply Hinj; now right.
    + intros x. split; intros Hx.
      * assert (H : In x (a :: l2)) by (apply Hm; now right).
        destruct H as [<- | H]; [contradiction | assumption].
      * assert (H : In x (a :: l1)) by (apply Hm; now right).
        destruct H as [<- | H]; [contradiction | assumption].
Qed.

Lemma merge_latest_nodup l : NoDup (merge_latest l).
Proof. exact (NoDup_map_inv id _ (merge_latest_NoDup l)). Qed.

(** With equal time stamps the order of arrival shows in the result. *)
Example arrival_order_shows :
  merge [shot 7 "p" "p.png"; shot 7 "q" "q.png"]
  <> merge [shot 7 "q" "q.png"; shot 7 "p" "p.png"].
Proof. discriminate. Qed.

(** X3: when no two records of the input have the same [createdAt],
    the merge does not depend on the order of arrival: two lists with the
    same records in any order are merged to the same list. *)
Theorem merge_ignores_arrival_order :
  forall l l' : list ImageMetadata,
    NoDup (map createdAt l) -> Permutation l l' -> merge l = merge l'.
Proof.
  intros l l' Hn Hp. rewrite !merge_latest_eq. f_equal.
  assert (Hn' : NoDup (map createdAt l'))
    by (eapply Permutation_NoDup; [apply Permutation_map, Hp | exact Hn]).
  apply sorted_unique.
  - apply sort_strongly_sorted.
  - apply sort_strongly_sorted.
  - apply merge_latest_nodup.
  - apply merge_latest_nodup.
  - intros a b Ha Hb. apply (keys_injective l Hn).
    + now apply merge_latest_minimal in Ha.
    + now apply merge_latest_minimal in Hb.
  - intros a. rewrite (merge_latest_members l a Hn),
      (merge_latest_members l' a Hn').
    split; intros [Ha Hmin]; split.
    + now apply (Permutation_in _ Hp).
    + intros b Hb. apply Hmin. now apply (Permutation_in _ (Permutation_sym Hp)).
    + now apply (Permutation_in _ (Permutation_sym Hp)).
    + intros b Hb. apply Hmin. now apply (Permutation_in _ Hp).
Qed.

(** The theorem at three records arriving in two orders. *)
Lemma merge_ignores_arrival_order_witness :
  NoDup (map createdAt [b_again; a_shot; b_shot]) /\
  Permutation [b_again; a_shot; b_shot] [b_shot; b_again; a_shot] /\
  merge [b_again; a_shot; b_shot] = merge [b_shot; b_again; a_shot].
Proof.
  assert (Hn : NoDup (map createdAt [b_again; a_shot; b_shot])).
  { simpl. repeat constructor; simpl; intuition discriminate. }
  assert (Hp : Permutation [b_again; a_shot; b_shot]
                           [b_shot; b_again; a_shot]).
  { apply Permutation_sym. apply (Permutation_cons_app [b_again; a_shot] []).
    apply Permutation_refl. }
  split; [exact Hn |]. split; [exact Hp |].
  exact (merge_ignores_arrival_order _ _ Hn Hp).
Defined.

End MergeMore.

(** ** More on the menu component *)

Module MenuMore.
Import Dom ContextMenu Spec Props Examples.

(** *** The anchor of the rendered menu *)

(** X4: for a pointer inside the window the rendered menu keeps the
    pointer's [y]; its left edge is the pointer or one menu width to the
    left of it; a menu of [MENU_WIDTH] ends at or before the right edge of
    the window; its left edge is inside the window exactly when there is
    room for the menu on one side of the pointer, which is always so in a
    window at least [2 * MENU_WIDTH - 1] wide. *)
Theorem adjusted_menu_fits :
  forall (innerWidth : Z) (p : ContextMenuPosition),
    0 <= x p <= innerWidth ->
    exists q : ContextMenuPosition,
      adjustedPosition innerWidth (Some p) = Some q /\
      y q = y p /\
      (x q = x p \/ x q = x p - MENU_WIDTH) /\
      x q + MENU_WIDTH <= innerWidth /\
      (0 <= x q <-> MENU_WIDTH <= x p \/ x p + MENU_WIDTH <= innerWidth) /\
      (2 * MENU_WIDTH - 1 <= innerWidth -> 0 <= x q).
Proof.
  intros w p Hp. unfold adjustedPosition, MENU_OVERFLOW_THRESHOLD, MENU_WIDTH.
  destruct (Z.ltb_spec (w - x p) (192 * 1)) as [H | H];
    eexists; (split; [reflexivity |]); simpl; repeat split; try lia.
Qed.

(** The theorem at a pointer 100 pixels from the right edge of a window
    of 1280: the menu is flipped to the left of the pointer. *)
Lemma adjusted_menu_fits_witness :
  0 <= x (mkPos 1180 80) <= 1280 /\
  exists q : ContextMenuPosition,
    adjustedPosition 1280 (Some (mkPos 1180 80)) = Some q /\
    y q = 80 /\
    (x q = 1180 \/ x q = 1180 - MENU_WIDTH) /\
    x q + MENU_WIDTH <= 1280 /\
    (0 <= x q <-> MENU_WIDTH <= 1180 \/ 1180 + MENU_WIDTH <= 1280) /\
    (2 * MENU_WIDTH - 1 <= 1280 -> 0 <= x q).
Proof.
  assert (H : 0 <= x (mkPos 1180 80) <= 1280) by (simpl; lia).
  split; [exact H |].
  exact (adjusted_menu_fits 1280 (mkPos 1180 80) H).
Defined.

(** In a narrow window the flipped menu starts left of the window. *)
Example narrow_window_menu :
  adjustedPosition 300 (Some (mkPos 150 40)) = Some (mkPos (-42) 40).
Proof. reflexivity. Qed.

(** *** Right-clicks while the component is mounted *)

Lemma truthy_nonempty p : App.truthy (Some p) = true -> p <> EmptyString.
Proof. destruct p; simpl; intros H; [discriminate H | discriminate]. Qed.

Lemma onReposition_target pos t s r :
  image (App.contextMenu (App.onReposition pos t s)) = Some r ->
  exists p, t = Some p /\ p <> EmptyString /\
            firstWithPath p (App.images s) r.
Proof.
  unfold App.onReposition. cbn [image App.contextMenu App.setContextMenu].
  destruct t as [p |]; [| discriminate].
  destruct (App.truthy (Some p)) eqn:Et; [| discriminate].
  intros H. exists p. split; [reflexivity |].
  split; [now apply truthy_nonempty |].
  now apply RouterFacts.findByPath_first.
Qed.

(** X5: a right-click received by the top-level menu component. With
    another button nothing happens and the event is left alone. With the
    right button the event is consumed, no store call is started and
    only the menu state is written: the menu is placed at the pointer and
    is never closed, and its target, if it has one, is the first record
    of the displayed list whose locator is the non-empty
    [data-image-path] of the element the click resolves to. *)
Theorem reposition_targets_listed_record :
  forall (now : Z) (e : MouseEvent) (w : App.World),
    let r := App.handleInput now (RightClick e) w in
    let s := App.state w in
    let s' := App.state (fst r) in
    App.trace (fst r) = App.trace w /\
    Forall (fun p => p = Async.Finished) (snd r) /\
    App.images s' = App.images s /\
    App.lastCloseTime s' = App.lastCloseTime s /\
    App.lightboxOpen s' = App.lightboxOpen s /\
    App.lightboxIndex s' = App.lightboxIndex s /\
    (button e <> 2 ->
       fst r = w /\ snd (handleNativeContextMenu true e) = untouched) /\
    (button e = 2 ->
       snd (handleNativeContextMenu true e) = consumed /\
       position (App.contextMenu s') = Some (at_pointer e) /\
       forall t, image (App.contextMenu s') = Some t ->
         exists el,
           locatorSource e el /\
           getAttribute "data-image-path" el = Some (path t) /\
           path t <> EmptyString /\
           firstWithPath (path t) (App.images s) t).
Proof.
  intros now e [s tr]. cbv zeta. unfold App.handleInput, locatorSource.
  cbn [react fst snd]. unfold handleNativeContextMenu.
  destruct (Z.eqb_spec (button e) 2) as [Hb | Hb]; cbn [negb fst snd fold_left].
  - destruct (closest (ByAttr "data-image-path") (target e)) as [el |] eqn:Ec;
      [| destruct (find _ (elementsFromPoint e)) as [el |] eqn:Ef];
      cbn [fst snd fold_left App.call App.callbackTask App.callbackState
           App.start App.onState App.state App.trace app];
      (split; [reflexivity |]); (split; [repeat constructor |]);
      (repeat (split; [reflexivity |]));
      (split; [intros Hn; contradiction |]); intros _;
      (split; [reflexivity |]); (split; [reflexivity |]); intros t Ht.
    + apply onReposition_target in Ht as [p [Hp [Hne Hf]]].
      assert (Hpt : path t = p).
      { destruct Hf as [l1 [l2 [_ [H _]]]]. exact H. }
      exists el. rewrite Hpt. repeat split; auto.
    + apply onReposition_target in Ht as [p [Hp [Hne Hf]]].
      assert (Hpt : path t = p).
      { destruct Hf as [l1 [l2 [_ [H _]]]]. exact H. }
      exists el. rewrite Hpt. repeat split; auto.
    + apply onReposition_target in Ht as [p [Hp _]]. discriminate.
  - cbn [fst snd fold_left App.state App.trace].
    split; [reflexivity |]. split; [constructor |].
    do 4 (split; [reflexivity |]).
    split; [intros _; split; reflexivity | intros H; contradiction].
Qed.

(** A right-click on a thumbnail whose record has left the list moves
    the menu to the pointer as the clear menu. *)
Example reposition_on_stale_thumbnail :
  App.state (fst (App.handleInput 9000
                    (RightClick (clickOn (thumbnailImg "gone.png")))
                    (App.mkWorld open_on_b [])))
  = App.setContextMenu (mkMenu (Some (mkPos 120 80)) None) open_on_b.
Proof. reflexivity. Qed.

End MenuMore.

(** ** More on the full-view overlay *)

Module LightboxMore.
Import Dom ImageLightbox Spec Props Examples.

(** *** Previous and next *)

Lemma minus_one_mod n : 0 < n -> (-1) mod n = n - 1.
Proof.
  intros Hn. symmetry. apply (Z.mod_unique _ _ (-1)); [left; lia | lia].
Qed.

Lemma next_index n s :
  0 <= currentIndex s < n ->
  currentIndex (handleNext n s) = (currentIndex s + 1) mod n.
Proof.
  intros H. unfold handleNext. simpl.
  destruct (Z.ltb_spec (currentIndex s) (n - 1)) as [Hl | Hl].
  - now rewrite Z.mod_small by lia.
  - replace (currentIndex s + 1) with n by lia.
    now rewrite Z.mod_same by lia.
Qed.

Lemma prev_index n s :
  0 <= currentIndex s < n ->
  currentIndex (handlePrev n s) = (currentIndex s - 1) mod n.
Proof.
  intros H. unfold handlePrev. simpl.
  destruct (Z.gtb_spec (currentIndex s) 0) as [Hl | Hl].
  - now rewrite Z.mod_small by lia.
  - replace (currentIndex s - 1) with (-1) by lia.
    rewrite minus_one_mod by lia. reflexivity.
Qed.

Lemma prev_next n s :
  0 <= currentIndex s < n -> handlePrev n (handleNext n s) = s.
Proof.
  intros H. destruct s as [i m c fs]. simpl in H.
  unfold handlePrev, handleNext, setCurrentIndex. simpl.
  destruct (Z.ltb_spec i (n - 1)) as [Hl | Hl].
  - destruct (Z.gtb_spec (i + 1) 0); [| lia]. f_equal. lia.
  - simpl. f_equal. lia.
Qed.

Lemma next_prev n s :
  0 <= currentIndex s < n -> handleNext n (handlePrev n s) = s.
Proof.
  intros H. destruct s as [i m c fs]. simpl in H.
  unfold handlePrev, handleNext, setCurrentIndex. simpl.
  destruct (Z.gtb_spec i 0) as [Hl | Hl].
  - destruct (Z.ltb_spec (i - 1) (n - 1)); [| lia]. f_equal. lia.
  - destruct (Z.ltb_spec (n - 1) (n - 1)); [lia |]. f_equal. lia.
Qed.

Lemma next_in_range n s :
  0 <= currentIndex s < n -> 0 <= currentIndex (handleNext n s) < n.
Proof. intros H. rewrite next_index by assumption. apply Z.mod_pos_bound. lia. Qed.

Lemma prev_in_range n s :
  0 <= currentIndex s < n -> 0 <= currentIndex (handlePrev n s) < n.
Proof. intros H. rewrite prev_index by assumption. apply Z.mod_pos_bound. lia. Qed.

(** X6: with the current index inside the slides, next and previous
    step through the slides modulo their number, wrapping at both ends;
    each undoes the other; and neither touches the menu, the closing
    flag or the queued callbacks. *)
Theorem navigation_wraps :
  forall (slides : Z) (s : State),
    0 <= currentIndex s < slides ->
    currentIndex (handleNext slides s) = (currentIndex s + 1) mod slides /\
    currentIndex (handlePrev slides s) = (currentIndex s - 1) mod slides /\
    0 <= currentIndex (handleNext slides s) < slides /\
    0 <= currentIndex (handlePrev slides s) < slides /\
    handlePrev slides (handleNext slides s) = s /\
    handleNext slides (handlePrev slides s) = s /\
    (forall t, contextMenu (handleNext slides t) = contextMenu t /\
               isClosing (handleNext slides t) = isClosing t /\
               frames (handleNext slides t) = frames t /\
               contextMenu (handlePrev slides t) = contextMenu t /\
               isClosing (handlePrev slides t) = isClosing t /\
               frames (handlePrev slides t) = frames t).
Proof.
  intros n s H.
  split; [now apply next_index |]. split; [now apply prev_index |].
  split; [now apply next_in_range |]. split; [now apply prev_in_range |].
  split; [now apply prev_next |]. split; [now apply next_prev |].
  intros t. repeat split.
Qed.

(** The theorem at the last of three slides. *)
Lemma navigation_wraps_witness :
  0 <= currentIndex (initial 2) < 3 /\
  currentIndex (handleNext 3 (initial 2)) = 0 /\
  handlePrev 3 (handleNext 3 (initial 2)) = initial 2.
Proof.
  assert (H : 0 <= currentIndex (initial 2) < 3) by (simpl; lia).
  split; [exact H |].
  pose proof (navigation_wraps 3 (initial 2) H) as [H1 [_ [_ [_ [H5 _]]]]].
  split; [exact H1 | exact H5].
Defined.

Lemma iter_next n k s :
  0 <= currentIndex s < n ->
  0 <= currentIndex (Nat.iter k (handleNext n) s) < n /\
  currentIndex (Nat.iter k (handleNext n) s)
  = (currentIndex s + Z.of_nat k) mod n.
Proof.
  intros H. induction k as [| k [IH1 IH2]].
  - simpl. split; [assumption |]. rewrite Z.add_0_r. now rewrite Z.mod_small.
  - rewrite Nat2Z.inj_succ, !Nat.iter_succ.
    split; [now apply next_in_range |].
    rewrite next_index by assumption. rewrite IH2.
    rewrite Zplus_mod_idemp_l. f_equal. lia.
Qed.

Lemma iter_prev n k s :
  0 <= currentIndex s < n ->
  0 <= currentIndex (Nat.iter k (handlePrev n) s) < n /\
  currentIndex (Nat.iter k (handlePrev n) s)
  = (currentIndex s - Z.of_nat k) mod n.
Proof.
  intros H. induction k as [| k [IH1 IH2]].
  - simpl. split; [assumption |]. rewrite Z.sub_0_r. now rewrite Z.mod_small.
  - rewrite Nat2Z.inj_succ, !Nat.iter_succ.
    split; [now apply prev_in_range |].
    rewrite prev_index by assumption. rewrite IH2.
    rewrite Zminus_mod_idemp_l. f_equal. lia.
Qed.

Lemma iter_next_rest n k s :
  contextMenu (Nat.iter k (handleNext n) s) = contextMenu s /\
  isClosing (Nat.iter k (handleNext n) s) = isClosing s /\
  frames (Nat.iter k (handleNext n) s) = frames s.
Proof. induction k as [| k IH]; [repeat split | exact IH]. Qed.

Lemma iter_prev_rest n k s :
  contextMenu (Nat.iter k (handlePrev n) s) = contextMenu s /\
  isClosing (Nat.iter k (handlePrev n) s) = isClosing s /\
  frames (Nat.iter k (handlePrev n) s) = frames s.
Proof. induction k as [| k IH]; [repeat split | exact IH]. Qed.

Lemma state_eq (s t : State) :
  currentIndex s = currentIndex t -> contextMenu s = contextMenu t ->
  isClosing s = isClosing t -> frames s = frames t -> s = t.
Proof. destruct s, t. simpl. now intros -> -> -> ->. Qed.

(** X7: pressing next [k] times from index [i] of [slides] slides leads
    to index [(i + k) mod slides], and previous to [(i - k) mod slides];
    as many presses as there are slides lead back to the same state. *)
Theorem navigation_cycles :
  forall (slides : Z) (k : nat) (s : State),
    0 <= currentIndex s < slides ->
    currentIndex (Nat.iter k (handleNext slides) s)
    = (currentIndex s + Z.of_nat k) mod slides /\
    currentIndex (Nat.iter k (handlePrev slides) s)
    = (currentIndex s - Z.of_nat k) mod slides /\
    Nat.iter (Z.to_nat slides) (handleNext slides) s = s /\
    Nat.iter (Z.to_nat slides) (handlePrev slides) s = s.
Proof.
  intros n k s H.
  split; [now apply iter_next |]. split; [now apply iter_prev |].
  split.
  - destruct (iter_next_rest n (Z.to_nat n) s) as [H1 [H2 H3]].
    apply state_eq; try assumption.
    rewrite (proj2 (iter_next n (Z.to_nat n) s H)).
    rewrite Z2Nat.id by lia.
    rewrite <- (Z.mul_1_l n) at 1. rewrite Z.mod_add by lia.
    apply Z.mod_small, H.
  - destruct (iter_prev_rest n (Z.to_nat n) s) as [H1 [H2 H3]].
    apply state_eq; try assumption.
    rewrite (proj2 (iter_prev n (Z.to_nat n) s H)).
    rewrite Z2Nat.id by lia.
    replace (currentIndex s - n) with (currentIndex s + (-1) * n) by lia.
    rewrite Z.mod_add by lia. apply Z.mod_small, H.
Qed.

(** The theorem at five presses of next from the second of three
    slides. *)
Lemma navigation_cycles_witness :
  0 <= currentIndex (initial 1) < 3 /\
  currentIndex (Nat.iter 5 (handleNext 3) (initial 1)) = 0 /\
  Nat.iter 3 (handleNext 3) (initial 1) = initial 1.
Proof.
  assert (H : 0 <= currentIndex (initial 1) < 3) by (simpl; lia).
  split; [exact H |].
  pose proof (navigation_cycles 3 5 (initial 1) H) as [H1 [_ [H3 _]]].
  split; [exact H1 | exact H3].
Defined.

(** Outside the slides previous does not bring the index back: with two
    slides left and the index at 5 it steps to 4. *)
Example prev_beyond_the_end :
  at_index [c_shot; b_shot] (currentIndex (handlePrev 2 (initial 5))) = None.
Proof. reflexivity. Qed.

(** *** The next animation frame *)

Lemma frames_fold fs :
  forall t,
    currentIndex (fold_left runFrame fs t) = currentIndex t /\
    frames (fold_left runFrame fs t) = frames t /\
    isClosing (fold_left runFrame fs t)
    = (if existsb clearsClosing fs then false else isClosing t) /\
    contextMenu (fold_left runFrame fs t)
    = match find hasRecord (rev fs) with
      | Some f => mkMenu (Some (anchor f)) (currentImage f)
      | None => contextMenu t
      end.
Proof.
  induction fs as [| f fs IH] using rev_ind; intros t.
  - repeat split.
  - rewrite fold_left_app. cbn [fold_left].
    destruct (IH t) as [H1 [H2 [H3 H4]]].
    rewrite rev_app_distr, existsb_app. cbn [rev app find existsb].
    rewrite orb_false_r. unfold runFrame, hasRecord.
    destruct (currentImage f) as [img |] eqn:E, (clearsClosing f);
      cbn [isSome currentIndex frames isClosing contextMenu
           setContextMenu setIsClosing];
      rewrite ?H1, ?H2, ?H3, ?H4, ?E, ?orb_true_r, ?orb_false_r;
      repeat split; now destruct (existsb clearsClosing fs).
Qed.

Lemma animationFrame_idle s : frames s = [] -> animationFrame s = s.
Proof. destruct s as [i m c fs]. simpl. now intros ->. Qed.

(** X8: the next animation frame runs every queued callback and leaves
    none queued, so a second frame changes nothing; the index stays; the
    closing flag is cleared if a callback queued by [showContextMenu] ran;
    and the menu is the one set by the last queued callback that captured
    a record, or the menu as it was when none did. *)
Theorem animation_frame_settles :
  forall s : State,
    let s' := animationFrame s in
    frames s' = [] /\
    animationFrame s' = s' /\
    currentIndex s' = currentIndex s /\
    isClosing s'
    = (if existsb clearsClosing (frames s) then false else isClosing s) /\
    contextMenu s'
    = match find hasRecord (rev (frames s)) with
      | Some f => mkMenu (Some (anchor f)) (currentImage f)
      | None => contextMenu s
      end.
Proof.
  intros s s'. subst s'. unfold animationFrame.
  destruct (frames_fold (frames s)
              (mkState (currentIndex s) (contextMenu s) (isClosing s) []))
    as [H1 [H2 [H3 H4]]].
  split; [exact H2 |].
  split; [now apply animationFrame_idle |].
  split; [exact H1 |]. split; [exact H3 | exact H4].
Qed.

(** *** Runs of an open overlay *)

Lemma at_index_In images i r : at_index images i = Some r -> In r images.
Proof.
  unfold at_index. destruct (i <? 0); [discriminate |]. apply nth_error_In.
Qed.

Lemma at_index_in_range images i :
  0 <= i < Z.of_nat (List.length images) ->
  exists r, at_index images i = Some r.
Proof.
  intros H. unfold at_index. destruct (Z.ltb_spec i 0); [lia |].
  destruct (nth_error images (Z.to_nat i)) as [r |] eqn:E; [now exists r |].
  apply nth_error_None in E. lia.
Qed.

Lemma runFrame_within images t f :
  overlayWithin images t ->
  (forall r, currentImage f = Some r -> In r images) ->
  overlayWithin images (runFrame t f).
Proof.
  intros [Hi [Hm Hf]] Hr. unfold runFrame, overlayWithin.
  destruct (currentImage f) as [img |], (clearsClosing f); simpl;
    repeat split; try apply Hi; try assumption;
    intros r [= <-]; now apply Hr.
Qed.

Lemma frames_within images fs :
  forall t,
    overlayWithin images t ->
    Forall (fun f => forall r, currentImage f = Some r -> In r images) fs ->
    overlayWithin images (fold_left runFrame fs t).
Proof.
  induction fs as [| f fs IH]; intros t Ht Hfs; simpl; [assumption |].
  apply Forall_cons_iff in Hfs as [Hf Hfs].
  apply IH; [now apply runFrame_within | assumption].
Qed.

Lemma step_within images i s :
  overlayWithin images s -> overlayWithin images (step images i s).
Proof.
  intros [Hi [Hm Hf]].
  destruct i as [e | px py | | | |]; cbn [step].
  - unfold handleContextMenu.
    destruct (isClosing s); cbn [fst]; [now repeat split |].
    destruct (isSome (position (contextMenu s))); cbn [fst].
    + repeat split; try apply Hi; simpl; [discriminate |].
      apply Forall_app. split; [assumption |].
      constructor; [| constructor]. simpl. intros r. apply at_index_In.
    + destruct (at_index images (currentIndex s)) as [img |] eqn:E; cbn [fst];
        [| now repeat split].
      repeat split; try apply Hi; try assumption.
      simpl. intros r [= <-]. now apply at_index_In in E.
  - unfold showContextMenu. repeat split; try apply Hi; simpl; [discriminate |].
    apply Forall_app. split; [assumption |].
    constructor; [| constructor]. simpl. intros r. apply at_index_In.
  - unfold animationFrame. apply frames_within; [| assumption].
    repeat split; try apply Hi; try assumption. constructor.
  - repeat split; try assumption; now apply prev_in_range.
  - repeat split; try assumption; now apply next_in_range.
  - repeat split; try apply Hi; try assumption. simpl. discriminate.
Qed.

Lemma overlayRun_within images inputs :
  forall s, overlayWithin images s ->
            overlayWithin images (overlayRun images inputs s).
Proof.
  unfold overlayRun. induction inputs as [| i inputs IH]; intros s H; simpl;
    [assumption |].
  apply IH. now apply step_within.
Qed.

(** X10: an overlay opened on a record of the list, while the list
    stays the same: whatever inputs it receives, the current index stays
    inside the list, so there is always a current record; the record of
    its menu and the records captured by queued callbacks are records of
    the list; and a right-click that finds the menu closed and the closing
    flag down opens the item menu of the current record. *)
Theorem overlay_stays_on_a_record :
  forall (images : list ImageMetadata) (slideIndex : Z)
         (inputs : list Input),
    0 <= slideIndex < Z.of_nat (List.length images) ->
    let s := overlayRun images inputs (initial slideIndex) in
    overlayWithin images s /\
    exists r,
      at_index images (currentIndex s) = Some r /\ In r images /\
      forall e,
        isClosing s = false -> position (contextMenu s) = None ->
        handleContextMenu images e s
        = (setContextMenu (mkMenu (Some (at_pointer e)) (Some r)) s, true).
Proof.
  intros images i inputs Hi s.
  assert (Hw : overlayWithin images s).
  { apply overlayRun_within. repeat split; try apply Hi; simpl;
      [discriminate | constructor]. }
  split; [exact Hw |].
  destruct (at_index_in_range images (currentIndex s) (proj1 Hw)) as [r Hr].
  exists r. split; [exact Hr |]. split; [now apply at_index_In in Hr |].
  intros e Hc Hp. unfold handleContextMenu. now rewrite Hc, Hp, Hr.
Qed.

(** The theorem at an overlay opened on the second of three records that
    is stepped forward twice, with a right-click in between. *)
Lemma overlay_stays_on_a_record_witness :
  0 <= 1 < Z.of_nat (List.length gallery) /\
  overlayWithin gallery
    (overlayRun gallery [Next; ContextMenuEvent second_click; Next]
       (initial 1)).
Proof.
  assert (H : 0 <= 1 < Z.of_nat (List.length gallery)) by (simpl; lia).
  split; [exact H |].
  exact (proj1 (overlay_stays_on_a_record gallery 1
                  [Next; ContextMenuEvent second_click; Next] H)).
Defined.

End LightboxMore.

(** ** More on App and its handlers *)

Module AppMore.
Import Dom Api Async App Spec Aux Props Examples.

(** *** The list after a copy *)

Lemma merge_latest_sorted l : Sorted newest_first (merge_latest l).
Proof. apply MergeFacts.sort_sorted. Qed.

(** X12: what the copy handler leaves behind. It writes no part of
    App's state but the list. When the reset or the copy was rejected the
    list is as before. When both went through the list is the merge of
    what the store listed, or of the list as it was when the refresh was
    rejected: no two records of one identity, newest first. *)
Theorem copy_leaves_merged_list :
  forall (env : Environment) (image : ImageMetadata) (w : World),
    let w' := run env (handleCopy image) w in
    frame (state w') = frame (state w) /\
    (actionFails env (ContextMenu.onCopy image) = true ->
       images (state w') = images (state w)) /\
    (actionFails env (ContextMenu.onCopy image) = false ->
       images (state w')
       = merge_latest
           match perform env getImages with
           | Fulfilled data => data
           | Rejected _ => images (state w)
           end /\
       NoDup (map id (images (state w'))) /\
       Sorted newest_first (images (state w'))).
Proof.
  intros env image w. cbv zeta.
  split; [apply WindowFacts.run_frame |].
  assert (H : images (state (run env (handleCopy image) w))
              = if actionFails env (ContextMenu.onCopy image)
                then images (state w)
                else merge_latest
                       match perform env getImages with
                       | Fulfilled data => data
                       | Rejected _ => images (state w)
                       end).
  { destruct w as [s tr]. unfold handleCopy, loadImages, actionFails.
    cbn -[perform Merge.merge].
    destruct (perform env resetClipboardHash) as [[] | r];
      cbn -[perform Merge.merge]; [| reflexivity].
    destruct (perform env (copyFileToClipboard (path image))) as [[] | r];
      cbn -[perform Merge.merge]; [| reflexivity].
    destruct (perform env getImages) as [data | r];
      cbn -[perform Merge.merge]; rewrite MergeFacts.merge_latest_eq;
      reflexivity. }
  rewrite H. split; intros ->; [reflexivity |].
  split; [reflexivity |].
  split; [apply MergeFacts.merge_latest_NoDup | apply merge_latest_sorted].
Qed.

Example copy_collapses_duplicates :
  images (state (run (store [b_again; c_shot; b_shot; a_shot])
                   (handleCopy b_shot) (mkWorld (idle gallery) [])))
  = gallery.
Proof. reflexivity. Qed.

(** *** Invariants of the handlers *)

Section Runs.
Variable env : Environment.
Variable Q : list ImageMetadata -> Prop.
Variable ok : Event -> bool.
Variable tr0 : list Event.

Local Abbreviation confined := (Props.confined env Q ok).
Local Abbreviation confinedPending := (Props.confinedPending env Q ok).
Local Abbreviation within := (Props.within Q ok tr0).

Lemma within_emit ev w : ok ev = true -> within w -> within (emit ev w).
Proof.
  intros Hev [HQ [added [Ht Hok]]]. split; [exact HQ |].
  exists (added ++ [ev]). simpl. rewrite Ht, app_assoc. split; [reflexivity |].
  rewrite forallb_app, Hok. simpl. now rewrite Hev.
Qed.

Lemma within_onState f w :
  (forall s, images (f s) = images s) -> within w -> within (onState f w).
Proof.
  intros Hf [HQ H]. split; [| exact H]. simpl. now rewrite Hf.
Qed.

Lemma run_confined t :
  confined t -> forall w, within w -> within (run env t w).
Proof.
  induction 1 as [a | c k H1 H2 Hk IH | ms k H1 H2 Hk IH
                  | u k Hu Hk IH | msg k H1 Hk IH | msg k H1 Hk IH];
    intros w Hw; cbn [run].
  - exact Hw.
  - apply IH. now repeat apply within_emit.
  - apply IH. now repeat apply within_emit.
  - apply IH. cbn [apply].
    destruct (Hu _ (proj1 Hw)) as [l' [-> [HQ Hev]]].
    apply within_emit; [exact Hev |].
    split; [exact HQ | exact (proj2 Hw)].
  - apply IH. cbn [apply]. now apply within_emit.
  - apply IH. cbn [apply]. now apply within_emit.
Qed.

Lemma start_confined t :
  confined t ->
  forall w, within w ->
            within (fst (start t w)) /\ confinedPending (snd (start t w)).
Proof.
  induction 1 as [a | c k H1 H2 Hk IH | ms k H1 H2 Hk IH
                  | u k Hu Hk IH | msg k H1 Hk IH | msg k H1 Hk IH];
    intros w Hw; cbn [start fst snd].
  - split; [exact Hw | constructor].
  - split; [now apply within_emit | now constructor].
  - split; [now apply within_emit | now constructor].
  - apply IH. cbn [apply].
    destruct (Hu _ (proj1 Hw)) as [l' [-> [HQ Hev]]].
    apply within_emit; [exact Hev |].
    split; [exact HQ | exact (proj2 Hw)].
  - apply IH. cbn [apply]. now apply within_emit.
  - apply IH. cbn [apply]. now apply within_emit.
Qed.

Lemma resume_confined p w :
  confinedPending p -> within w -> within (resume env p w).
Proof.
  intros Hp Hw. destruct Hp as [| c k H1 Hk | ms k H1 Hk]; cbn [resume].
  - exact Hw.
  - apply run_confined; [exact Hk | now apply within_emit].
  - apply run_confined; [exact Hk | now apply within_emit].
Qed.

Hypothesis load_confined : confined loadImages.
Hypothesis callbacks_confined : forall c, confined (callbackTask c).

Lemma callbackState_images now c s :
  images (callbackState now c s) = images s.
Proof. now destruct c. Qed.

Lemma router_images now e s :
  images (fst (handleNativeContextMenu now e s)) = images s.
Proof.
  unfold handleNativeContextMenu.
  destruct (_ <? 300); [reflexivity |].
  destruct (isSome (position (contextMenu s))); [reflexivity |].
  destruct (recordUnder _ _ _); [reflexivity |].
  destruct (recordUnder _ _ _); [reflexivity |].
  now destruct (_ && _).
Qed.

Lemma calls_confined now cs :
  forall wp,
    within (fst wp) -> Forall confinedPending (snd wp) ->
    within (fst (fold_left (call now) cs wp)) /\
    Forall confinedPending (snd (fold_left (call now) cs wp)).
Proof.
  induction cs as [| c cs IH]; intros [w ps] Hw Hps; cbn [fold_left];
    [now split |].
  apply IH.
  - unfold call. cbn [fst snd].
    destruct (start (callbackTask c) (onState (callbackState now c) w))
      as [w1 p] eqn:E. cbn [fst].
    change w1 with (fst (w1, p)). rewrite <- E.
    apply start_confined; [apply callbacks_confined |].
    apply within_onState; [apply callbackState_images | exact Hw].
  - unfold call. cbn [fst snd].
    destruct (start (callbackTask c) (onState (callbackState now c) w))
      as [w1 p] eqn:E. cbn [snd].
    apply Forall_app. split; [exact Hps |]. constructor; [| constructor].
    change p with (snd (w1, p)). rewrite <- E.
    apply start_confined; [apply callbacks_confined |].
    apply within_onState; [apply callbackState_images | exact Hw].
Qed.

Lemma settleAll_confined ps :
  forall w, Forall confinedPending ps -> within w ->
            within (settleAll env ps w).
Proof.
  unfold settleAll. induction ps as [| p ps IH]; intros w Hps Hw;
    cbn [fold_left]; [exact Hw |].
  apply Forall_cons_iff in Hps as [Hp Hps].
  apply IH; [exact Hps | now apply resume_confined].
Qed.

Lemma step_confined now a w : within w -> within (step now env a w).
Proof.
  intros Hw. destruct a as [e | i | index |  |]; cbn [step].
  - destruct (lightboxOpen (state w)); [exact Hw |].
    apply within_onState; [intros s; apply router_images | exact Hw].
  - destruct (lightboxOpen (state w)); [exact Hw |].
    unfold menuInput, handleInput.
    destruct (calls_confined now (ContextMenu.react true i) (w, []))
      as [H1 H2]; [exact Hw | constructor |].
    destruct (fold_left (call now) (ContextMenu.react true i) (w, []))
      as [w1 ps]. now apply settleAll_confined.
  - apply within_onState; [reflexivity | exact Hw].
  - apply run_confined; [exact load_confined |].
    apply within_onState; [reflexivity | exact Hw].
  - destruct (lightboxOpen (state w)); [exact Hw |].
    now apply run_confined.
Qed.

Lemma appRun_confined steps :
  forall w, within w -> within (appRun env steps w).
Proof.
  unfold appRun. induction steps as [| [now a] steps IH]; intros w Hw;
    cbn [fold_left]; [exact Hw |].
  apply IH. now apply step_confined.
Qed.

End Runs.

Lemma within_start Q ok w :
  Q (images (state w)) -> within Q ok (trace w) w.
Proof.
  intros HQ. split; [exact HQ |]. exists []. now rewrite app_nil_r.
Qed.

(** Every handler, whatever the store answers: nothing escapes, and the
    records of the list come from a given list [L] that contains what the
    store lists. *)
Section AnyStore.
Variable env : Environment.
Variable L : list ImageMetadata.
Hypothesis listed_L : incl (listed env) L.

Local Abbreviation Q := (drawnFrom L).
Local Abbreviation ok := notFatal.

Lemma sourced_data data :
  perform env getImages = Fulfilled data ->
  forall l, Q l ->
    exists l', (fun _ : list ImageMetadata => Some data) l = Some l' /\
               Q l' /\ ok (ImagesSet l') = true.
Proof.
  intros E l _. exists data. split; [reflexivity |]. split; [| reflexivity].
  unfold Q. unfold listed in listed_L. now rewrite E in listed_L.
Qed.

Lemma sourced_merge :
  forall l, Q l ->
    exists l', Merge.merge l = Some l' /\ Q l' /\ ok (ImagesSet l') = true.
Proof.
  intros l Hl. exists (merge_latest l).
  split; [apply MergeFacts.merge_latest_eq |]. split; [| reflexivity].
  intros a Ha. apply Hl. now apply MergeFacts.merge_latest_minimal in Ha.
Qed.

Lemma any_load : confined env Q ok loadImages.
Proof.
  unfold loadImages. cbn -[perform]. settle env getImages.
  - apply confined_set; [now apply sourced_data | constructor].
  - apply confined_error; [reflexivity | constructor].
Qed.

Lemma any_callback c : confined env Q ok (callbackTask c).
Proof.
  destruct c as [| image | image | | p t]; cbn [callbackTask].
  - apply confined_return.
  - unfold handleCopy, loadImages. cbn -[perform Merge.merge].
    settle env resetClipboardHash;
      [| apply confined_error; [reflexivity | constructor]].
    settle env (copyFileToClipboard (path image));
      [| apply confined_error; [reflexivity | constructor]].
    apply confined_log; [reflexivity |].
    apply confined_sleep; [reflexivity | reflexivity |].
    settle env getImages.
    + apply confined_set; [now apply sourced_data |].
      apply confined_set; [apply sourced_merge | constructor].
    + apply confined_error; [reflexivity |].
      apply confined_set; [apply sourced_merge | constructor].
  - unfold handleDelete. cbn -[perform].
    settle env (deleteImage (id image));
      [| apply confined_error; [reflexivity | constructor]].
    apply confined_set; [| constructor].
    intros l Hl. eexists. split; [reflexivity |]. split; [| reflexivity].
    intros a Ha. apply Hl. now apply filter_In in Ha.
  - unfold handleClearAll. cbn -[perform].
    settle env clearAllImages;
      [| apply confined_error; [reflexivity | constructor]].
    apply confined_set; [| constructor].
    intros l Hl. exists []. split; [reflexivity |]. split; [| reflexivity].
    intros a [].
  - apply confined_return.
Qed.

Lemma any_run steps w :
  incl (images (state w)) L ->
  within Q ok (trace w) (appRun env steps w).
Proof.
  intros Hw. apply appRun_confined;
    [apply any_load | apply any_callback | now apply within_start].
Qed.

End AnyStore.

Lemma no_fatal added :
  forallb (fun ev => negb (fatal ev)) added = true ->
  existsb fatal added = false.
Proof.
  induction added as [| ev added IH]; simpl; [reflexivity |].
  destruct (fatal ev); simpl; [discriminate | exact IH].
Qed.

(** X13: whatever App goes through (right-clicks, inputs of its menu,
    clicks on thumbnails, the overlay closing, clipboard updates) and
    however the store answers each call, no exception escapes a handler:
    the trace grows by events none of which is an uncaught exception. *)
Theorem no_exception_escapes :
  forall (env : Environment) (steps : list (Z * Action)) (w : World),
  exists added : list Event,
    trace (appRun env steps w) = trace w ++ added /\
    existsb fatal added = false.
Proof.
  intros env steps w.
  destruct (any_run env (images (state w) ++ listed env)
              ltac:(apply incl_appr, incl_refl) steps w
              ltac:(apply incl_appl, incl_refl))
    as [_ [added [Ht Hok]]].
  exists added. split; [exact Ht | now apply no_fatal].
Qed.

(** X14: every record displayed after any run of App was in the list
    at the start or is listed by the store: no handler makes up a
    record. *)
Theorem displayed_records_are_sourced :
  forall (env : Environment) (steps : list (Z * Action)) (w : World)
         (r : ImageMetadata),
    In r (images (state (appRun env steps w))) ->
    In r (images (state w)) \/ In r (listed env).
Proof.
  intros env steps w r Hr.
  destruct (any_run env (images (state w) ++ listed env)
              ltac:(apply incl_appr, incl_refl) steps w
              ltac:(apply incl_appl, incl_refl))
    as [HQ _].
  apply in_app_or. now apply HQ.
Qed.

(** The theorem at a gallery of three, a rejected delete and a clipboard
    update against a store that lists a fourth record. *)
Lemma displayed_records_are_sourced_witness :
  let steps := [(7000, MenuInput (ContextMenu.ItemClick
                                    (ContextMenu.deleteItem a_shot)));
                (8000, ClipboardUpdate)] in
  let env := store [b_again; c_shot] in
  In b_again (images (state (appRun env steps (mkWorld (idle gallery) [])))) /\
  (In b_again gallery \/ In b_again (listed env)).
Proof.
  assert (H : In b_again
                (images (state (appRun (store [b_again; c_shot])
                   [(7000, MenuInput (ContextMenu.ItemClick
                                        (ContextMenu.deleteItem a_shot)));
                    (8000, ClipboardUpdate)]
                   (mkWorld (idle gallery) []))))) by (left; reflexivity).
  split; [exact H |].
  exact (displayed_records_are_sourced _ _ _ _ H).
Defined.

(** *** Without the Tauri runtime *)

Section Browser.
Variable env : Environment.
Hypothesis no_runtime : isTauri env = false.
Variable L : list ImageMetadata.

Local Abbreviation Q := (drawnFrom L).

Lemma perform_degraded c : perform env c = Fulfilled (degraded c).
Proof. unfold perform. now rewrite no_runtime. Qed.

Lemma browser_merge :
  forall l, Q l ->
    exists l', Merge.merge l = Some l' /\ Q l' /\ quiet (ImagesSet l') = true.
Proof.
  intros l Hl. exists (merge_latest l).
  split; [apply MergeFacts.merge_latest_eq |]. split; [| reflexivity].
  intros a Ha. apply Hl. now apply MergeFacts.merge_latest_minimal in Ha.
Qed.

Lemma browser_empty :
  forall l, Q l ->
    exists l', (fun _ : list ImageMetadata => Some (@nil ImageMetadata)) l
               = Some l' /\ Q l' /\ quiet (ImagesSet l') = true.
Proof.
  intros l _. exists []. split; [reflexivity |]. split; [| reflexivity].
  intros a [].
Qed.

Lemma browser_load : confined env Q quiet loadImages.
Proof.
  unfold loadImages. cbn -[perform]. degrade perform_degraded getImages.
  apply confined_set; [apply browser_empty | constructor].
Qed.

Lemma browser_callback c : confined env Q quiet (callbackTask c).
Proof.
  destruct c as [| image | image | | p t]; cbn [callbackTask].
  - apply confined_return.
  - unfold handleCopy, loadImages. cbn -[perform Merge.merge].
    degrade perform_degraded resetClipboardHash.
    degrade perform_degraded (copyFileToClipboard (path image)).
    apply confined_log; [reflexivity |].
    apply confined_sleep; [reflexivity | reflexivity |].
    degrade perform_degraded getImages.
    apply confined_set; [apply browser_empty |].
    apply confined_set; [apply browser_merge | constructor].
  - unfold handleDelete. cbn -[perform].
    degrade perform_degraded (deleteImage (id image)).
    apply confined_set; [| constructor].
    intros l Hl. eexists. split; [reflexivity |]. split; [| reflexivity].
    intros a Ha. apply Hl. now apply filter_In in Ha.
  - unfold handleClearAll. cbn -[perform].
    degrade perform_degraded clearAllImages.
    apply confined_set; [apply browser_empty | constructor].
  - apply confined_return.
Qed.

End Browser.

(** X15: without the Tauri runtime no call reaches the store, so
    through any run of App no call is rejected, no failure is logged and
    no exception escapes; the list only loses records, and a gallery that
    is empty stays empty. *)
Theorem without_runtime_nothing_fails :
  forall (env : Environment) (steps : list (Z * Action)) (w : World),
    isTauri env = false ->
    let w' := appRun env steps w in
    incl (images (state w')) (images (state w)) /\
    (images (state w) = [] -> images (state w') = []) /\
    exists added : list Event,
      trace w' = trace w ++ added /\ forallb quiet added = true.
Proof.
  intros env steps w Hd. cbv zeta.
  assert (H : within (drawnFrom (images (state w))) quiet (trace w)
                (appRun env steps w)).
  { apply appRun_confined;
      [now apply browser_load | intros c; now apply browser_callback |].
    apply within_start, incl_refl. }
  destruct H as [HQ Hev]. split; [exact HQ |]. split; [| exact Hev].
  intros E. rewrite E in HQ.
  destruct (images (state (appRun env steps w))) as [| a l]; [reflexivity |].
  destruct (HQ a (or_introl eq_refl)).
Qed.

(** The theorem in a browser, at a gallery that was filled before: a
    delete removes the record from the list, a copy empties the list. *)
Lemma without_runtime_nothing_fails_witness :
  isTauri browser = false /\
  let w := mkWorld (idle gallery) [] in
  let w' := appRun browser
              [(7000, MenuInput (ContextMenu.ItemClick
                                   (ContextMenu.deleteItem b_shot)))] w in
  incl (images (state w')) (images (state w)) /\
  images (state w') = [c_shot; a_shot].
Proof.
  split; [reflexivity |].
  split; [| reflexivity].
  exact (proj1 (without_runtime_nothing_fails browser
                  [(7000, MenuInput (ContextMenu.ItemClick
                                       (ContextMenu.deleteItem b_shot)))]
                  (mkWorld (idle gallery) []) eq_refl)).
Defined.

End AppMore.

(** ** The functions of services/api.ts *)

Module ServicesMore.
Import Api Procs Services Props.

Lemma interfere_checks o m : checks (interfere o m) = checks m.
Proof. now destruct o. Qed.

Lemma interfere_invoked o m : invoked (interfere o m) = invoked m.
Proof. now destruct o. Qed.

Lemma interfere_listened o m : listened (interfere o m) = listened m.
Proof. now destruct o. Qed.

(** A function of the module that sends a command, run with other code
    acting while it waits. *)
Lemma run_decided env c others m :
  let r := run env (api c) others m in
  checks (fst r)
  = (checks m + if isSome (isTauriCache m) then 0 else 1)%nat /\
  invoked (fst r) = invoked m ++ (if decision env m then [c] else []) /\
  listened (fst r) = listened m /\
  snd r = (if decision env m then through c (invoke env c) else outside c).
Proof.
  destruct m as [[[|] |] n inv lis]; unfold decision; cbn [isTauriCache];
    [| | destruct (checkIsTauri env) eqn:Eb];
    destruct c; cbn -[interfere]; rewrite ?Eb; cbn -[interfere];
    try (destruct (invoke env _)); cbn -[interfere];
    rewrite ?interfere_checks, ?interfere_invoked, ?interfere_listened;
    cbn -[interfere];
    rewrite ?app_nil_r, ?Nat.add_0_r, ?Nat.add_1_r; repeat split.
Qed.

(** The same function run alone. *)
Lemma run_alone env c m :
  fst (run env (api c) [] m)
  = mkState (Some (decision env m))
      (checks m + if isSome (isTauriCache m) then 0 else 1)
      (invoked m ++ if decision env m then [c] else [])
      (listened m).
Proof.
  destruct m as [[[|] |] n inv lis]; unfold decision; cbn [isTauriCache];
    [| | destruct (checkIsTauri env) eqn:Eb];
    destruct c; cbn; rewrite ?Eb; cbn;
    try (destruct (invoke env _)); cbn;
    rewrite ?app_nil_r, ?Nat.add_0_r, ?Nat.add_1_r; reflexivity.
Qed.

Lemma listen_alone env others m :
  fst (run env listenClipboardUpdate others m)
  = interfere (if checkIsTauri env then others else [])
      (mkState (isTauriCache m) (S (checks m)) (invoked m)
         (listened m ++ if checkIsTauri env then ["clipboard-update"%string]
                        else [])).
Proof.
  unfold listenClipboardUpdate. cbn -[interfere].
  destruct (checkIsTauri env); cbn -[interfere].
  - now destruct (listen env "clipboard-update").
  - now rewrite app_nil_r.
Qed.

(** X16: each of the eight functions of the module that send a
    command, whatever other code does to the module variable while the
    function waits. It asks [checkIsTauri] once if the module variable is
    [null] when it is called and not at all otherwise, and goes by the
    cached answer or else by the answer it gets. On [false] nothing is
    sent: [getImages] resolves with the empty list, save and read reject
    with 'Not in Tauri environment', the others resolve. On [true]
    its command is sent once and the function settles as [invoke] does,
    the bytes read converted to a [Uint8Array]. Run alone, it leaves the
    answer it went by in the module variable. *)
Theorem api_call_decision :
  forall (env : Environment) (c : Command) (others : list Interference)
         (m : State),
    let r := run env (api c) others m in
    checks (fst r)
    = (checks m + if isSome (isTauriCache m) then 0 else 1)%nat /\
    invoked (fst r) = invoked m ++ (if decision env m then [c] else []) /\
    listened (fst r) = listened m /\
    snd r = (if decision env m then through c (invoke env c)
             else outside c) /\
    isTauriCache (fst (run env (api c) [] m)) = Some (decision env m).
Proof.
  intros env c others m. cbv zeta.
  destruct (run_decided env c others m) as [H1 [H2 [H3 H4]]].
  repeat (split; [assumption |]). now rewrite run_alone.
Qed.

Example read_outside_tauri :
  snd (run (backend false []) (readImageFile "a.png") [] initial)
  = Rejected "Not in Tauri environment".
Proof. reflexivity. Qed.

Example read_wraps_bytes :
  snd (run (backend true []) (readImageFile "a.png") [] initial)
  = Fulfilled [137; 80; 78; 71; 44].
Proof. reflexivity. Qed.

(** Another call writing [false] while this one waits does not change
    what this one goes by. *)
Example check_survives_interference :
  run (backend true gallery_of_one) getImages
    [fun _ => Some false; fun _ => Some false; fun _ => None] initial
  = (mkState None 1 [get_images] [], Fulfilled gallery_of_one).
Proof. reflexivity. Qed.

(** *** Calls made one after the other *)

Lemma session_from steps :
  forall m,
    let answer := match isTauriCache m with
                  | Some b => Some b
                  | None => firstAnswer steps
                  end in
    session steps m
    = mkState answer
        (checks m
         + (if isSome (isTauriCache m) then 0
            else if isSome (firstAnswer steps) then 1 else 0)
         + List.length (listenAnswers steps))
        (invoked m ++ match answer with
                      | Some true => commands steps
                      | _ => []
                      end)
        (listened m
         ++ map (fun _ => "clipboard-update"%string)
              (filter (fun b => b) (listenAnswers steps))).
Proof.
  unfold session.
  induction steps as [| [env [c |]] steps IH]; intros m; cbn [fold_left].
  - destruct m as [[b |] n inv lis]; cbn;
      rewrite ?app_nil_r, ?Nat.add_0_r; try reflexivity.
    now destruct b; rewrite ?app_nil_r.
  - unfold perform at 2. cbn [fst snd]. rewrite IH, run_alone.
    cbn [isTauriCache checks invoked listened isSome firstAnswer commands
         listenAnswers]. unfold decision.
    destruct (isTauriCache m) as [[|] |]; cbn [isSome];
      [| | destruct (checkIsTauri env)];
      rewrite <- ?app_assoc, ?Nat.add_0_r; cbn [app]; reflexivity.
  - unfold perform at 2. cbn [fst snd]. rewrite IH, listen_alone.
    cbn [interfere]. 
    replace (interfere (if checkIsTauri env then [] else [])
               (mkState (isTauriCache m) (S (checks m)) (invoked m)
                  (listened m ++ (if checkIsTauri env
                                  then ["clipboard-update"%string] else []))))
      with (mkState (isTauriCache m) (S (checks m)) (invoked m)
                  (listened m ++ (if checkIsTauri env
                                  then ["clipboard-update"%string] else [])))
      by (now destruct (checkIsTauri env)).
    cbn [isTauriCache checks invoked listened isSome firstAnswer commands
         listenAnswers List.length].
    f_equal.
    + lia.
    + destruct (checkIsTauri env); cbn [filter map];
        rewrite <- ?app_assoc; reflexivity.
Qed.

(** X17: calls of the module's functions made one after the other
    from a fresh module, the collaborators possibly answering differently
    from call to call. The module variable ends up holding the answer
    given to the first function that sends a command; [checkIsTauri] is
    asked once for all those functions together and once by every call of
    [listenClipboardUpdate], which neither reads nor writes the module
    variable; commands are sent, all of them and in the order of the
    calls, exactly when that first answer was [true], whatever
    [checkIsTauri] would have answered later; and [listen] is called for
    every [listenClipboardUpdate] whose own check answered [true]. *)
Theorem first_answer_decides :
  forall steps : list (Environment * Op),
    let m := session steps initial in
    isTauriCache m = firstAnswer steps /\
    checks m
    = ((if isSome (firstAnswer steps) then 1 else 0)
       + List.length (listenAnswers steps))%nat /\
    invoked m = (match firstAnswer steps with
                 | Some true => commands steps
                 | _ => []
                 end) /\
    listened m = map (fun _ => "clipboard-update"%string)
                   (filter (fun b => b) (listenAnswers steps)).
Proof.
  intros steps. cbv zeta. rewrite session_from. cbn. repeat split.
Qed.

(** The runtime appearing after the first call changes nothing for the
    functions that send a command, and the listener is registered all the
    same. *)
Example late_runtime :
  session [(backend false [], Call get_images);
           (backend true [], Call (delete_image "a"));
           (backend true [], ListenClipboardUpdate)] initial
  = mkState (Some false) 2 [] ["clipboard-update"%string].
Proof. reflexivity. Qed.

(** *** The module as App sees it *)

(** X18: the store the model of App talks to is this module. For
    each of the five functions App calls, called with the module variable
    [null] or set and whatever is done to it meanwhile, the function
    settles as [Api.perform] says in the environment that has the
    module's answer for [isTauri] and the backend's [invoke]. *)
Theorem app_sees_the_module :
  forall (env : Environment) (c : Api.Call) (others : list Interference)
         (m : State),
    asResult c (snd (run env (api (command c)) others m))
    = Api.perform (appView env (decision env m)) c.
Proof.
  intros env c others m.
  rewrite (proj2 (proj2 (proj2 (run_decided env (command c) others m)))).
  unfold Api.perform, appView. cbn [Api.isTauri Api.invoke].
  destruct (decision env m); destruct c; reflexivity.
Qed.

End ServicesMore.

(** ** The pictures: cards and slides *)

Module CardMore.
Import Api Props.
Import ImageCard.

(** *** Lists of runs *)

Lemma nth_last (old : list Run) r :
  nth_error (old ++ [r]) (List.length old) = Some r.
Proof. rewrite nth_error_app2 by lia. now rewrite Nat.sub_diag. Qed.

Lemma current_last c old r :
  runs c = old ++ [r] -> current c = List.length old.
Proof.
  intros H. unfold current. rewrite H, length_app. simpl. lia.
Qed.

Lemma setRun_last (old : list Run) r r' :
  setRun (List.length old) r' (old ++ [r]) = old ++ [r'].
Proof.
  unfold setRun. rewrite firstn_app, Nat.sub_diag, firstn_all.
  cbn [firstn]. rewrite app_nil_r.
  rewrite skipn_all2 by (rewrite length_app; simpl; lia). reflexivity.
Qed.

Lemma setRun_old (old : list Run) r x i :
  (i < List.length old)%nat ->
  setRun i x (old ++ [r]) = setRun i x old ++ [r].
Proof.
  intros Hi. unfold setRun.
  rewrite firstn_app, skipn_app.
  replace (i - List.length old)%nat with 0%nat by lia.
  replace (S i - List.length old)%nat with 0%nat by lia.
  cbn [firstn skipn]. rewrite app_nil_r, <- app_assoc. reflexivity.
Qed.

Lemma setRun_Forall (P : Run -> Prop) l i x :
  Forall P l -> P x -> (i < List.length l)%nat -> Forall P (setRun i x l).
Proof.
  intros Hl Hx Hi. unfold setRun. apply Forall_app. split.
  - rewrite <- (firstn_skipn i l) in Hl. now apply Forall_app in Hl.
  - constructor; [assumption |].
    rewrite <- (firstn_skipn (S i) l) in Hl. now apply Forall_app in Hl.
Qed.

Lemma nth_old (old : list Run) r i x :
  nth_error (old ++ [r]) i = Some x -> i <> List.length old ->
  (i < List.length old)%nat /\ nth_error old i = Some x.
Proof.
  intros H Hi.
  assert (Hlt : (i < List.length (old ++ [r]))%nat)
    by (apply nth_error_Some; congruence).
  rewrite length_app in Hlt. simpl in Hlt.
  assert (Hl : (i < List.length old)%nat) by lia.
  split; [assumption |]. now rewrite nth_error_app1 in H.
Qed.

Lemma noneOrOneOf_more urls url u :
  noneOrOneOf urls u -> noneOrOneOf (urls ++ [url]) u.
Proof. intros [-> | H]; [now left | right; apply in_or_app; now left]. Qed.

Lemma Forall_more urls url (l : list Run) :
  Forall (fun x => noneOrOneOf urls (capturedUrl x)) l ->
  Forall (fun x => noneOrOneOf (urls ++ [url]) (capturedUrl x)) l.
Proof.
  apply Forall_impl. intros x. apply noneOrOneOf_more.
Qed.

(** *** The invariant *)

Lemma mount_invariant p : cardInvariant (mount p).
Proof.
  exists [], (mkRun p true EmptyString true). simpl.
  repeat split; try constructor; try (now left); try constructor.
  intros a [].
Qed.

Lemma cleanup_current c old r :
  runs c = old ++ [r] ->
  cleanup (current c) c
  = mkCard (state c)
      (old ++ [mkRun (runPath r) false (capturedUrl r) (pending r)])
      (alive c) (created c)
      (if LightboxImages.nonEmpty (capturedUrl r)
       then revoked c ++ [capturedUrl r] else revoked c)
      (logged c).
Proof.
  intros H. unfold cleanup. rewrite (current_last c old r H), H, nth_last.
  now rewrite setRun_last.
Qed.

Lemma revoked_cleanup (urls revoked : list string) u :
  incl revoked urls -> noneOrOneOf urls u ->
  incl (if LightboxImages.nonEmpty u then revoked ++ [u] else revoked) urls.
Proof.
  intros Hr [-> | Hu]; [exact Hr |].
  destruct (LightboxImages.nonEmpty u); [| exact Hr].
  apply incl_app; [exact Hr |]. intros a [<- | []]. exact Hu.
Qed.

Lemma step_invariant c ev : cardInvariant c -> cardInvariant (step c ev).
Proof.
  intros Hinv.
  pose proof Hinv as (old & r & Hruns & Hold & Hm & Hload & Hurl & Hcap & Hrev).
  assert (Hr : noneOrOneOf (created c) (capturedUrl r)).
  { rewrite Hruns in Hcap. apply Forall_app in Hcap as [_ Hc].
    now apply Forall_cons_iff in Hc as [Hc _]. }
  assert (Hcold : Forall (fun x => noneOrOneOf (created c) (capturedUrl x)) old).
  { rewrite Hruns in Hcap. now apply Forall_app in Hcap as [Hc _]. }
  destruct ev as [p | i result url |]; cbn [step].
  - destruct (alive c) eqn:Ea;
      [| exact Hinv].
    rewrite (cleanup_current c old r Hruns). unfold effect. cbn.
    exists (old ++ [mkRun (runPath r) false (capturedUrl r) (pending r)]),
      (mkRun p true (imageUrl (state c)) true). cbn.
    split; [reflexivity |].
    split; [apply Forall_app; split; [assumption | single] |].
    split; [now rewrite Ea |]. split; [now split |].
    split; [assumption |].
    split; [| now apply revoked_cleanup].
    apply Forall_app. split; [| single].
    apply Forall_app. split; [assumption | single].
  - unfold settle.
    destruct (nth_error (runs c) i) as [x |] eqn:Ex;
      [| exact Hinv].
    destruct (pending x) eqn:Ep; cbn [negb];
      [| exact Hinv].
    destruct (Nat.eq_dec i (List.length old)) as [-> | Hi].
    + rewrite Hruns, nth_last in Ex. injection Ex as <-.
      rewrite Hruns, setRun_last.
      destruct result as [data | reason], (mounted r) eqn:Emr; cbn.
      * exists old, (mkRun (runPath r) true (capturedUrl r) false). cbn.
        split; [reflexivity |]. split; [assumption |].
        split; [now rewrite <- Hm |]. split; [discriminate |].
        split; [right; apply in_or_app; right; now left |].
        split; [| now apply incl_appl].
        apply Forall_app. split; [now apply Forall_more |].
        constructor; [| constructor]. now apply noneOrOneOf_more.
      * exists old, (mkRun (runPath r) false (capturedUrl r) false). cbn.
        split; [reflexivity |]. split; [assumption |].
        split; [now rewrite <- Hm |]. split; [discriminate |].
        split; [assumption |]. split; [| assumption].
        apply Forall_app. split; [assumption | single].
      * exists old, (mkRun (runPath r) true (capturedUrl r) false). cbn.
        split; [reflexivity |]. split; [assumption |].
        split; [now rewrite <- Hm |]. split; [discriminate |].
        split; [assumption |]. split; [| assumption].
        apply Forall_app. split; [assumption | single].
      * exists old, (mkRun (runPath r) false (capturedUrl r) false). cbn.
        split; [reflexivity |]. split; [assumption |].
        split; [now rewrite <- Hm |]. split; [discriminate |].
        split; [assumption |]. split; [| assumption].
        apply Forall_app. split; [assumption | single].
    + rewrite Hruns in Ex. destruct (nth_old old r i x Ex Hi) as [Hlt Hx].
      assert (Hmx : mounted x = false).
      { rewrite Forall_forall in Hold. apply Hold.
        now apply nth_error_In in Hx. }
      assert (Hcx : noneOrOneOf (created c) (capturedUrl x)).
      { rewrite Forall_forall in Hcold. apply Hcold.
        now apply nth_error_In in Hx. }
      rewrite Hruns, setRun_old by assumption. rewrite Hmx.
      destruct result as [data | reason]; cbn;
        exists (setRun i (mkRun (runPath x) false (capturedUrl x) false) old), r;
        cbn; (split; [reflexivity |]);
        (split; [now apply setRun_Forall |]);
        (split; [assumption |]); (split; [assumption |]);
        (split; [assumption |]); (split; [| assumption]);
        (apply Forall_app; split;
         [now apply setRun_Forall | single]).
  - destruct (alive c) eqn:Ea;
      [| exact Hinv].
    rewrite (cleanup_current c old r Hruns). cbn.
    exists old, (mkRun (runPath r) false (capturedUrl r) (pending r)). cbn.
    split; [reflexivity |]. split; [assumption |]. split; [reflexivity |].
    split; [discriminate |]. split; [assumption |].
    split; [| now apply revoked_cleanup].
    apply Forall_app. split; [assumption | single].
Qed.

Lemma life_invariant p events : cardInvariant (life p events).
Proof.
  unfold life. generalize (mount_invariant p). generalize (mount p).
  induction events as [| ev events IH]; intros c Hc; simpl; [assumption |].
  apply IH. now apply step_invariant.
Qed.

(** *** Loads that settle late *)

(** X19: a load that settles when its run of the effect is no longer
    the current one, or after the card has unmounted, sets no state and
    creates no object URL: the path the card was given last decides what
    it shows, in whatever order the loads settle. *)
Theorem stale_loads_are_ignored :
  forall (p : string) (events : list Event) (i : nat)
         (result : Settled (list Z)) (url : string),
    let c := life p events in
    i <> current c \/ alive c = false ->
    let c' := step c (Settle i result url) in
    state c' = state c /\ created c' = created c /\
    revoked c' = revoked c /\ alive c' = alive c.
Proof.
  intros p events i result url c Hi c'. subst c'.
  destruct (life_invariant p events)
    as (old & r & Hruns & Hold & Hm & _). fold c in Hruns, Hm.
  cbn [step]. unfold settle.
  destruct (nth_error (runs c) i) as [x |] eqn:Ex; [| now repeat split].
  destruct (pending x); cbn [negb]; [| now repeat split].
  assert (Hx : mounted x = false).
  { rewrite Hruns in Ex.
    destruct (Nat.eq_dec i (List.length old)) as [-> | Hne].
    - rewrite nth_last in Ex. injection Ex as <-.
      destruct Hi as [Hi | Hi]; [| congruence].
      now rewrite (current_last c old r Hruns) in Hi.
    - destruct (nth_old old r i x Ex Hne) as [_ Hin].
      rewrite Forall_forall in Hold. apply Hold.
      now apply nth_error_In in Hin. }
  rewrite Hx. destruct result; now repeat split.
Qed.

(** The theorem at a card whose path changes while its first load is
    pending, and the first load then is fulfilled. *)
Lemma stale_loads_are_ignored_witness :
  let c := life "a.png" [EffectAgain "b.png"] in
  (0%nat <> current c \/ alive c = false) /\
  state (step c (Settle 0 (Fulfilled [1; 2]) "blob:1")) = state c.
Proof.
  assert (H : 0%nat <> current (life "a.png" [EffectAgain "b.png"])
              \/ alive (life "a.png" [EffectAgain "b.png"]) = false)
    by (left; discriminate).
  split; [exact H |].
  exact (proj1 (stale_loads_are_ignored "a.png" [EffectAgain "b.png"] 0
                  (Fulfilled [1; 2]) "blob:1" H)).
Defined.

Lemma pending_current c old r :
  runs c = old ++ [r] -> loadPending c = pending r.
Proof.
  intros H. unfold loadPending.
  now rewrite (current_last c old r H), H, nth_last.
Qed.

Lemma settle_current c old r result url :
  runs c = old ++ [r] -> pending r = true -> mounted r = true ->
  settle (current c) result url c
  = match result with
    | Fulfilled _ =>
        mkCard (mkState url false (error (state c)))
          (old ++ [mkRun (runPath r) true (capturedUrl r) false])
          (alive c) (created c ++ [url]) (revoked c) (logged c)
    | Rejected _ =>
        mkCard (mkState (imageUrl (state c)) false true)
          (old ++ [mkRun (runPath r) true (capturedUrl r) false])
          (alive c) (created c) (revoked c)
          (logged c ++ ["Failed to load image:"%string])
    end.
Proof.
  intros H Hp Hm. unfold settle.
  rewrite (current_last c old r H), H, nth_last, Hp, Hm, setRun_last.
  reflexivity.
Qed.

(** X20: a mounted card whose current load is pending shows nothing
    inside its frame; when that load is fulfilled the card shows the
    picture at the new object URL, and when it is rejected the failure
    panel, whatever the card showed for an earlier path. *)
Theorem card_shows_current_load :
  forall (p : string) (events : list Event),
    let c := life p events in
    alive c = true -> loadPending c = true ->
    render (state c) = Blank /\
    (forall data url,
       render (state (step c (Settle (current c) (Fulfilled data) url)))
       = Picture url) /\
    (forall reason url,
       render (state (step c (Settle (current c) (Rejected reason) url)))
       = LoadFailed).
Proof.
  intros p events c Ha Hp.
  destruct (life_invariant p events)
    as (old & r & Hruns & _ & Hm & Hload & _).
  fold c in Hruns, Hm, Hload.
  rewrite (pending_current c old r Hruns) in Hp. rewrite Ha in Hm.
  destruct (Hload Hp Ha) as [Hl He].
  split; [unfold render; now rewrite Hl |].
  split; intros; cbn [step];
    rewrite (settle_current c old r _ _ Hruns Hp Hm); unfold render; cbn;
    [now rewrite He | reflexivity].
Qed.

(** The theorem at a card that has shown [a.png] and is given
    [b.png], whose load is rejected. *)
Lemma card_shows_current_load_witness :
  let c := life "a.png" [Settle 0 (Fulfilled [1; 2]) "blob:1";
                         EffectAgain "b.png"] in
  alive c = true /\ loadPending c = true /\
  render (state c) = Blank /\
  render (state (step c (Settle (current c) (Rejected "gone") "blob:2")))
  = LoadFailed.
Proof.
  pose proof (card_shows_current_load "a.png"
                [Settle 0 (Fulfilled [1; 2]) "blob:1"; EffectAgain "b.png"]
                eq_refl eq_refl) as [H1 [_ H3]].
  split; [reflexivity |]. split; [reflexivity |].
  split; [exact H1 | exact (H3 "gone"%string "blob:2"%string)].
Defined.

(** *** Object URLs *)

(** X21: the cleanup of the effect revokes the URL the card held when
    that run of the effect began, not the one the run's load has made.
    So when a card unmounts while it shows the picture of its current
    load, the object URL of that picture has been created and is not
    revoked. *)
Theorem shown_picture_is_not_revoked :
  forall (p : string) (events : list Event) (data : list Z) (url : string),
    let c := life p events in
    alive c = true -> loadPending c = true -> ~ In url (created c) ->
    let c' := step (step c (Settle (current c) (Fulfilled data) url))
                Unmount in
    alive c' = false /\
    imageUrl (state c') = url /\
    In url (created c') /\
    ~ In url (revoked c').
Proof.
  intros p events data url c Ha Hp Hfresh c'. subst c'.
  destruct (life_invariant p events)
    as (old & r & Hruns & _ & Hm & _ & _ & Hcap & Hrev).
  fold c in Hruns, Hm, Hcap, Hrev.
  rewrite (pending_current c old r Hruns) in Hp. rewrite Ha in Hm.
  assert (Hr : noneOrOneOf (created c) (capturedUrl r)).
  { rewrite Hruns in Hcap. apply Forall_app in Hcap as [_ Hc].
    now apply Forall_cons_iff in Hc as [Hc _]. }
  cbn [step]. rewrite (settle_current c old r _ _ Hruns Hp Hm).
  cbn [alive]. rewrite Ha.
  match goal with
  | |- context [cleanup (current ?x) ?x] =>
      rewrite (cleanup_current x old
                 (mkRun (runPath r) true (capturedUrl r) false) eq_refl)
  end.
  cbn. split; [reflexivity |]. split; [reflexivity |].
  split; [apply in_or_app; right; now left |].
  intros Hin.
  assert (Hin' : In url (revoked c) \/
                 (LightboxImages.nonEmpty (capturedUrl r) = true /\
                  url = capturedUrl r)).
  { destruct (LightboxImages.nonEmpty (capturedUrl r)); [| now left].
    apply in_app_or in Hin as [H | [<- | []]]; [now left | now right]. }
  destruct Hin' as [H | [Hne ->]]; [now apply Hfresh, Hrev |].
  destruct Hr as [E | H]; [| now apply Hfresh].
  rewrite E in Hne. discriminate.
Qed.

(** The theorem at a card that loads its picture and unmounts. *)
Lemma shown_picture_is_not_revoked_witness :
  let c := life "a.png" [] in
  alive c = true /\ loadPending c = true /\ ~ In "blob:1"%string (created c) /\
  ~ In "blob:1"%string
       (revoked (step (step c (Settle 0 (Fulfilled [1; 2]) "blob:1"))
                   Unmount)).
Proof.
  split; [reflexivity |]. split; [reflexivity |].
  assert (H : ~ In "blob:1"%string (created (life "a.png" [])))
    by (intros []).
  split; [exact H |].
  exact (proj2 (proj2 (proj2
           (shown_picture_is_not_revoked "a.png" [] [1; 2] "blob:1"
              eq_refl eq_refl H)))).
Defined.

(** When the path changes the URL of the picture shown so far is
    revoked at the next cleanup but one. *)
Example revoked_one_run_late :
  map revoked
    [life "a.png" [Settle 0 (Fulfilled [1]) "blob:1"; EffectAgain "b.png"];
     life "a.png" [Settle 0 (Fulfilled [1]) "blob:1"; EffectAgain "b.png";
                   Settle 1 (Fulfilled [2]) "blob:2"; Unmount]]
  = [[]; ["blob:1"%string]].
Proof. reflexivity. Qed.

End CardMore.

(** ** From a card to the overlay *)

Module GalleryMore.
Import Dom Props Examples.

Lemma cardsFrom_In images :
  forall i props,
    In props (ImageCard.cardsFrom i images) ->
    exists k : nat,
      ImageCard.index props = i + Z.of_nat k /\
      nth_error images k = Some (ImageCard.image props).
Proof.
  induction images as [| a images IH]; intros i props H; simpl in H;
    [contradiction |].
  destruct H as [<- | H].
  - exists 0%nat. simpl. split; [lia | reflexivity].
  - destruct (IH _ _ H) as [k [Hk Hn]]. exists (S k).
    split; [lia | exact Hn].
Qed.

Lemma card_at_index images props :
  In props (ImageCard.cards images) ->
  ImageLightbox.at_index images (ImageCard.index props)
  = Some (ImageCard.image props).
Proof.
  intros H. destruct (cardsFrom_In images 0 props H) as [k [Hk Hn]].
  unfold ImageLightbox.at_index. rewrite Hk.
  destruct (Z.ltb_spec (0 + Z.of_nat k) 0); [lia |].
  replace (Z.to_nat (0 + Z.of_nat k)) with k by lia. exact Hn.
Qed.

Lemma cardsFrom_length images :
  forall i, List.length (ImageCard.cardsFrom i images) = List.length images.
Proof.
  induction images as [| a images IH]; intros i; simpl; [reflexivity |].
  now rewrite IH.
Qed.

Lemma cardsFrom_images images :
  forall i, map ImageCard.image (ImageCard.cardsFrom i images) = images.
Proof.
  induction images as [| a images IH]; intros i; simpl; [reflexivity |].
  now rewrite IH.
Qed.

(** X22: App renders one card for every record of the list, in the
    order of the list; a click on a card opens the overlay with the
    card's record as the current one, leaves the list and both menus as
    they are, and a right-click then received by the overlay's listener
    with its menu closed and its closing flag down opens the item menu
    of that record. *)
Theorem card_click_opens_its_record :
  forall (images : list ImageMetadata) (props : ImageCard.Props)
         (s : Screen.State),
    In props (ImageCard.cards images) ->
    let s' := ImageCard.handleCardClick props s in
    map ImageCard.image (ImageCard.cards images) = images /\
    App.lightboxOpen (Screen.app s') = true /\
    App.images (Screen.app s') = App.images (Screen.app s) /\
    App.contextMenu (Screen.app s') = App.contextMenu (Screen.app s) /\
    ImageLightbox.contextMenu (Screen.overlay s')
    = ImageLightbox.contextMenu (Screen.overlay s) /\
    ImageLightbox.at_index images
      (ImageLightbox.currentIndex (Screen.overlay s'))
    = Some (ImageCard.image props) /\
    forall e : MouseEvent,
      ImageLightbox.isClosing (Screen.overlay s) = false ->
      position (ImageLightbox.contextMenu (Screen.overlay s)) = None ->
      ImageLightbox.handleContextMenu images e (Screen.overlay s')
      = (ImageLightbox.setContextMenu
           (mkMenu (Some (at_pointer e)) (Some (ImageCard.image props)))
           (Screen.overlay s'), true).
Proof.
  intros images props s Hin s'. subst s'.
  pose proof (card_at_index images props Hin) as Hat.
  split; [apply cardsFrom_images |].
  unfold ImageCard.handleCardClick, Screen.openOverlay. cbn.
  do 4 (split; [reflexivity |]). split; [exact Hat |].
  intros e Hc Hp. unfold ImageLightbox.handleContextMenu. cbn.
  now rewrite Hc, Hp, Hat.
Qed.

(** The theorem at the second card of a gallery of three. *)
Lemma card_click_opens_its_record_witness :
  In (ImageCard.mkProps b_shot 1) (ImageCard.cards gallery) /\
  ImageLightbox.at_index gallery
    (ImageLightbox.currentIndex
       (Screen.overlay
          (ImageCard.handleCardClick (ImageCard.mkProps b_shot 1)
             (Screen.mkState (idle gallery) (ImageLightbox.initial 0)))))
  = Some b_shot.
Proof.
  assert (H : In (ImageCard.mkProps b_shot 1) (ImageCard.cards gallery))
    by (right; left; reflexivity).
  split; [exact H |].
  exact (proj1 (proj2 (proj2 (proj2 (proj2 (proj2
           (card_click_opens_its_record gallery
              (ImageCard.mkProps b_shot 1)
              (Screen.mkState (idle gallery) (ImageLightbox.initial 0))
              H))))))).
Defined.

Lemma findByPath_listed p l a :
  In a l -> path a = p ->
  exists r, App.findByPath (Some p) l = Some r /\ In r l /\ path r = p.
Proof.
  intros Ha Hp. unfold App.findByPath.
  destruct (find (fun img => String.eqb (path img) p) l) as [r |] eqn:E.
  - exists r. apply find_some in E as [Hin Hr].
    repeat split; [assumption | now apply String.eqb_eq].
  - exfalso. apply (find_none _ _ E) in Ha.
    rewrite Hp, String.eqb_refl in Ha. discriminate.
Qed.

Lemma unique_path (l : list ImageMetadata) :
  NoDup (map path l) ->
  forall a b, In a l -> In b l -> path a = path b -> a = b.
Proof.
  induction l as [| c l IH]; simpl; intros Hn a b Ha Hb E; [contradiction |].
  apply NoDup_cons_iff in Hn as [Hc Hn].
  destruct Ha as [<- | Ha], Hb as [<- | Hb]; auto.
  - exfalso. apply Hc. rewrite E. now apply in_map.
  - exfalso. apply Hc. rewrite <- E. now apply in_map.
Qed.

Lemma card_listed images props :
  In props (ImageCard.cards images) -> In (ImageCard.image props) images.
Proof.
  intros H. destruct (cardsFrom_In images 0 props H) as [k [_ Hn]].
  now apply nth_error_In in Hn.
Qed.

(** X24: the element a card renders carries the two attributes App's
    router looks for. A right-click whose topmost element lies in the
    element of a card of the displayed list, with no menu open and outside
    the suppression window, opens the item menu of a record of the list
    that has the card's locator, and suppresses the platform default;
    that record is the card's own when no two records of the list have
    the same locator. *)
Theorem right_click_on_card_targets_its_record :
  forall (now : Z) (e : MouseEvent) (s : App.State)
         (props : ImageCard.Props) (parent : Element),
    In props (ImageCard.cards (App.images s)) ->
    closestOpt Spec.thumbnail (elementFromPoint e)
    = Some (ImageCard.element props parent) ->
    position (App.contextMenu s) = None ->
    300 <= now - App.lastCloseTime s ->
    exists r : ImageMetadata,
      App.handleNativeContextMenu now e s
      = (App.setContextMenu (Spec.itemMenu e r) s, true) /\
      In r (App.images s) /\
      path r = path (ImageCard.image props) /\
      (NoDup (map path (App.images s)) -> r = ImageCard.image props).
Proof.
  intros now e s props parent Hin Hel Hp Ht.
  pose proof (card_listed _ _ Hin) as Hl.
  destruct (findByPath_listed (path (ImageCard.image props)) (App.images s)
              (ImageCard.image props) Hl eq_refl) as [r [Hf [Hr Hpr]]].
  exists r. rewrite (RouterFacts.router_past_guards now e s Ht Hp).
  unfold App.recordUnder. fold Spec.thumbnail. rewrite Hel.
  cbn [ImageCard.element getAttribute attributes lookup String.eqb Ascii.eqb
       Bool.eqb]. rewrite Hf.
  split; [reflexivity |]. split; [assumption |]. split; [assumption |].
  intros Hn. now apply (unique_path (App.images s) Hn).
Qed.

(** The theorem at a right-click on the element of the second card of a
    gallery of three. *)
Lemma right_click_on_card_targets_its_record_witness :
  let props := ImageCard.mkProps b_shot 1 in
  let e := clickOn (ImageCard.element props grid) in
  In props (ImageCard.cards (App.images (idle gallery))) /\
  closestOpt Spec.thumbnail (elementFromPoint e)
  = Some (ImageCard.element props grid) /\
  position (App.contextMenu (idle gallery)) = None /\
  300 <= 1000 - App.lastCloseTime (idle gallery) /\
  exists r : ImageMetadata,
    App.handleNativeContextMenu 1000 e (idle gallery)
    = (App.setContextMenu (Spec.itemMenu e r) (idle gallery), true) /\
    In r gallery /\
    path r = path b_shot /\
    (NoDup (map path gallery) -> r = b_shot).
Proof.
  assert (H1 : In (ImageCard.mkProps b_shot 1)
                 (ImageCard.cards (App.images (idle gallery))))
    by (right; left; reflexivity).
  assert (H4 : 300 <= 1000 - App.lastCloseTime (idle gallery))
    by (simpl; lia).
  split; [exact H1 |]. split; [reflexivity |]. split; [reflexivity |].
  split; [exact H4 |].
  exact (right_click_on_card_targets_its_record 1000
           (clickOn (ImageCard.element (ImageCard.mkProps b_shot 1) grid))
           (idle gallery) (ImageCard.mkProps b_shot 1) grid
           H1 eq_refl eq_refl H4).
Defined.

End GalleryMore.

(** ** The pictures of the slides *)

Module SlideMore.
Import Api Merge LightboxImages.

Lemma Map_get_set_same {V : Type} k (v : V) m :
  Map_get k (Map_set k v m) = Some v.
Proof.
  induction m as [| [k' v'] m IH]; simpl.
  - now rewrite String.eqb_refl.
  - destruct (String.eqb k k') eqn:E; simpl.
    + now rewrite String.eqb_refl.
    + now rewrite E.
Qed.

Lemma Map_get_set_other {V : Type} k k0 (v : V) m :
  k0 <> k -> Map_get k0 (Map_set k v m) = Map_get k0 m.
Proof.
  intros Hk. induction m as [| [k' v'] m IH]; simpl.
  - destruct (String.eqb_spec k0 k); [contradiction | reflexivity].
  - destruct (String.eqb_spec k k') as [<- | Hne]; simpl.
    + destruct (String.eqb_spec k0 k); [contradiction | reflexivity].
    + now rewrite IH.
Qed.

(** X25: [getImageUrl] never rejects. A path found in the cache is
    answered from the cache with no file read and nothing changed. A path
    not found is read once; when the read is fulfilled the new object URL
    is returned and stored under the path, on top of what other calls
    have stored meanwhile and without touching the other paths, every
    later call for the path is answered with that URL from the cache, and
    the slide of a record with that path is built with it; when the read
    is rejected the empty string is returned, the failure
    is logged and nothing is stored, so that the next call reads the file
    again. *)
Theorem image_url_cache :
  forall (env : Environment) (others : list (JsMap string -> JsMap string))
         (p : string) (s : State),
    let r := getImageUrl env others p s in
    (forall url, Map_get p (imageCache s) = Some url -> r = (s, url)) /\
    (Map_get p (imageCache s) = None ->
     reads (fst r) = reads s ++ [p] /\
     (forall data, readImageFile env p = Fulfilled data ->
        snd r = createObjectURL env data /\
        Map_get p (imageCache (fst r)) = Some (snd r) /\
        (forall k, k <> p ->
           Map_get k (imageCache (fst r))
           = Map_get k (meanwhile others (imageCache s))) /\
        errors (fst r) = errors s /\
        (forall env' others',
           getImageUrl env' others' p (fst r) = (fst r, snd r)) /\
        (forall image,
           path image = p -> nonEmpty (snd r) = true ->
           slides (imageCache (fst r)) [image] = [mkSlide (snd r) p])) /\
     (forall reason, readImageFile env p = Rejected reason ->
        snd r = EmptyString /\
        imageCache (fst r) = meanwhile others (imageCache s) /\
        errors (fst r) = errors s ++ ["Failed to load image:"%string] /\
        forall env',
          Map_get p (meanwhile others (imageCache s)) = None ->
          reads (fst (getImageUrl env' [] p (fst r)))
          = reads s ++ [p; p])).
Proof.
  intros env others p s. cbv zeta. unfold getImageUrl. split.
  - intros url ->. reflexivity.
  - intros ->. split; [now destruct (readImageFile env p) |].
    split.
    + intros data ->. cbn.
      split; [reflexivity |]. split; [apply Map_get_set_same |].
      split; [intros k Hk; now apply Map_get_set_other |].
      split; [reflexivity |].
      split; [intros env' others'; now rewrite Map_get_set_same |].
      intros image <- Hne. unfold slides. cbn.
      now rewrite Map_get_set_same, Hne.
    + intros reason ->. cbn. repeat (split; [reflexivity |]).
      intros env' ->. cbn.
      destruct (readImageFile env' p); cbn; now rewrite <- app_assoc.
Qed.

Example second_call_is_served_from_cache :
  let env := mkEnv (fun _ => Fulfilled [1; 2; 3]) (fun _ => "blob:1"%string) in
  let r1 := getImageUrl env [] "a.png" initial in
  let r2 := getImageUrl env [] "a.png" (fst r1) in
  snd r1 = "blob:1"%string /\ snd r2 = "blob:1"%string /\
  reads (fst r2) = ["a.png"%string] /\
  slides (imageCache (fst r2)) [mkImage "a" "a.png" 10 None]
  = [mkSlide "blob:1" "a.png"].
Proof. repeat split. Qed.

End SlideMore.

(** ** The listeners together *)

Module PageFacts.
Import Dom Api Async App Spec Aux Props Examples.

(** *** A right-click the router declines *)

Lemma router_declines now e s :
  position (contextMenu s) = None ->
  300 <= now - lastCloseTime s ->
  routing e s = NoOp ->
  handleNativeContextMenu now e s = (s, true).
Proof.
  intros Hp Ht Hr.
  rewrite (RouterFacts.router_past_guards now e s Ht Hp).
  unfold routing in Hr. rewrite Hp in Hr. cbn [isSome] in Hr.
  fold thumbnail fullViewImage.
  destruct (recordUnder thumbnail _ _); [discriminate |].
  destruct (recordUnder fullViewImage _ _); [discriminate |].
  destruct (isSome (closestOpt (ByTag "main") (elementFromPoint e)));
    [| reflexivity].
  destruct (images s); [reflexivity | discriminate].
Qed.

Lemma component_repositions now e s tr :
  button e = 2 ->
  exists target,
    state (fst (handleInput now (ContextMenu.RightClick e) (mkWorld s tr)))
    = setContextMenu (mkMenu (Some (at_pointer e)) target) s /\
    (images s = [] -> target = None).
Proof.
  intros Hb. unfold handleInput. cbn [ContextMenu.react].
  unfold ContextMenu.handleNativeContextMenu. rewrite Hb.
  cbn [Z.eqb Pos.eqb negb].
  assert (Ht : forall p t,
             exists target,
               onReposition p t s = setContextMenu (mkMenu (Some p) target) s
               /\ (images s = [] -> target = None)).
  { intros p t. unfold onReposition. destruct (truthy t).
    - eexists. split; [reflexivity |]. now intros ->.
    - eexists. split; [reflexivity |]. reflexivity. }
  destruct (closest (ByAttr "data-image-path") (target e));
    [| destruct (find _ (elementsFromPoint e))];
    cbn [fst snd fold_left call callbackTask callbackState start onState
         state trace]; apply Ht.
Qed.

Lemma entries_shown w p target s :
  lightboxOpen s = false ->
  entries w (setContextMenu (mkMenu (Some p) target) s)
  = Some (ContextMenu.menuItems target).
Proof.
  intros Ho. unfold entries, renderedMenu. simpl. rewrite Ho.
  unfold ContextMenu.render, ContextMenu.adjustedPosition. simpl.
  now destruct (_ <? _).
Qed.

(** C3, where the router decides for no menu. A right-click with no
    menu open and outside the suppression window that resolves to no
    record and is not on the gallery surface of a non-empty list, which
    includes every click on an empty list: the router suppresses the
    platform default and writes nothing, so that by the router no menu
    is rendered. The listener of the menu component, which App keeps
    mounted while the overlay is closed and which is called for the same
    event, sets the menu state at the pointer, and a menu is rendered:
    on an empty list the clear menu with its one entry. *)
Theorem right_click_the_router_declines :
  forall (now innerWidth : Z) (e : MouseEvent) (s : State)
         (tr : list Event),
    button e = 2 -> lightboxOpen s = false ->
    position (contextMenu s) = None -> 300 <= now - lastCloseTime s ->
    routing e s = NoOp ->
    handleNativeContextMenu now e s = (s, true) /\
    entries innerWidth s = None /\
    let s' := state (fst (handleInput now (ContextMenu.RightClick e)
                            (mkWorld s tr))) in
    (exists target,
       s' = setContextMenu (mkMenu (Some (at_pointer e)) target) s /\
       entries innerWidth s' = Some (ContextMenu.menuItems target)) /\
    (images s = [] ->
     s' = setContextMenu (clearMenu e) s /\
     entries innerWidth s' = Some [ContextMenu.clearItem]).
Proof.
  intros now w e s tr Hb Ho Hp Ht Hr.
  split; [now apply router_declines |].
  split; [now apply RouterFacts.entries_closed |].
  cbv zeta. destruct (component_repositions now e s tr Hb) as [tg [E Hn]].
  rewrite E. split.
  - exists tg. split; [reflexivity | now apply entries_shown].
  - intros Hl. rewrite (Hn Hl).
    split; [reflexivity | now apply RouterFacts.entries_clear].
Qed.

(** The theorem at a right-click beside the gallery surface of an empty
    gallery. *)
Lemma right_click_the_router_declines_witness :
  button outside = 2 /\ lightboxOpen (idle []) = false /\
  position (contextMenu (idle [])) = None /\
  300 <= 1000 - lastCloseTime (idle []) /\
  routing outside (idle []) = NoOp /\
  handleNativeContextMenu 1000 outside (idle []) = (idle [], true) /\
  entries 1280
    (state (fst (handleInput 1000 (ContextMenu.RightClick outside)
                   (mkWorld (idle []) []))))
  = Some [ContextMenu.clearItem].
Proof.
  assert (Ht : 300 <= 1000 - lastCloseTime (idle [])) by (simpl; lia).
  do 3 (split; [reflexivity |]). split; [exact Ht |].
  split; [reflexivity |].
  pose proof (right_click_the_router_declines 1000 1280 outside (idle []) []
                eq_refl eq_refl eq_refl Ht eq_refl) as [H1 [_ H3]].
  cbv zeta in H3. split; [exact H1 | exact (proj2 (proj2 H3 eq_refl))].
Defined.

(** The same beside the gallery surface of a gallery of three, and on
    the surface of an empty one. *)
Example right_click_beside_the_gallery :
  handleNativeContextMenu 1000 outside (idle gallery)
  = (idle gallery, true) /\
  entries 1280
    (state (fst (handleInput 1000 (ContextMenu.RightClick outside)
                   (mkWorld (idle gallery) []))))
  = Some [ContextMenu.clearItem] /\
  handleNativeContextMenu 1000 (clickOn grid) (idle []) = (idle [], true) /\
  entries 1280
    (state (fst (handleInput 1000 (ContextMenu.RightClick (clickOn grid))
                   (mkWorld (idle []) []))))
  = Some [ContextMenu.clearItem].
Proof. repeat split. Qed.

(** The listener of the menu component does not look at the close
    time: 150ms after the cancel key has closed the menu the router
    leaves the click alone, and the component sets the clear menu. *)
Example component_answers_inside_the_window :
  handleNativeContextMenu 5150 (clickOn grid) after_escape
  = (after_escape, false) /\
  state (fst (handleInput 5150 (ContextMenu.RightClick (clickOn grid))
                (mkWorld after_escape [])))
  = setContextMenu (mkMenu (Some (mkPos 120 80)) None) after_escape.
Proof. split; reflexivity. Qed.

(** *** Opening the overlay *)









(** *** Repositioning the overlay's menu *)

Local Abbreviation lastWithRecord fs :=
  (match find hasRecord (rev fs) with
   | Some f => mkMenu (Some (ImageLightbox.anchor f))
                      (ImageLightbox.currentImage f)
   | None => closedMenu
   end).

Lemma frame_after_queue (s : ImageLightbox.State) clears p current m c :
  let f := ImageLightbox.mkFrame clears p current in
  let s1 := ImageLightbox.mkState (ImageLightbox.currentIndex s) m c
              (ImageLightbox.frames s ++ [f]) in
  m = closedMenu ->
  ImageLightbox.frames (ImageLightbox.animationFrame s1) = [] /\
  ImageLightbox.currentIndex (ImageLightbox.animationFrame s1)
  = ImageLightbox.currentIndex s /\
  ImageLightbox.isClosing (ImageLightbox.animationFrame s1)
  = (if clears || existsb ImageLightbox.clearsClosing (ImageLightbox.frames s)
     then false else c) /\
  ImageLightbox.contextMenu (ImageLightbox.animationFrame s1)
  = match current with
    | Some r => mkMenu (Some p) (Some r)
    | None => lastWithRecord (ImageLightbox.frames s)
    end.
Proof.
  intros f s1 ->. subst s1. unfold ImageLightbox.animationFrame.
  cbn [ImageLightbox.frames ImageLightbox.currentIndex
       ImageLightbox.contextMenu ImageLightbox.isClosing].
  destruct (LightboxMore.frames_fold (ImageLightbox.frames s ++ [f])
              (ImageLightbox.mkState (ImageLightbox.currentIndex s)
                 closedMenu c [])) as [H1 [H2 [H3 H4]]].
  rewrite H1, H2, H3, H4. clear H1 H2 H3 H4.
  rewrite rev_app_distr, existsb_app. subst f.
  cbn [rev app find existsb ImageLightbox.clearsClosing hasRecord
       ImageLightbox.currentImage ImageLightbox.anchor
       ImageLightbox.frames ImageLightbox.currentIndex
       ImageLightbox.isClosing ImageLightbox.contextMenu].
  rewrite orb_false_r, orb_comm.
  repeat split. now destruct current.
Qed.



(** The menu shown in the portal has a listener of its own, installed
    after the overlay's, which answers the same right-click with the
    overlay's [handleCloseContextMenu]. After a reposition the menu
    therefore stands open with the closing flag up, and the router
    answers the next right-click by lowering the flag only. *)
Example reposition_leaves_flag_up :
  let app := handleImageClick 1 (idle [c_shot; b_shot]) in
  let heard := ImageLightbox.handleContextMenu [c_shot; b_shot]
                 second_click stale_overlay in
  let closed := Screen.overlayMenuInput 9000
                  (ContextMenu.RightClick second_click)
                  (Screen.mkState app (fst heard)) in
  let shown := ImageLightbox.animationFrame (Screen.overlay closed) in
  ImageLightbox.contextMenu shown
  = mkMenu (Some (mkPos 300 200)) (Some b_shot) /\
  ImageLightbox.isClosing shown = true /\
  ImageLightbox.handleContextMenu [c_shot; b_shot] second_click shown
  = (ImageLightbox.setIsClosing false shown, false).
Proof. repeat split. Qed.

(** *** The closing flag *)

(** X9: once the overlay's menu has been closed through
    [handleCloseContextMenu], the overlay's listener answers the next
    [contextmenu] event by lowering the closing flag only: it opens no
    menu, queues nothing and does not call [preventDefault], and a
    further event reaching it opens the item menu of the current record
    at once. When the pointer is over a slide that shows its picture,
    the slide's own handler runs for the same event after the listener:
    it calls [showContextMenu], so the flag is up again, the menu closed
    and one callback queued, and the next animation frame lowers the
    flag and opens the item menu of the current record at the
    pointer. *)
Theorem right_click_after_menu_close :
  forall (images : list ImageMetadata) (e : MouseEvent)
         (s : ImageLightbox.State) (r : ImageMetadata),
    ImageLightbox.at_index images (ImageLightbox.currentIndex s) = Some r ->
    let s0 := ImageLightbox.handleCloseContextMenu s in
    let heard := ImageLightbox.handleContextMenu images e s0 in
    let onSlide :=
      ImageLightbox.showContextMenu images (clientX e) (clientY e)
        (fst heard) in
    ImageLightbox.contextMenu s0 = closedMenu /\
    ImageLightbox.isClosing s0 = true /\
    heard = (ImageLightbox.setIsClosing false s0, false) /\
    ImageLightbox.contextMenu (fst heard) = closedMenu /\
    ImageLightbox.frames (fst heard) = ImageLightbox.frames s /\
    (forall e2 : MouseEvent,
       ImageLightbox.handleContextMenu images e2 (fst heard)
       = (ImageLightbox.setContextMenu
            (mkMenu (Some (at_pointer e2)) (Some r)) (fst heard), true)) /\
    ImageLightbox.contextMenu onSlide = closedMenu /\
    ImageLightbox.isClosing onSlide = true /\
    ImageLightbox.frames onSlide
    = ImageLightbox.frames s
        ++ [ImageLightbox.mkFrame true (at_pointer e) (Some r)] /\
    ImageLightbox.frames (ImageLightbox.animationFrame onSlide) = [] /\
    ImageLightbox.isClosing (ImageLightbox.animationFrame onSlide) = false /\
    ImageLightbox.contextMenu (ImageLightbox.animationFrame onSlide)
    = mkMenu (Some (at_pointer e)) (Some r).
Proof.
  intros images e s r Hr. cbv zeta.
  assert (Hh : ImageLightbox.handleContextMenu images e
                 (ImageLightbox.handleCloseContextMenu s)
               = (ImageLightbox.mkState (ImageLightbox.currentIndex s)
                    closedMenu false (ImageLightbox.frames s), false))
    by reflexivity.
  rewrite Hh. cbn [fst snd].
  do 5 (split; [reflexivity |]).
  split.
  { intros e2. unfold ImageLightbox.handleContextMenu.
    cbn [ImageLightbox.isClosing ImageLightbox.contextMenu position isSome
         closedMenu ImageLightbox.currentIndex].
    now rewrite Hr. }
  unfold ImageLightbox.showContextMenu,
    ImageLightbox.requestAnimationFrame, ImageLightbox.setContextMenu,
    ImageLightbox.setIsClosing.
  cbn [ImageLightbox.currentIndex ImageLightbox.contextMenu
       ImageLightbox.isClosing ImageLightbox.frames].
  rewrite Hr.
  destruct (frame_after_queue s true (at_pointer e) (Some r)
              closedMenu true eq_refl) as [H1 [_ [H3 H4]]].
  repeat split; assumption.
Qed.

(** The theorem at the second of two slides, the menu of [b.png] just
    closed, and a right-click at (300, 200). *)
Lemma right_click_after_menu_close_witness :
  let s0 := ImageLightbox.handleCloseContextMenu stale_overlay in
  let heard := ImageLightbox.handleContextMenu [c_shot; b_shot]
                 second_click s0 in
  let onSlide := ImageLightbox.showContextMenu [c_shot; b_shot] 300 200
                   (fst heard) in
  ImageLightbox.at_index [c_shot; b_shot]
    (ImageLightbox.currentIndex stale_overlay) = Some b_shot /\
  snd heard = false /\
  ImageLightbox.contextMenu (fst heard) = closedMenu /\
  ImageLightbox.contextMenu (ImageLightbox.animationFrame onSlide)
  = mkMenu (Some (mkPos 300 200)) (Some b_shot).
Proof.
  cbv zeta. split; [reflexivity |].
  pose proof (right_click_after_menu_close [c_shot; b_shot] second_click
                stale_overlay b_shot eq_refl) as H.
  cbv zeta in H.
  destruct H as [_ [_ [H1 [H2 [_ [_ [_ [_ [_ [_ [_ H3]]]]]]]]]]].
  split; [exact (f_equal snd H1) |]. split; [exact H2 | exact H3].
Defined.

(** *** The menu of the overlay *)

Lemma overlayMenu_screen now i w :
  OverlayMenu.screen (fst (OverlayMenu.handleInput now i w))
  = Screen.overlayMenuInput now i (OverlayMenu.screen w).
Proof.
  destruct w as [[[l m o ix t] [ci [cp cr] cc fs]] tr].
  unfold OverlayMenu.handleInput, Screen.overlayMenuInput.
  destruct i as [key | e | btn | btn | [lbl [| img | img | | p tp] dg]];
    unfold ContextMenu.react, ContextMenu.handleEscape,
      ContextMenu.handleNativeContextMenu, ContextMenu.overlayMouseDown,
      ContextMenu.overlayMouseUp, ContextMenu.itemClick;
    cbn [ContextMenu.onClick fst];
    [destruct (String.eqb key "Escape") | destruct (button e =? 2)
    | destruct (btn =? 0) | destruct (btn =? 0) | | | | |];
    destruct cr as [r |]; reflexivity.
Qed.

Lemma overlayMenuInput_keeps now i s :
  ImageLightbox.frames (Screen.overlay (Screen.overlayMenuInput now i s))
  = ImageLightbox.frames (Screen.overlay s) /\
  contextMenu (Screen.app (Screen.overlayMenuInput now i s))
  = contextMenu (Screen.app s).
Proof.
  destruct s as [[l m o ix t] [ci [cp cr] cc fs]].
  unfold Screen.overlayMenuInput.
  destruct i as [key | e | btn | btn | [lbl [| img | img | | p tp] dg]];
    unfold ContextMenu.react, ContextMenu.handleEscape,
      ContextMenu.handleNativeContextMenu, ContextMenu.overlayMouseDown,
      ContextMenu.overlayMouseUp, ContextMenu.itemClick;
    cbn [ContextMenu.onClick fst];
    [destruct (String.eqb key "Escape") | destruct (button e =? 2)
    | destruct (btn =? 0) | destruct (btn =? 0) | | | | |];
    destruct cr as [r |]; split; reflexivity.
Qed.

(** X11: an input of the overlay's menu. The handler writes neither
    the list, nor the top-level menu, nor the indices, nor the queued
    callbacks. A closure path or a right-click closes the menu, raises
    the closing flag and records the time; any other input changes
    nothing. The overlay itself is closed by the delete entry of a menu
    that holds a record, and by nothing else. The copy and delete
    entries of a menu that holds a record first call App's [handleCopy]
    and [handleDelete] with that record: when the handler returns the
    call to the store has been made and the task is suspended, the only
    task left. When the promise of the delete call settles, the task
    takes the records with that identity out of the list displayed at
    that time, and leaves the list alone if the call was rejected. *)
Theorem overlay_menu_inputs :
  forall (now : Z) (i : ContextMenu.Input) (w : OverlayMenu.World),
    let s := OverlayMenu.screen w in
    let r := OverlayMenu.handleInput now i w in
    let s' := OverlayMenu.screen (fst r) in
    let started := start (entryTask i s) (OverlayMenu.appWorld w) in
    images (Screen.app s') = images (Screen.app s) /\
    contextMenu (Screen.app s') = contextMenu (Screen.app s) /\
    lightboxIndex (Screen.app s') = lightboxIndex (Screen.app s) /\
    ImageLightbox.currentIndex (Screen.overlay s')
    = ImageLightbox.currentIndex (Screen.overlay s) /\
    ImageLightbox.frames (Screen.overlay s')
    = ImageLightbox.frames (Screen.overlay s) /\
    (closesOverlayMenu i = true -> overlayMenuClosed now s') /\
    (closesOverlayMenu i = false -> fst r = w) /\
    lightboxOpen (Screen.app s')
    = (if deletes i s then false else lightboxOpen (Screen.app s)) /\
    s' = Screen.overlayMenuInput now i s /\
    OverlayMenu.trace (fst r) = trace (fst started) /\
    (forall (env : Environment) (w2 : World),
       settleAll env (snd r) w2 = resume env (snd started) w2) /\
    (forall (item : ContextMenu.MenuItem) (img : ImageMetadata),
       i = ContextMenu.ItemClick item ->
       image (ImageLightbox.contextMenu (Screen.overlay s)) = Some img ->
       (forall x, ContextMenu.onClick item = ContextMenu.onCopy x ->
          OverlayMenu.trace (fst r)
          = OverlayMenu.trace w ++ [Called resetClipboardHash]) /\
       (forall x, ContextMenu.onClick item = ContextMenu.onDelete x ->
          OverlayMenu.trace (fst r)
          = OverlayMenu.trace w ++ [Called (deleteImage (id img))] /\
          forall (env : Environment) (w2 : World),
            images (state (settleAll env (snd r) w2))
            = match perform env (deleteImage (id img)) with
              | Fulfilled _ => without img (images (state w2))
              | Rejected _ => images (state w2)
              end)).
Proof.
  intros now i [[[l m o ix t] [ci [cp cr] cc fs]] tr]. cbv zeta.
  unfold OverlayMenu.handleInput, Screen.overlayMenuInput, overlayMenuClosed.
  destruct i as [key | e | btn | btn | [lbl [| img | img | | p tp] dg]];
    unfold ContextMenu.react, ContextMenu.handleEscape,
      ContextMenu.handleNativeContextMenu, ContextMenu.overlayMouseDown,
      ContextMenu.overlayMouseUp, ContextMenu.itemClick;
    cbn [ContextMenu.onClick closesOverlayMenu closes deletes negb fst
         entryTask];
    [destruct (String.eqb key "Escape") | destruct (button e =? 2)
    | destruct (btn =? 0) | destruct (btn =? 0) | | | | |];
    destruct cr as [r |]; cbn -[perform Merge.merge];
    repeat match goal with |- _ /\ _ => split end;
    try reflexivity; try (intros _; repeat split; fail);
    try (intros H; discriminate H);
    intros item img0 Hi Him; try discriminate Hi; try discriminate Him;
    injection Hi as <-; injection Him as <-; cbn [ContextMenu.onClick];
    (split; intros x Hx; try discriminate Hx); try reflexivity.
  split; [reflexivity |]. intros env w2.
  destruct (perform env (deleteImage (id r))); reflexivity.
Qed.

(** The delete entry of the menu of [b.png], chosen in the overlay: the
    overlay closes, the store has been called, and the record leaves the
    list when the call is fulfilled. *)
Example overlay_delete_entry :
  let r := OverlayMenu.handleInput 7000
             (ContextMenu.ItemClick (ContextMenu.deleteItem b_shot))
             overlay_menu_open in
  lightboxOpen (Screen.app (OverlayMenu.screen (fst r))) = false /\
  OverlayMenu.trace (fst r) = [Called (deleteImage (id b_shot))] /\
  images (state (settleAll (store gallery) (snd r)
                   (OverlayMenu.appWorld (fst r))))
  = [c_shot; a_shot] /\
  images (state (settleAll offline (snd r) (OverlayMenu.appWorld (fst r))))
  = gallery.
Proof. repeat split. Qed.

(** X23: the overlay component stays mounted while the overlay is
    closed, and keeps its closing flag. After its menu has been closed
    by any closure path or by a right-click, the overlay has been closed
    (by the delete entry itself, or by its [onClose]) and opened again
    by a click on a card, the overlay is open on the card's index with
    its menu closed and the flag still up. The overlay's listener
    answers the first [contextmenu] event by lowering the flag only,
    opening no menu, queueing nothing and leaving the platform default.
    When the pointer is over a slide that shows its picture, the slide's
    handler runs for the same event after the listener and calls
    [showContextMenu]: the flag is up again and one callback queued, and
    the next animation frame lowers the flag and opens the item menu of
    the record at the card's index, if there is one, at the pointer. *)
Theorem reopened_overlay_keeps_closing_flag :
  forall (now : Z) (i : ContextMenu.Input) (props : ImageCard.Props)
         (images : list ImageMetadata) (e : MouseEvent)
         (w : OverlayMenu.World),
    closesOverlayMenu i = true ->
    position (contextMenu (Screen.app (OverlayMenu.screen w))) = None ->
    let s1 := OverlayMenu.screen (fst (OverlayMenu.handleInput now i w)) in
    let closed := Screen.mkState (handleCloseLightbox (Screen.app s1))
                    (Screen.overlay s1) in
    let s2 := ImageCard.handleCardClick props closed in
    let heard :=
      ImageLightbox.handleContextMenu images e (Screen.overlay s2) in
    let onSlide :=
      ImageLightbox.showContextMenu images (clientX e) (clientY e)
        (fst heard) in
    possible (ImageClick (ImageCard.index props)) (Screen.app closed) /\
    lightboxOpen (Screen.app s2) = true /\
    ImageLightbox.currentIndex (Screen.overlay s2) = ImageCard.index props /\
    ImageLightbox.contextMenu (Screen.overlay s2) = closedMenu /\
    ImageLightbox.isClosing (Screen.overlay s2) = true /\
    heard = (ImageLightbox.setIsClosing false (Screen.overlay s2), false) /\
    ImageLightbox.contextMenu (fst heard) = closedMenu /\
    ImageLightbox.frames (fst heard)
    = ImageLightbox.frames (Screen.overlay (OverlayMenu.screen w)) /\
    ImageLightbox.contextMenu onSlide = closedMenu /\
    ImageLightbox.isClosing onSlide = true /\
    ImageLightbox.frames onSlide
    = ImageLightbox.frames (Screen.overlay (OverlayMenu.screen w))
        ++ [ImageLightbox.mkFrame true (at_pointer e)
              (ImageLightbox.at_index images (ImageCard.index props))] /\
    ImageLightbox.isClosing (ImageLightbox.animationFrame onSlide) = false /\
    forall r : ImageMetadata,
      ImageLightbox.at_index images (ImageCard.index props) = Some r ->
      ImageLightbox.contextMenu (ImageLightbox.animationFrame onSlide)
      = mkMenu (Some (at_pointer e)) (Some r).
Proof.
  intros now i props images e w Hc Hp. cbv zeta.
  match goal with
  | |- context [OverlayMenu.screen (fst (OverlayMenu.handleInput now i w))] =>
      set (s1 := OverlayMenu.screen (fst (OverlayMenu.handleInput now i w)))
  end.
  assert (E : s1 = Screen.overlayMenuInput now i (OverlayMenu.screen w)).
  { subst s1.
    apply overlayMenu_screen. }
  destruct (WindowFacts.overlay_closes now i (OverlayMenu.screen w) Hc)
    as [Hm [Hf _]].
  rewrite <- E in Hm, Hf.
  assert (Hfs : ImageLightbox.frames (Screen.overlay s1)
                = ImageLightbox.frames (Screen.overlay (OverlayMenu.screen w))).
  { rewrite E. apply overlayMenuInput_keeps. }
  assert (Hcm : contextMenu (Screen.app s1)
                = contextMenu (Screen.app (OverlayMenu.screen w))).
  { rewrite E. apply overlayMenuInput_keeps. }
  clearbody s1. destruct s1 as [a [ci cm cc fs]].
  cbn [Screen.overlay Screen.app ImageLightbox.contextMenu
       ImageLightbox.isClosing ImageLightbox.frames] in Hm, Hf, Hfs, Hcm.
  subst cm cc fs.
  unfold ImageCard.handleCardClick, Screen.openOverlay,
    ImageLightbox.setCurrentIndex.
  cbn [Screen.overlay Screen.app
       ImageLightbox.contextMenu ImageLightbox.isClosing
       ImageLightbox.frames ImageLightbox.currentIndex].
  assert (Hh : ImageLightbox.handleContextMenu images e
                 (ImageLightbox.mkState (ImageCard.index props) closedMenu
                    true
                    (ImageLightbox.frames
                       (Screen.overlay (OverlayMenu.screen w))))
               = (ImageLightbox.mkState (ImageCard.index props) closedMenu
                    false
                    (ImageLightbox.frames
                       (Screen.overlay (OverlayMenu.screen w))), false))
    by reflexivity.
  rewrite Hh. cbn [fst snd].
  split; [split; [reflexivity | now rewrite <- Hp, <- Hcm] |].
  do 7 (split; [reflexivity |]).
  unfold ImageLightbox.showContextMenu,
    ImageLightbox.requestAnimationFrame, ImageLightbox.setContextMenu,
    ImageLightbox.setIsClosing.
  cbn [ImageLightbox.currentIndex ImageLightbox.contextMenu
       ImageLightbox.isClosing ImageLightbox.frames].
  destruct (frame_after_queue
              (ImageLightbox.mkState (ImageCard.index props) closedMenu
                 false
                 (ImageLightbox.frames
                    (Screen.overlay (OverlayMenu.screen w))))
              true (at_pointer e)
              (ImageLightbox.at_index images (ImageCard.index props))
              closedMenu true eq_refl) as [_ [_ [H3 H4]]].
  cbn [ImageLightbox.currentIndex ImageLightbox.frames] in H3, H4.
  do 3 (split; [reflexivity |]). split; [exact H3 |].
  intros r Hr. rewrite Hr in H4 |- *. exact H4.
Qed.

(** The theorem at the overlay whose delete entry is chosen on
    [b.png], and which is opened again on the first card of the two
    records left. *)
Lemma reopened_overlay_keeps_closing_flag_witness :
  let s1 := OverlayMenu.screen
              (fst (OverlayMenu.handleInput 7000
                      (ContextMenu.ItemClick (ContextMenu.deleteItem b_shot))
                      overlay_menu_open)) in
  let s2 := ImageCard.handleCardClick (ImageCard.mkProps c_shot 0)
              (Screen.mkState (handleCloseLightbox (Screen.app s1))
                 (Screen.overlay s1)) in
  let heard := ImageLightbox.handleContextMenu [c_shot; a_shot]
                 second_click (Screen.overlay s2) in
  closesOverlayMenu (ContextMenu.ItemClick (ContextMenu.deleteItem b_shot))
  = true /\
  position (contextMenu (Screen.app (OverlayMenu.screen overlay_menu_open)))
  = None /\
  snd heard = false /\
  ImageLightbox.contextMenu (fst heard) = closedMenu /\
  ImageLightbox.contextMenu
    (ImageLightbox.animationFrame
       (ImageLightbox.showContextMenu [c_shot; a_shot] 300 200 (fst heard)))
  = mkMenu (Some (mkPos 300 200)) (Some c_shot).
Proof.
  cbv zeta. split; [reflexivity |]. split; [reflexivity |].
  pose proof (reopened_overlay_keeps_closing_flag 7000
                (ContextMenu.ItemClick (ContextMenu.deleteItem b_shot))
                (ImageCard.mkProps c_shot 0) [c_shot; a_shot] second_click
                overlay_menu_open eq_refl eq_refl) as H.
  cbv zeta in H.
  destruct H as [_ [_ [_ [_ [_ [H1 [H2 [_ [_ [_ [_ [_ H3]]]]]]]]]]]].
  split; [exact (f_equal snd H1) |]. split; [exact H2 |].
  exact (H3 c_shot eq_refl).
Defined.

End PageFacts.
